(** * spacy_ud: conversion of spaCy dependency parses to Universal Dependencies

    A shallow embedding of [main.py].  Word nodes are mutable Python objects
    that refer to one another ([governor_word], the members of a named
    entity); a sentence is modelled as a store of word records, a reference
    to a word is its slot in [word_nodes], and every function of the source
    that mutates words or prints is a computation of a small state and
    exception monad over that store and the output stream. *)

From Stdlib Require Import ZArith String List Ascii DecimalString Sorted.
From stdpp Require Import base list strings.

Open Scope Z_scope.
Open Scope string_scope.

(** ** Data model *)

(** A reference to a word node of the sentence under conversion; [None] is
    Python's [None]. *)
Abbreviation ref := nat (only parsing).
Abbreviation obj := (option nat) (only parsing).

(** The dictionary stored in [WordNode.ner]. *)
Record Ner := {
  ner_text : string;
  ner_words : list obj;
  ner_span : Z * Z;
  ner_type : string }.

(** [WordNode].  The constructor's placeholders for [lemma], [upos],
    [features], [span], [dependency_relation] and [governor] are overwritten
    by [spacy_to_ud_token] before the node is appended to its sentence, so
    these fields are not optional here.  [wn_id] and [all_wn] (the global
    registry) are not read by any function and are left out;
    [sentence_node] is the store itself. *)
Record WordNode := {
  index : Z;
  text : string;
  lemma : string;
  upos : string;
  features : list (string * string);
  span : Z * Z;
  ner : option Ner;
  ner_head_word : obj;
  dependency_relation : string;
  governor : Z;
  governor_word : obj }.

Definition with_upos (v : string) (w : WordNode) : WordNode :=
  {| index := index w; text := text w; lemma := lemma w; upos := v;
     features := features w; span := span w; ner := ner w;
     ner_head_word := ner_head_word w;
     dependency_relation := dependency_relation w;
     governor := governor w; governor_word := governor_word w |}.

Definition with_ner (v : option Ner) (w : WordNode) : WordNode :=
  {| index := index w; text := text w; lemma := lemma w; upos := upos w;
     features := features w; span := span w; ner := v;
     ner_head_word := ner_head_word w;
     dependency_relation := dependency_relation w;
     governor := governor w; governor_word := governor_word w |}.

Definition with_ner_head_word (v : obj) (w : WordNode) : WordNode :=
  {| index := index w; text := text w; lemma := lemma w; upos := upos w;
     features := features w; span := span w; ner := ner w;
     ner_head_word := v;
     dependency_relation := dependency_relation w;
     governor := governor w; governor_word := governor_word w |}.

Definition with_dependency_relation (v : string) (w : WordNode) : WordNode :=
  {| index := index w; text := text w; lemma := lemma w; upos := upos w;
     features := features w; span := span w; ner := ner w;
     ner_head_word := ner_head_word w;
     dependency_relation := v;
     governor := governor w; governor_word := governor_word w |}.

Definition with_governor (v : Z) (w : WordNode) : WordNode :=
  {| index := index w; text := text w; lemma := lemma w; upos := upos w;
     features := features w; span := span w; ner := ner w;
     ner_head_word := ner_head_word w;
     dependency_relation := dependency_relation w;
     governor := v; governor_word := governor_word w |}.

Definition with_governor_word (v : obj) (w : WordNode) : WordNode :=
  {| index := index w; text := text w; lemma := lemma w; upos := upos w;
     features := features w; span := span w; ner := ner w;
     ner_head_word := ner_head_word w;
     dependency_relation := dependency_relation w;
     governor := governor w; governor_word := v |}.

(** The sentence under conversion: the objects of [sent.word_nodes] in list
    order, and what has been printed so far (one entry per [print]). *)
Record World := {
  word_nodes : list WordNode;
  stdout : list string }.

Definition set_words (ws : list WordNode) (σ : World) : World :=
  {| word_nodes := ws; stdout := stdout σ |}.

(** ** The monad: state, and Python exceptions *)

Inductive exn :=
| AttributeError   (* attribute access on None *)
| IndexError       (* list subscript out of range *)
| NonTermination   (* not an exception: the program loops forever *)
| Dangling.        (* a reference to no object: cannot happen in Python,
                      where a reference keeps its object alive *)

Inductive outcome (A : Type) :=
| Return (a : A)
| Raise (e : exn).
Arguments Return {A} a.
Arguments Raise {A} e.

Definition M (Σ A : Type) : Type := Σ → outcome A * Σ.

Definition ret {Σ A} (a : A) : M Σ A := λ σ, (Return a, σ).

Definition bind {Σ A B} (m : M Σ A) (k : A → M Σ B) : M Σ B := λ σ,
  match m σ with
  | (Return a, σ') => k a σ'
  | (Raise e, σ') => (Raise e, σ')
  end.

Declare Scope py_scope.
Delimit Scope py_scope with py.
Notation "x ← y ; z" := (bind y (λ x, z))
  (at level 20, y at level 100, z at level 200, only parsing) : py_scope.
Notation "' x ← y ; z" := (bind y (λ x, z))
  (at level 20, x pattern, y at level 100, z at level 200, only parsing)
  : py_scope.
Notation "x ;; z" := (bind x (λ _, z))
  (at level 100, z at level 200, only parsing, right associativity)
  : py_scope.
Open Scope py_scope.

Definition raise {Σ A} (e : exn) : M Σ A := λ σ, (Raise e, σ).

(** [for x in xs: body] *)
Fixpoint for_each {Σ A} (xs : list A) (body : A → M Σ unit) : M Σ unit :=
  match xs with
  | [] => ret tt
  | x :: xs' => body x;; for_each xs' body
  end.

(** [for x in xs: if p(x): return x] followed by [return None] *)
Fixpoint first_such {Σ} (xs : list obj) (p : obj → M Σ bool) : M Σ obj :=
  match xs with
  | [] => ret None
  | x :: xs' => b ← p x; if b then ret x else first_such xs' p
  end.

(** [[x for x in xs if p(x)]], built by appending *)
Fixpoint collect {Σ} (xs : list obj) (p : obj → M Σ bool) : M Σ (list obj) :=
  match xs with
  | [] => ret []
  | x :: xs' => b ← p x; r ← collect xs' p; ret (if b then x :: r else r)
  end.

(** [x.f]: raises [AttributeError] when [x] is [None]. *)
Definition getattr {A} (x : obj) (f : WordNode → A) : M World A := λ σ,
  match x with
  | None => (Raise AttributeError, σ)
  | Some r =>
      match word_nodes σ !! r with
      | Some w => (Return (f w), σ)
      | None => (Raise Dangling, σ)
      end
  end.

(** [x.f = v] *)
Definition setattr {A} (x : obj) (upd : A → WordNode → WordNode) (v : A)
  : M World unit := λ σ,
  match x with
  | None => (Raise AttributeError, σ)
  | Some r =>
      match word_nodes σ !! r with
      | Some w => (Return tt, set_words (<[r := upd v w]> (word_nodes σ)) σ)
      | None => (Raise Dangling, σ)
      end
  end.

(** [print(line)] *)
Definition print (line : string) : M World unit := λ σ,
  (Return tt, {| word_nodes := word_nodes σ; stdout := stdout σ ++ [line] |}).

(** The objects of [x.sentence_node.word_nodes], in list order. *)
Definition sentence_words (x : obj) : M World (list obj) := λ σ,
  match x with
  | None => (Raise AttributeError, σ)
  | Some _ => (Return (Some <$> seq 0 (length (word_nodes σ))), σ)
  end.

(** [s in [...]] on strings *)
Definition string_in (s : string) (l : list string) : bool :=
  existsb (String.eqb s) l.
Arguments string_in : simpl never.

(** ** Shared helpers of the rule engine *)

Definition find_governed (word_node : obj) (dep : string) : M World obj :=
  sent ← sentence_words word_node;
  first_such sent (λ wn,
    gw ← getattr wn governor_word;
    if bool_decide (gw = word_node) then
      d ← getattr wn dependency_relation;
      ret (String.eqb d dep)
    else ret false).

Definition subj_relations : list string :=
  ["nsubj"; "csubj"; "nsubj:pass"; "csubj:pass"; "nsubj:outer"; "csubj:outer"].

Definition find_subj (word_node : obj) : M World obj :=
  sent ← sentence_words word_node;
  first_such sent (λ wn,
    gw ← getattr wn governor_word;
    if bool_decide (gw = word_node) then
      d ← getattr wn dependency_relation;
      ret (string_in d subj_relations)
    else ret false).

Definition redirectable : list string :=
  ["prep"; "attr"; "advcl"; "advmod"; "acomp"; "xcomp"; "dep"; "acl";
   "nsubj"; "obj"; "csubj"; "ccomp"; "mark"; "cop"; "npadvmod"; "conj";
   "prataxis"; "punct"; "cc"; "nsubj:outer"; "csubj:outer"].

Definition redirect_dependants (from_node to_node : obj) : M World unit :=
  sent ← sentence_words from_node;
  for_each sent (λ word_node,
    if bool_decide (word_node = from_node) || bool_decide (word_node = to_node)
    then ret tt
    else
      gw ← getattr word_node governor_word;
      if bool_decide (gw = from_node) then
        d ← getattr word_node dependency_relation;
        if string_in d redirectable then
          i ← getattr to_node index;
          setattr word_node with_governor i;;
          setattr word_node with_governor_word to_node
        else ret tt
      else ret tt).

Definition make_copula (head_node be_node : obj) : M World bool :=
  expl_node ← find_governed be_node "expl";
  existential ←
    match expl_node with
    | None => ret false
    | Some _ => l ← getattr expl_node lemma; ret (String.eqb l "there")
    end;
  if existential : bool then ret false
  else
    g ← getattr be_node governor;
    setattr head_node with_governor g;;
    gw ← getattr be_node governor_word;
    setattr head_node with_governor_word gw;;
    d ← getattr be_node dependency_relation;
    setattr head_node with_dependency_relation d;;
    i ← getattr head_node index;
    setattr be_node with_governor i;;
    setattr be_node with_governor_word head_node;;
    setattr be_node with_dependency_relation "cop";;
    setattr be_node with_upos "AUX";;
    redirect_dependants be_node head_node;;
    ret true.

Definition make_passive (be_node verb_node : obj) : M World unit :=
  subj_node ← find_governed be_node "nsubj";
  '(subj_node, rel) ←
    match subj_node with
    | Some _ => ret (subj_node, "nsubj:pass")
    | None => s ← find_governed be_node "csubj"; ret (s, "csubj:pass")
    end;
  match subj_node with
  | Some _ =>
      i ← getattr verb_node index;
      setattr subj_node with_governor i;;
      setattr subj_node with_governor_word verb_node;;
      setattr subj_node with_dependency_relation rel
  | None => ret tt
  end;;
  g ← getattr be_node governor;
  setattr verb_node with_governor g;;
  gw ← getattr be_node governor_word;
  setattr verb_node with_governor_word gw;;
  d ← getattr be_node dependency_relation;
  setattr verb_node with_dependency_relation d;;
  i ← getattr verb_node index;
  setattr be_node with_governor i;;
  setattr be_node with_governor_word verb_node;;
  setattr be_node with_dependency_relation "aux:pass".

(** ** The per-label rules *)

Definition nominal : list string := ["NOUN"; "PRON"; "PROPN"].

Definition aux_to_ud (word_node : obj) : M World unit :=
  p ← getattr word_node upos;
  if String.eqb p "PART" then
    setattr word_node with_dependency_relation "mark";;
    gov_node ← getattr word_node governor_word;
    d ← getattr gov_node dependency_relation;
    if String.eqb d "acl:relcl"
    then setattr gov_node with_dependency_relation "acl"
    else ret tt
  else ret tt.

Definition oprd_to_ud (word_node : obj) : M World unit :=
  p ← getattr word_node upos;
  if string_in p nominal
  then setattr word_node with_dependency_relation "obj"
  else setattr word_node with_dependency_relation "advcl".

Definition amod_to_ud (word_node : obj) : M World unit :=
  gov_node ← getattr word_node governor_word;
  p ← getattr gov_node upos;
  if String.eqb p "VERB"
  then setattr word_node with_dependency_relation "xcomp"
  else ret tt.

Definition nmod_to_ud (word_node : obj) : M World unit :=
  gov_node ← getattr word_node governor_word;
  l ← getattr word_node lemma;
  is_num ← (if String.eqb l "$"
            then p ← getattr gov_node upos; ret (String.eqb p "NUM")
            else ret false);
  if is_num : bool then
    d ← getattr gov_node dependency_relation;
    setattr word_node with_dependency_relation d;;
    g ← getattr gov_node governor;
    setattr word_node with_governor g;;
    gw ← getattr gov_node governor_word;
    setattr word_node with_governor_word gw;;
    setattr gov_node with_dependency_relation "nummod";;
    i ← getattr word_node index;
    setattr gov_node with_governor i;;
    setattr gov_node with_governor_word word_node;;
    redirect_dependants gov_node word_node
  else ret tt.

Definition nummod_to_ud (word_node : obj) : M World unit :=
  gov_node ← getattr word_node governor_word;
  p ← getattr gov_node upos;
  adjacent ← (if String.eqb p "NOUN"
              then gi ← getattr gov_node index;
                   wi ← getattr word_node index;
                   ret (gi =? wi - 1)%Z
              else ret false);
  if adjacent : bool
  then setattr word_node with_dependency_relation "nmod"
  else ret tt.

Definition advcl_to_ud (word_node : obj) : M World unit :=
  gov_node ← getattr word_node governor_word;
  l ← getattr gov_node lemma;
  has_subj ← (if String.eqb l "be"
              then s ← find_subj word_node; ret (bool_decide (s ≠ None))
              else ret false);
  if has_subj : bool then
    make_copula word_node gov_node;;
    csubj_node ← find_governed word_node "csubj";
    is_verb ← match csubj_node with
              | None => ret false
              | Some _ => p ← getattr csubj_node upos; ret (String.eqb p "VERB")
              end;
    if is_verb : bool
    then setattr csubj_node with_dependency_relation "csubj:outer"
    else ret tt
  else
    p ← getattr gov_node upos;
    no_cop ← (if string_in p nominal
              then c ← find_governed gov_node "cop"; ret (bool_decide (c = None))
              else ret false);
    if no_cop : bool
    then setattr word_node with_dependency_relation "acl"
    else ret tt.

Definition comp_to_ud (word_node : obj) : M World unit :=
  gov_node ← getattr word_node governor_word;
  subj_node ← find_subj gov_node;
  l ← getattr gov_node lemma;
  if String.eqb l "be" then
    make_copula word_node gov_node;;
    match subj_node with
    | Some _ =>
        d ← getattr subj_node dependency_relation;
        setattr subj_node with_dependency_relation (d +:+ ":outer")
    | None => ret tt
    end
  else
    c ← find_governed gov_node "cop";
    match c with
    | Some _ =>
        is_it ← match subj_node with
                | None => ret false
                | Some _ => sl ← getattr subj_node lemma; ret (String.eqb sl "it")
                end;
        if is_it : bool then
          setattr subj_node with_dependency_relation "expl";;
          setattr word_node with_dependency_relation "csubj"
        else ret tt
    | None => ret tt
    end.

(** The body of the [while not head] loop of [prep_chain].  A word node is
    always truthy, so the loop ends at the first governor whose relation is
    not [prep]; it never ends when the [prep] governors form a cycle.  The
    walk is given one more step than the sentence has words, which is enough
    exactly when the Python loop terminates. *)
Fixpoint prep_chain_loop (fuel : nat) (x : obj) (prep_nodes : list obj)
  : M World (obj * list obj) :=
  match fuel with
  | O => raise NonTermination
  | S fuel' =>
      d ← getattr x dependency_relation;
      if String.eqb d "prep" then
        gx ← getattr x governor_word;
        prep_chain_loop fuel' gx (prep_nodes ++ [x])
      else ret (x, prep_nodes)
  end.

Definition prep_chain (word_node : obj) : M World (obj * list obj) :=
  x ← getattr word_node governor_word;
  d ← getattr x dependency_relation;
  if string_in d ["iobj"; "agent"] then
    gx ← getattr x governor_word;
    ret (gx, [x])
  else
    sent ← sentence_words word_node;
    prep_chain_loop (S (length sent)) x [].

Definition pobj_to_ud (word_node : obj) : M World unit :=
  '(gov_node, prep_nodes) ← prep_chain word_node;
  match prep_nodes with
  | [] =>
      t ← getattr word_node text;
      print ("pobj without preps, word: " +:+ t)
  | prep_node :: _ =>
      l ← getattr gov_node lemma;
      no_copula ← (if String.eqb l "be"
                   then c ← make_copula word_node gov_node; ret (negb c)
                   else ret true);
      go_on ←
        (if no_copula : bool then
           pd ← getattr prep_node dependency_relation;
           relabelled ←
             (if String.eqb pd "prep" then
                p ← getattr gov_node upos;
                (if string_in p nominal
                 then setattr word_node with_dependency_relation "nmod"
                 else setattr word_node with_dependency_relation "obl");;
                ret true
              else if String.eqb pd "iobj" then
                setattr word_node with_dependency_relation "obl";; ret true
              else if String.eqb pd "agent" then
                setattr word_node with_dependency_relation "obl:agent";;
                ret true
              else
                gt ← getattr gov_node text;
                pd' ← getattr prep_node dependency_relation;
                pt ← getattr prep_node text;
                wt ← getattr word_node text;
                print ("Unknown dep from PREP in: " +:+ gt +:+ " <-" +:+ pd'
                       +:+ "- " +:+ pt +:+ " <-pobj- " +:+ wt);;
                ret false);
           if relabelled : bool then
             gi ← getattr gov_node index;
             setattr word_node with_governor gi;;
             setattr word_node with_governor_word gov_node;;
             ret true
           else ret false
         else ret true);
      if go_on : bool then
        for_each prep_nodes (λ prep_node,
          wi ← getattr word_node index;
          setattr prep_node with_governor wi;;
          setattr prep_node with_governor_word word_node;;
          setattr prep_node with_dependency_relation "case";;
          adv_node ← find_governed prep_node "advmod";
          match adv_node with
          | Some _ =>
              wi' ← getattr word_node index;
              setattr adv_node with_governor wi';;
              setattr adv_node with_governor_word word_node
          | None => ret tt
          end)
      else ret tt
  end.

Definition pcomp_to_ud (word_node : obj) : M World unit :=
  prep_node ← getattr word_node governor_word;
  p ← getattr word_node upos;
  is_fixed ← (if String.eqb p "ADP"
              then pp ← getattr prep_node upos; ret (String.eqb pp "SCONJ")
              else ret false);
  if is_fixed : bool then setattr word_node with_dependency_relation "fixed"
  else
    gov_node ← getattr prep_node governor_word;
    pd ← getattr prep_node dependency_relation;
    if negb (String.eqb pd "prep") then
      gt ← getattr gov_node text;
      pd' ← getattr prep_node dependency_relation;
      pt ← getattr prep_node text;
      wt ← getattr word_node text;
      print ("No prep dependency in: " +:+ gt +:+ " <-" +:+ pd' +:+ "- "
             +:+ pt +:+ " <-pcomp- " +:+ wt)
    else
      l ← getattr gov_node lemma;
      (if String.eqb l "be" then
         make_copula word_node gov_node;; ret tt
       else
         setattr word_node with_dependency_relation "advcl";;
         gi ← getattr gov_node index;
         setattr word_node with_governor gi;;
         setattr word_node with_governor_word gov_node;;
         wi ← getattr word_node index;
         setattr prep_node with_governor wi;;
         setattr prep_node with_governor_word word_node);;
      pp ← getattr prep_node upos;
      setattr prep_node with_dependency_relation
        (if String.eqb pp "SCONJ" then "mark" else "case");;
      redirect_dependants prep_node word_node.

Definition attr_to_ud (word_node : obj) : M World unit :=
  be_node ← getattr word_node governor_word;
  l ← getattr be_node lemma;
  if negb (String.eqb l "be") then
    bt ← getattr be_node text;
    wt ← getattr word_node text;
    print ("Dep attr used with something other than to be: " +:+ bt
           +:+ " <-attr- " +:+ wt)
  else
    subj_node ← find_governed be_node "expl";
    match subj_node with
    | Some _ => setattr word_node with_dependency_relation "nsubj"
    | None => make_copula word_node be_node;; ret tt
    end.

(** [d.get(k)] on a dictionary kept in insertion order *)
Fixpoint dict_get (d : list (string * string)) (k : string) : option string :=
  match d with
  | [] => None
  | (k', v) :: d' => if String.eqb k' k then Some v else dict_get d' k
  end.

Definition acomp_to_ud (word_node : obj) : M World unit :=
  acomp_node ← getattr word_node governor_word;
  l ← getattr acomp_node lemma;
  if String.eqb l "be" then
    p ← getattr word_node upos;
    perfect ← (if String.eqb p "VERB"
               then f ← getattr word_node features;
                    ret (bool_decide (dict_get f "Aspect" = Some "Perf"))
               else ret false);
    if perfect : bool
    then make_passive acomp_node word_node
    else make_copula word_node acomp_node;; ret tt
  else setattr word_node with_dependency_relation "xcomp".

Definition advmod_to_ud (word_node : obj) : M World unit :=
  p ← getattr word_node upos;
  if String.eqb p "SCONJ" then
    gov_node ← getattr word_node governor_word;
    d ← getattr gov_node dependency_relation;
    if String.eqb d "advcl"
    then setattr word_node with_dependency_relation "mark"
    else setattr word_node with_upos "ADV"
  else ret tt.

Definition conj_to_ud (word_node : obj) : M World unit :=
  gov_node ← getattr word_node governor_word;
  conj_node ← find_governed gov_node "cc";
  match conj_node with
  | Some _ =>
      wi ← getattr word_node index;
      setattr conj_node with_governor wi;;
      setattr conj_node with_governor_word word_node
  | None => ret tt
  end;;
  gp ← getattr gov_node upos;
  elided ← (if String.eqb gp "VERB"
            then wp ← getattr word_node upos; ret (string_in wp nominal)
            else ret false);
  (if elided : bool then
     nsubj_node ← find_governed word_node "nsubj";
     match nsubj_node with
     | Some _ =>
         setattr nsubj_node with_dependency_relation "conj";;
         gi ← getattr gov_node index;
         setattr nsubj_node with_governor gi;;
         setattr nsubj_node with_governor_word gov_node;;
         setattr word_node with_dependency_relation "orphan";;
         ni ← getattr nsubj_node index;
         setattr word_node with_governor ni;;
         setattr word_node with_governor_word nsubj_node;;
         match conj_node with
         | Some _ =>
             ni' ← getattr nsubj_node index;
             setattr conj_node with_governor ni';;
             setattr conj_node with_governor_word nsubj_node
         | None => ret tt
         end
     | None => ret tt
     end
   else ret tt);;
  gd ← getattr gov_node dependency_relation;
  if String.eqb gd "conj" then
    gov_gov_node ← getattr gov_node governor_word;
    ggi ← getattr gov_gov_node index;
    setattr word_node with_governor ggi;;
    setattr word_node with_governor_word gov_gov_node
  else ret tt.

Definition npadvmod_to_ud (word_node : obj) : M World unit :=
  gov_node ← getattr word_node governor_word;
  gd ← getattr gov_node dependency_relation;
  gov_node ← (if String.eqb gd "obl:npmod"
              then getattr gov_node governor_word
              else ret gov_node);
  setattr word_node with_dependency_relation "obl:npmod";;
  gi ← getattr gov_node index;
  setattr word_node with_governor gi;;
  setattr word_node with_governor_word gov_node.

Definition dep_to_ud (word_node : obj) : M World unit :=
  gov_node ← getattr word_node governor_word;
  p ← getattr gov_node upos;
  if String.eqb p "VERB"
  then setattr word_node with_dependency_relation "ccomp"
  else ret tt.

(** ** The rule engine *)

(** The objects of [sent.word_nodes], in list order. *)
Definition all_words : M World (list obj) := λ σ,
  (Return (Some <$> seq 0 (length (word_nodes σ))), σ).

(** The body of the loop of [fix_advmod_cop]. *)
Definition fix_advmod_cop_word (word_node : obj) : M World unit :=
  d ← getattr word_node dependency_relation;
  if String.eqb d "advmod" then
    gov_node ← getattr word_node governor_word;
    l ← getattr gov_node lemma;
    not_cop ← (if String.eqb l "be"
               then gd ← getattr gov_node dependency_relation;
                    ret (negb (String.eqb gd "cop"))
               else ret false);
    if not_cop : bool
    then make_copula word_node gov_node;; ret tt
    else ret tt
  else ret tt.

Definition fix_advmod_cop : M World unit :=
  sent ← all_words;
  for_each (reverse sent) fix_advmod_cop_word.

(** The body of the loop of [spacy_to_ud]: the rule is chosen by the
    relation the word has when it is visited. *)
Definition spacy_to_ud_word (word_node : obj) : M World unit :=
  d ← getattr word_node dependency_relation;
  if String.eqb d "aux" then aux_to_ud word_node
  else if String.eqb d "oprd" then oprd_to_ud word_node
  else if String.eqb d "amod" then amod_to_ud word_node
  else if String.eqb d "nmod" then nmod_to_ud word_node
  else if String.eqb d "nummod" then nummod_to_ud word_node
  else if String.eqb d "advcl" then advcl_to_ud word_node
  else if String.eqb d "pobj" then pobj_to_ud word_node
  else if String.eqb d "pcomp" then pcomp_to_ud word_node
  else if string_in d ["xcomp"; "ccomp"] then comp_to_ud word_node
  else if String.eqb d "attr" then attr_to_ud word_node
  else if String.eqb d "acomp" then acomp_to_ud word_node
  else if String.eqb d "advmod" then advmod_to_ud word_node
  else if String.eqb d "npadvmod" then npadvmod_to_ud word_node
  else if String.eqb d "conj" then conj_to_ud word_node
  else if String.eqb d "dep" then dep_to_ud word_node
  else ret tt.

Definition spacy_to_ud : M World unit :=
  sent ← all_words;
  for_each sent spacy_to_ud_word;;
  fix_advmod_cop.

(** ** Entity alignment *)

(** What the code reads of a [spacy.tokens.Span] that is a named entity. *)
Record Entity := {
  ent_text : string;
  start_char : Z;
  end_char : Z;
  label_ : string }.

Definition find_span_words (spacy_span : Entity) : M World (list obj) :=
  sent ← all_words;
  collect sent (λ word_node,
    s ← getattr word_node span;
    ret ((start_char spacy_span <=? fst s)%Z && (snd s <=? end_char spacy_span)%Z)).

(** [x in xs] on lists of word nodes: identity, as [WordNode] has no [__eq__] *)
Definition obj_in (x : obj) (xs : list obj) : bool :=
  existsb (λ y, bool_decide (x = y)) xs.

(** The first loop of [add_entities]: it stops at the first span word that
    has no governor or whose governor is not a span word, and annotates it. *)
Fixpoint mark_phrase_head (spacy_span : Entity) (span_word_nodes todo : list obj)
  : M World obj :=
  match todo with
  | [] => ret None
  | word_node :: todo' =>
      gw ← getattr word_node governor_word;
      if bool_decide (gw = None) || negb (obj_in gw span_word_nodes) then
        setattr word_node with_ner
          (Some {| ner_text := ent_text spacy_span;
                   ner_words := span_word_nodes;
                   ner_span := (start_char spacy_span, end_char spacy_span);
                   ner_type := label_ spacy_span |});;
        ret word_node
      else mark_phrase_head spacy_span span_word_nodes todo'
  end.

(** The body of the loop over [spacy_sent.ents]. *)
Definition add_entity (spacy_span : Entity) : M World unit :=
  span_word_nodes ← find_span_words spacy_span;
  phrase_head_word ← mark_phrase_head spacy_span span_word_nodes span_word_nodes;
  for_each span_word_nodes (λ word_node,
    if bool_decide (word_node ≠ phrase_head_word)
    then setattr word_node with_ner_head_word phrase_head_word
    else ret tt).

Definition add_entities (ents : list Entity) : M World unit :=
  for_each ents add_entity.

(** ** The conversion orchestrator *)

(** What the code reads of a [spacy.tokens.Token].  [Token.i], the index of
    the token within its document, is the token's position in [tokens];
    [head] is the [i] of the head token. *)
Record Token := {
  tok_text : string;
  lemma_ : string;
  pos_ : string;
  dep_ : string;
  head : nat;
  idx : Z;
  morph : list (string * string) }.

(** A sentence of the document ([Doc.sents] yields spans): its text, the
    tokens [doc[sent_start : sent_end]] and the entities inside it. *)
Record Span := {
  span_text : string;
  sent_start : nat;
  sent_end : nat;
  span_ents : list Entity }.

Record SpacyDoc := {
  doc_text : string;
  tokens : list Token;
  sents : list Span;
  ents : list Entity }.

(** Iterating a span: the tokens with their [i]. *)
Definition span_tokens (sp_doc : SpacyDoc) (s : Span) : list (nat * Token) :=
  zip (seq (sent_start s) (sent_end s - sent_start s))
      (take (sent_end s - sent_start s) (drop (sent_start s) (tokens sp_doc))).

Definition dep_dict : list (string * string) :=
  [("dobj", "obj"); ("dative", "iobj"); ("nsubjpass", "nsubj:pass");
   ("csubjpass", "csubj:pass"); ("ROOT", "root"); ("auxpass", "aux:pass");
   ("preconj", "pre:conj"); ("prt", "compound:prt"); ("predet", "det:predet");
   ("poss", "nmod:poss"); ("relcl", "acl:relcl"); ("neg", "advmod");
   ("quantmod", "compound"); ("parataxis", "prataxis")].

(** [dep_dict.get(s_dep, s_dep)] *)
Definition remap (s_dep : string) : string :=
  default s_dep (dict_get dep_dict s_dep).

(** [WordNode(spacy_token.i + 1, spacy_token.text, ud_sent)] followed by
    [spacy_to_ud_token]: the word as it is appended to the sentence. *)
Definition spacy_to_ud_token (i : nat) (spacy_token : Token) : WordNode :=
  let start_char := idx spacy_token in
  {| index := Z.of_nat i + 1;
     text := tok_text spacy_token;
     lemma := lemma_ spacy_token;
     upos := pos_ spacy_token;
     features := morph spacy_token;
     span := (start_char,
              start_char + Z.of_nat (String.length (tok_text spacy_token)));
     ner := None;
     ner_head_word := None;
     dependency_relation := remap (dep_ spacy_token);
     governor := if bool_decide (head spacy_token = i) then 0
                 else Z.of_nat (head spacy_token) + 1;
     governor_word := None |}.

(** [ud_sent.word_nodes.append(new_word)] *)
Definition append_word (w : WordNode) : M World unit := λ σ,
  (Return tt, set_words (word_nodes σ ++ [w]) σ).

(** [sent.word_nodes[k]], with Python's negative subscripts *)
Definition subscript (k : Z) : M World obj := λ σ,
  let n := Z.of_nat (length (word_nodes σ)) in
  if (0 <=? k)%Z && (k <? n)%Z then (Return (Some (Z.to_nat k)), σ)
  else if (k <? 0)%Z && (0 <=? n + k)%Z then (Return (Some (Z.to_nat (n + k))), σ)
  else (Raise IndexError, σ).

Definition add_governor_word : M World unit :=
  sent ← all_words;
  for_each sent (λ word_node,
    gov_ind ← getattr word_node governor;
    if (0 <? gov_ind)%Z then
      gov_word ← subscript (gov_ind - 1);
      setattr word_node with_governor_word gov_word
    else ret tt).

(** The first loop of [spacy_to_ud_sentence]: a word node per token. *)
Definition materialize (sp_doc : SpacyDoc) (spacy_sent : Span) : M World unit :=
  for_each (span_tokens sp_doc spacy_sent) (λ '(i, spacy_token),
    append_word (spacy_to_ud_token i spacy_token)).

Definition spacy_to_ud_sentence (sp_doc : SpacyDoc) (spacy_sent : Span)
  : M World unit :=
  materialize sp_doc spacy_sent;;
  add_governor_word;;
  spacy_to_ud;;
  add_entities (span_ents spacy_sent).

(** [SentenceNode] and [UdDoc], once built. *)
Record SentenceNode := {
  sent_text : string;
  sent_word_nodes : list WordNode }.

Definition UdDoc := list SentenceNode.

(** The whole document taken as one sentence, when it has none. *)
Definition whole_doc (sp_doc : SpacyDoc) : Span :=
  {| span_text := doc_text sp_doc; sent_start := 0;
     sent_end := length (tokens sp_doc); span_ents := ents sp_doc |}.

(** The loop of [spacy_to_ud_doc]: every sentence is built in a store of its
    own and appended to [doc]; the output stream is threaded through, and an
    exception ends the conversion. *)
Fixpoint convert_sentences (sp_doc : SpacyDoc) (spacy_sentences : list Span)
    (doc : UdDoc) (out : list string) : outcome UdDoc * list string :=
  match spacy_sentences with
  | [] => (Return doc, out)
  | spacy_sentence :: rest =>
      match spacy_to_ud_sentence sp_doc spacy_sentence
              {| word_nodes := []; stdout := out |} with
      | (Return _, σ) =>
          convert_sentences sp_doc rest
            (doc ++ [{| sent_text := span_text spacy_sentence;
                        sent_word_nodes := word_nodes σ |}])%list
            (stdout σ)
      | (Raise e, σ) => (Raise e, stdout σ)
      end
  end.

Definition spacy_to_ud_doc (sp_doc : SpacyDoc) (out : list string)
  : outcome UdDoc * list string :=
  let spacy_sentences :=
    match sents sp_doc with
    | [] => [whole_doc sp_doc]
    | ss => ss
    end in
  convert_sentences sp_doc spacy_sentences [] out.

(** ** Text rendering of documents and raw analyses *)

Definition tab : string := String (ascii_of_nat 9) EmptyString.
Definition newline : string := String (ascii_of_nat 10) EmptyString.

(** [str(n)] for an integer *)
Definition str_int (z : Z) : string := NilZero.string_of_int (Z.to_int z).

(** [s.lstrip('|')] *)
Fixpoint lstrip_bar (s : list ascii) : list ascii :=
  match s with
  | c :: s' => if Ascii.eqb c "|"%char then lstrip_bar s' else s
  | [] => []
  end.

(** [s.strip('|')] *)
Definition strip_bar (s : string) : string :=
  string_of_list_ascii
    (rev (lstrip_bar (rev (lstrip_bar (list_ascii_of_string s))))).

(** The feature string: [name=value|] for every item of the dictionary, in
    its order, stripped of ['|'], and [None] when nothing is left.
    [morph_to_string] builds it for a token; [display_word] has the same
    code inline. *)
Definition morph_to_string (f_dict : list (string * string)) : string :=
  let f_str :=
    fold_left (λ acc '(f_name, f_val), acc +:+ f_name +:+ "=" +:+ f_val +:+ "|")
              f_dict "" in
  let f_str := strip_bar f_str in
  if String.eqb f_str "" then "None" else f_str.

(** [str(l)] for a list of integers *)
Definition str_int_list (l : list Z) : string :=
  "[" +:+ String.concat ", " (str_int <$> l) +:+ "]".

(** The state of the renderers: the document and its words, the default
    output (one entry per [print]) and the sink [fo] (one entry per
    [write]). *)
Record Console := {
  document : UdDoc;
  console_out : list string;
  file_out : list string }.

(** A file object; [fo] is this or [None]. *)
Inductive file := TextIO.

(** [print(line)] *)
Definition console_print (line : string) : M Console unit := λ σ,
  (Return tt, {| document := document σ;
                 console_out := (console_out σ ++ [line])%list;
                 file_out := file_out σ |}).

(** [fo.write(s)] *)
Definition file_write (s : string) : M Console unit := λ σ,
  (Return tt, {| document := document σ;
                 console_out := console_out σ;
                 file_out := (file_out σ ++ [s])%list |}).

(** The sentences of the document, as references. *)
Definition doc_sentences : M Console (list nat) := λ σ,
  (Return (seq 0 (length (document σ))), σ).

(** Reading the sentence object [s]. *)
Definition sentence (s : nat) : M Console SentenceNode := λ σ,
  match document σ !! s with
  | Some sn => (Return sn, σ)
  | None => (Raise Dangling, σ)
  end.

(** [x.f] for a word [x] of sentence [s]. *)
Definition word_attr {A} (s : nat) (x : option nat) (f : WordNode → A)
  : M Console A :=
  sn ← sentence s;
  match x with
  | None => raise AttributeError
  | Some r =>
      match sent_word_nodes sn !! r with
      | Some w => ret (f w)
      | None => raise Dangling
      end
  end.

(** [[f(x) for x in xs]] *)
Fixpoint map_m {Σ A B} (f : A → M Σ B) (xs : list A) : M Σ (list B) :=
  match xs with
  | [] => ret []
  | x :: xs' => y ← f x; ys ← map_m f xs'; ret (y :: ys)
  end.

Definition display_word (s : nat) (self : option nat) (fo : option file)
  : M Console unit :=
  i ← word_attr s self index;
  t ← word_attr s self text;
  l ← word_attr s self lemma;
  p ← word_attr s self upos;
  d ← word_attr s self dependency_relation;
  g ← word_attr s self governor;
  let res := str_int i +:+ tab +:+ t +:+ tab +:+ "lemma: " +:+ l
             +:+ tab +:+ "pos: " +:+ p in
  let res := res +:+ tab +:+ "dep: " +:+ d +:+ tab +:+ "gov: " +:+ str_int g in
  f ← word_attr s self features;
  let res := res +:+ tab +:+ "feats: " +:+ morph_to_string f in
  n ← word_attr s self ner;
  res ← match n with
        | Some n =>
            word_indices ← map_m (λ x, word_attr s x index) (ner_words n);
            ret (res +:+ tab +:+ "NER-type: " +:+ ner_type n
                 +:+ tab +:+ "NER-words: " +:+ str_int_list word_indices)
        | None => ret res
        end;
  match fo with
  | Some _ => file_write (res +:+ newline)
  | None => console_print res
  end.

Definition print_words (s : nat) (fo : option file) : M Console unit :=
  sn ← sentence s;
  for_each (Some <$> seq 0 (length (sent_word_nodes sn)))
           (λ w, display_word s w fo).

Definition print_doc (fo : option file) (count : Z) : M Console unit :=
  ss ← doc_sentences;
  for_each ss (λ s,
    sn ← sentence s;
    let txt := sent_text sn in
    let txt := if (0 <? count)%Z
               then newline +:+ " " +:+ str_int count +:+ " " +:+ txt
               else txt in
    match fo with
    | Some _ => file_write (txt +:+ newline)
    | None => console_print txt
    end;;
    print_words s fo;;
    match fo with
    | Some _ => ret tt
    | None => console_print ""
    end).

Definition print_spacy_doc (sp_doc : SpacyDoc) : M Console unit :=
  console_print ("Spacy tokens for: " +:+ doc_text sp_doc);;
  for_each (zip (seq 0 (length (tokens sp_doc))) (tokens sp_doc))
    (λ '(i, token),
       let feats := morph_to_string (morph token) in
       let line := str_int (Z.of_nat i) +:+ tab +:+ tok_text token
                   +:+ tab +:+ "lemma: " +:+ lemma_ token
                   +:+ tab +:+ "pos: " +:+ pos_ token
                   +:+ tab +:+ "dep: " +:+ dep_ token in
       let line := line +:+ tab +:+ "gov: " +:+ str_int (Z.of_nat (head token))
                   +:+ tab +:+ "feats: " +:+ feats in
       console_print line);;
  match ents sp_doc with
  | [] => ret tt
  | _ =>
      console_print "Entities:";;
      for_each (ents sp_doc) (λ ent,
        console_print (ent_text ent +:+ " " +:+ str_int (start_char ent)
                       +:+ " " +:+ str_int (end_char ent)
                       +:+ " " +:+ label_ ent))
  end.

(** * The functions of the source, as functions of the store *)

Open Scope nat_scope.

(** The first word satisfying [q], counting slots from [k]. *)
Fixpoint find_from (q : WordNode → bool) (k : nat) (ws : list WordNode) : obj :=
  match ws with
  | [] => None
  | w :: ws' => if q w then Some k else find_from q (S k) ws'
  end.

Definition first_index (q : WordNode → bool) (ws : list WordNode) : obj :=
  find_from q 0 ws.

Definition governed_by (r : ref) (w : WordNode) : bool :=
  bool_decide (governor_word w = Some r).

Definition governed (r : ref) (dep : string) (w : WordNode) : bool :=
  governed_by r w && String.eqb (dependency_relation w) dep.

Definition is_subj_of (r : ref) (w : WordNode) : bool :=
  governed_by r w
  && string_in (dependency_relation w) subj_relations.

(** What [redirect_dependants] does to the word in slot [i]. *)
Definition redirected (from_node to_node : ref) (to_index : Z)
    (i : nat) (w : WordNode) : WordNode :=
  if bool_decide (Some i = Some from_node) || bool_decide (Some i = Some to_node)
  then w
  else if governed_by from_node w && string_in (dependency_relation w) redirectable
  then with_governor_word (Some to_node) (with_governor to_index w)
  else w.

(** The guard of [make_copula]: the first [expl] dependent of [b], if there
    is one, has lemma "there". *)
Definition existential (ws : list WordNode) (b : ref) : bool :=
  match first_index (governed b "expl") ws with
  | None => false
  | Some e =>
      match ws !! e with
      | Some ew => String.eqb (lemma ew) "there"
      | None => false
      end
  end.

(** [w] with the governor position, governor word and relation of [g]. *)
Definition takes_over (w g : WordNode) : WordNode :=
  with_dependency_relation (dependency_relation g)
    (with_governor_word (governor_word g) (with_governor (governor g) w)).

(** [w] governed by the word in slot [h], whose position is [hi]. *)
Definition regoverned (h : ref) (hi : Z) (w : WordNode) : WordNode :=
  with_governor_word (Some h) (with_governor hi w).

(** The "be" node after a successful [make_copula] under the word [hw] in
    slot [h]. *)
Definition copula_be (h : ref) (hw bw : WordNode) : WordNode :=
  with_upos "AUX"
    (with_dependency_relation "cop" (regoverned h (index hw) bw)).

(** The store after a successful [make_copula]. *)
Definition copula (h b : ref) (hw bw : WordNode) (ws : list WordNode)
  : list WordNode :=
  imap (redirected b h (index hw))
       (<[b := copula_be h hw bw]> (<[h := takes_over hw bw]> ws)).

Definition passive_subject (ws : list WordNode) (b : ref) : option (ref * string) :=
  match first_index (governed b "nsubj") ws with
  | Some s => Some (s, "nsubj:pass")
  | None =>
      match first_index (governed b "csubj") ws with
      | Some s => Some (s, "csubj:pass")
      | None => None
      end
  end.


(** What [fix_advmod_cop_word] does to the store when it visits slot [i]. *)
Definition cleanup_word (ws : list WordNode) (i : nat) : list WordNode :=
  match ws !! i with
  | Some w =>
      if String.eqb (dependency_relation w) "advmod" then
        match governor_word w with
        | Some g =>
            match ws !! g with
            | Some gw =>
                if String.eqb (lemma gw) "be"
                   && negb (String.eqb (dependency_relation gw) "cop")
                   && negb (existential ws g)
                then copula i g w gw ws
                else ws
            | None => ws
            end
        | None => ws
        end
      else ws
  | None => ws
  end.

(** Every word labelled advmod has a governor in the sentence and is not
    itself a form of "be". *)
Definition advmod_ok (ws : list WordNode) : Prop :=
  ∀ i w, ws !! i = Some w → dependency_relation w = "advmod" →
    lemma w ≠ "be" ∧ ∃ g, governor_word w = Some g ∧ g < length ws.

(** No form of "be" is labelled expl. *)
Definition be_not_expl (ws : list WordNode) : Prop :=
  ∀ i w, ws !! i = Some w → lemma w = "be" → dependency_relation w ≠ "expl".

(** Before the rightmost advmod dependent [r] of [b] ks visited. *)
Definition before_rightmost (b r : nat) (ri : Z) (ws : list WordNode) : Prop :=
  advmod_ok ws ∧ be_not_expl ws
  ∧ (∃ bw, ws !! b = Some bw ∧ lemma bw = "be"
           ∧ dependency_relation bw ≠ "cop")
  ∧ existential ws b = false
  ∧ (∃ rw, ws !! r = Some rw ∧ dependency_relation rw = "advmod"
           ∧ governor_word rw = Some b ∧ index rw = ri)
  ∧ (∀ j w, r < j → ws !! j = Some w →
       ¬ (dependency_relation w = "advmod" ∧ governor_word w = Some b)).

(** After it has been visited. *)
Definition after_rightmost (b r : nat) (ri : Z) (ws : list WordNode) : Prop :=
  advmod_ok ws
  ∧ (∃ bw, ws !! b = Some bw ∧ lemma bw = "be"
           ∧ dependency_relation bw = "cop" ∧ upos bw = "AUX"
           ∧ governor_word bw = Some r ∧ governor bw = ri)
  ∧ (∃ rw, ws !! r = Some rw ∧ lemma rw ≠ "be").

(** The slots, counted from [k], of the words satisfying [q], in order. *)
Fixpoint positions_from (q : WordNode → bool) (k : nat) (ws : list WordNode)
  : list nat :=
  match ws with
  | [] => []
  | w :: ws' =>
      if q w then k :: positions_from q (S k) ws' else positions_from q (S k) ws'
  end.

(** The character span of [w] lies within the span of the entity. *)
Definition within_span (e : Entity) (w : WordNode) : bool :=
  (start_char e <=? fst (span w))%Z && (snd (span w) <=? end_char e)%Z.

Definition span_words (e : Entity) (ws : list WordNode) : list nat :=
  positions_from (within_span e) 0 ws.

(** The word in slot [i] has no governor, or a governor that is not a span
    word. *)
Definition attaches_outside (ws : list WordNode) (sws : list nat) (i : nat) : bool :=
  match ws !! i with
  | Some w =>
      bool_decide (governor_word w = None)
      || negb (obj_in (governor_word w) (Some <$> sws))
  | None => false
  end.

Definition phrase_head (ws : list WordNode) (sws : list nat) : option nat :=
  find (attaches_outside ws sws) sws.

Definition entity_ner (e : Entity) (sws : list nat) : Ner :=
  {| ner_text := ent_text e;
     ner_words := Some <$> sws;
     ner_span := (start_char e, end_char e);
     ner_type := label_ e |}.

(** What the second loop of [add_entities] does to a span word in slot [i]. *)
Definition back_reference (head : option nat) (i : nat) (w : WordNode) : WordNode :=
  if bool_decide (Some i ≠ head) then with_ner_head_word head w else w.

(** The store after one entity has been processed. *)
Definition entity_result (e : Entity) (ws : list WordNode) : list WordNode :=
  let sws := span_words e ws in
  let head := phrase_head ws sws in
  imap (λ i w, if bool_decide (i ∈ sws) then back_reference head i w else w)
       match head with
       | Some h => alter (with_ner (Some (entity_ner e sws))) h ws
       | None => ws
       end.

(** ** Governor resolution and anomalies *)

(** The word of token [i] once its governor word is resolved within the
    sentence. *)
Definition resolved (i : nat) (spacy_token : Token) : WordNode :=
  with_governor_word
    (if bool_decide (head spacy_token = i) then None else Some (head spacy_token))
    (spacy_to_ud_token i spacy_token).

(** The state [σ] after [line] has been printed. *)
Definition reported (line : string) (σ : World) : World :=
  {| word_nodes := word_nodes σ; stdout := (stdout σ ++ [line])%list |}.

(** ** Text rendering *)

(** [m] leaves the document and all its words as they are, whatever it
    prints and however it ends. *)
Definition preserves_document {A} (m : M Console A) : Prop :=
  ∀ σ, document (snd (m σ)) = document σ.

(** ** Sample parses *)

Definition token (t l p d : string) (h : nat) (i : Z) : Token :=
  {| tok_text := t; lemma_ := l; pos_ := p; dep_ := d; head := h; idx := i;
     morph := [] |}.

(** "Stop. Go home.": two sentences, tokens 0-1 and 2-4. *)
Definition stop_go_home : SpacyDoc :=
  {| doc_text := "Stop. Go home.";
     tokens := [token "Stop" "stop" "VERB" "ROOT" 0 0;
                token "." "." "PUNCT" "punct" 0 4;
                token "Go" "go" "VERB" "ROOT" 2 6;
                token "home" "home" "ADV" "advmod" 2 9;
                token "." "." "PUNCT" "punct" 2 13];
     sents := [{| span_text := "Stop."; sent_start := 0; sent_end := 2;
                  span_ents := [] |};
               {| span_text := "Go home."; sent_start := 2; sent_end := 5;
                  span_ents := [] |}];
     ents := [] |}.

(** "Please stop now. Go home.": tokens 0-3 and 4-6. *)
Definition please_stop_now : SpacyDoc :=
  {| doc_text := "Please stop now. Go home.";
     tokens := [token "Please" "please" "INTJ" "intj" 1 0;
                token "stop" "stop" "VERB" "ROOT" 1 7;
                token "now" "now" "ADV" "advmod" 1 12;
                token "." "." "PUNCT" "punct" 1 15;
                token "Go" "go" "VERB" "ROOT" 4 17;
                token "home" "home" "ADV" "advmod" 4 20;
                token "." "." "PUNCT" "punct" 4 24];
     sents := [{| span_text := "Please stop now."; sent_start := 0;
                  sent_end := 4; span_ents := [] |};
               {| span_text := "Go home."; sent_start := 4; sent_end := 7;
                  span_ents := [] |}];
     ents := [] |}.

(** "After eating": a fragment whose root is the preposition. *)
Definition after_eating : SpacyDoc :=
  {| doc_text := "After eating";
     tokens := [token "After" "after" "ADP" "ROOT" 0 0;
                token "eating" "eat" "VERB" "pcomp" 0 6];
     sents := []; ents := [] |}.

(** What a converted sentence shows of its governor links: text, position,
    governor position and governor word of every word. *)
Definition governor_links (s : SentenceNode)
  : list (string * Z * Z * option nat) :=
  (λ w, (text w, index w, governor w, governor_word w)) <$> sent_word_nodes s.

(** ** Sample sentences, after governor resolution *)

Definition word (i : Z) (t l p : string) (f : list (string * string))
    (d : string) (g : Z) (gw : option nat) : WordNode :=
  {| index := i; text := t; lemma := l; upos := p; features := f;
     span := (0, 0)%Z; ner := None; ner_head_word := None;
     dependency_relation := d; governor := g; governor_word := gw |}.

Definition sentence_of (ws : list WordNode) : World :=
  {| word_nodes := ws; stdout := [] |}.

(** "Mary is a doctor" *)
Definition w_doctor : WordNode := word 4 "doctor" "doctor" "NOUN" [] "attr" 2 (Some 1).
Definition w_is : WordNode := word 2 "is" "be" "AUX" [] "root" 0 None.
Definition mary_is_a_doctor : World :=
  sentence_of [word 1 "Mary" "Mary" "PROPN" [] "nsubj" 2 (Some 1);
               w_is;
               word 3 "a" "a" "DET" [] "det" 4 (Some 3);
               w_doctor].

(** A "be" node with two expl dependents, "it" before "there". *)
Definition it_there_is : World :=
  sentence_of [word 1 "it" "it" "PRON" [] "expl" 3 (Some 2);
               word 2 "there" "there" "PRON" [] "expl" 3 (Some 2);
               word 3 "is" "be" "VERB" [] "root" 0 None;
               word 4 "ghost" "ghost" "NOUN" [] "attr" 3 (Some 2)].

(** "The problem is to leave" *)
Definition w_leave : WordNode := word 5 "leave" "leave" "VERB" [] "xcomp" 3 (Some 2).
Definition w_is3 : WordNode := word 3 "is" "be" "AUX" [] "root" 0 None.
Definition w_problem : WordNode := word 2 "problem" "problem" "NOUN" [] "nsubj" 3 (Some 2).
Definition the_problem_is_to_leave : World :=
  sentence_of [word 1 "The" "the" "DET" [] "det" 2 (Some 1);
               w_problem;
               w_is3;
               word 4 "to" "to" "PART" [] "aux" 5 (Some 4);
               w_leave].




(** "The speech was well received" *)
Definition w_received : WordNode :=
  word 5 "received" "receive" "VERB"
       [("Aspect", "Perf"); ("Tense", "Past"); ("VerbForm", "Part")]
       "acomp" 3 (Some 2).
Definition w_was : WordNode := word 3 "was" "be" "AUX" [] "root" 0 None.
Definition w_speech : WordNode := word 2 "speech" "speech" "NOUN" [] "nsubj" 3 (Some 2).
Definition the_speech_was_well_received : World :=
  sentence_of [word 1 "The" "the" "DET" [] "det" 2 (Some 1);
               w_speech;
               w_was;
               word 4 "well" "well" "ADV" [] "advmod" 5 (Some 4);
               w_received].

(** "Sam spent $40" *)
Definition w_dollar : WordNode := word 3 "$" "$" "SYM" [] "nmod" 4 (Some 3).
Definition w_40 : WordNode := word 4 "40" "40" "NUM" [] "obj" 2 (Some 1).
Definition sam_spent_40 : World :=
  sentence_of [word 1 "Sam" "Sam" "PROPN" [] "nsubj" 2 (Some 1);
               word 2 "spent" "spend" "VERB" [] "root" 0 None;
               w_dollar;
               w_40].

(** "We are here now" *)
Definition w_are : WordNode := word 2 "are" "be" "AUX" [] "root" 0 None.
Definition w_now : WordNode := word 4 "now" "now" "ADV" [] "advmod" 2 (Some 1).
Definition we_are_here_now : World :=
  sentence_of [word 1 "We" "we" "PRON" [] "nsubj" 2 (Some 1);
               w_are;
               word 3 "here" "here" "ADV" [] "advmod" 2 (Some 1);
               w_now].

(** "There is hope here now" *)
Definition there_is_hope_here_now : World :=
  sentence_of [word 1 "There" "there" "PRON" [] "expl" 2 (Some 1);
               word 2 "is" "be" "VERB" [] "root" 0 None;
               word 3 "hope" "hope" "NOUN" [] "nsubj" 2 (Some 1);
               word 4 "here" "here" "ADV" [] "advmod" 2 (Some 1);
               word 5 "now" "now" "ADV" [] "advmod" 2 (Some 1)].

(** The relation and governor word of every word. *)
Definition links (ws : list WordNode) : list (string * option nat) :=
  (λ w, (dependency_relation w, governor_word w)) <$> ws.

(** ** What a computation keeps *)

(** Whatever its result, [m] takes a state to one related to it by [Q]. *)
Definition stable (Q : World → World → Prop) {A} (m : M World A) : Prop :=
  ∀ σ, Q σ (snd (m σ)).

(** The words of the two states are related by [R], slot by slot. *)
Definition wordwise (R : WordNode → WordNode → Prop) (σ σ' : World) : Prop :=
  Forall2 R (word_nodes σ) (word_nodes σ').

(** The fields a word gets from its token and keeps: position, text,
    lemma, features and character span. *)
Definition same_text (w w' : WordNode) : Prop :=
  index w = index w' ∧ text w = text w' ∧ lemma w = lemma w'
  ∧ features w = features w' ∧ span w = span w'.

(** The governor link of a word: position and word. *)
Definition same_link (w w' : WordNode) : Prop :=
  governor w = governor w' ∧ governor_word w = governor_word w'.

(** [σ'] has the words of [σ], with the same token fields, and the output
    of [σ] followed by what was printed since. *)
Definition extends (σ σ' : World) : Prop :=
  wordwise same_text σ σ' ∧ stdout σ `prefix_of` stdout σ'.

(** Nothing was printed between [σ] and [σ']. *)
Definition quiet (σ σ' : World) : Prop := stdout σ' = stdout σ.

(** The sentences [spacy_to_ud_doc] converts. *)
Definition doc_sentences_of (sp_doc : SpacyDoc) : list Span :=
  match sents sp_doc with
  | [] => [whole_doc sp_doc]
  | ss => ss
  end.

(** Everything but the entity annotations of [w'] is as in [w]. *)
Definition same_tree (w w' : WordNode) : Prop :=
  w' = with_ner_head_word (ner_head_word w') (with_ner (ner w') w).

(** The three messages the rule engine can print start with one of
    these. *)
Definition diagnostics : list string :=
  ["pobj without preps, word: "; "No prep dependency in: ";
   "Dep attr used with something other than to be: "].

Definition is_diagnostic (line : string) : bool :=
  existsb (λ p, String.prefix p line) diagnostics.

(** [σ'] has the output of [σ], followed by diagnostics only. *)
Definition diagnosed (σ σ' : World) : Prop :=
  ∃ lines, stdout σ' = (stdout σ ++ lines)%list
           ∧ Forall (λ l, is_diagnostic l = true) lines.

(** The relations whose rule can re-attach a word. *)
Definition attaching : list string :=
  ["nmod"; "advcl"; "pobj"; "pcomp"; "xcomp"; "ccomp"; "attr"; "acomp";
   "npadvmod"; "conj"].

(** The governors from [x] up: [preps] are the words labelled prep met on
    the way, each the governor word of the one before, and [head] is the
    first word that is not labelled prep. *)
Fixpoint prep_path (ws : list WordNode) (x : ref) (preps : list ref)
    (head : ref) : Prop :=
  match preps with
  | [] => x = head
          ∧ ∃ hw, ws !! head = Some hw ∧ dependency_relation hw ≠ "prep"
  | p :: preps' =>
      x = p
      ∧ ∃ pw y, ws !! p = Some pw ∧ dependency_relation pw = "prep"
                ∧ governor_word pw = Some y ∧ prep_path ws y preps' head
  end.

(** [m] leaves the part [π] of the renderers' state as it is, whatever it
    returns. *)
Definition keeps {X A} (π : Console → X) (m : M Console A) : Prop :=
  ∀ σ, π (snd (m σ)) = π σ.

Definition same_ner (w w' : WordNode) : Prop := ner w' = ner w.

(** The member list of the entity annotation of [w], if it has one, holds
    words of a sentence of [n] words. *)
Definition ner_in_range (n : nat) (w : WordNode) : Prop :=
  match ner w with
  | Some k => Forall (λ x, ∃ r, x = Some r ∧ r < n) (ner_words k)
  | None => True
  end.

Definition members_in_sentence (ws : list WordNode) : Prop :=
  Forall (ner_in_range (length ws)) ws.

(** The length of the stream the renderers write to: the sink when there is
    one, the default output otherwise. *)
Definition written (fo : option file) (σ : Console) : nat :=
  match fo with
  | Some _ => length (file_out σ)
  | None => length (console_out σ)
  end.

(** The number of entries [print_doc] adds for a sentence: its text, a line
    per word and, on the default output, an empty line. *)
Definition sentence_lines (fo : option file) (sn : SentenceNode) : nat :=
  match fo with
  | Some _ => 1 + length (sent_word_nodes sn)
  | None => 2 + length (sent_word_nodes sn)
  end.

(** [s] has no ['|'] in it. *)
Definition no_bar (s : string) : Prop :=
  "|"%char ∉ list_ascii_of_string s.

(** [name=value] *)
Definition feature (f : string * string) : string := f.1 +:+ "=" +:+ f.2.

(** "We walked out of the woods" *)
Definition w_of : WordNode := word 4 "of" "of" "ADP" [] "prep" 3 (Some 2).
Definition w_woods : WordNode := word 6 "woods" "wood" "NOUN" [] "pobj" 4 (Some 3).
Definition we_walked_out_of_the_woods : World :=
  sentence_of [word 1 "We" "we" "PRON" [] "nsubj" 2 (Some 1);
               word 2 "walked" "walk" "VERB" [] "root" 0 None;
               word 3 "out" "out" "ADP" [] "prep" 2 (Some 1);
               w_of;
               word 5 "the" "the" "DET" [] "det" 6 (Some 5);
               w_woods].

(** "She became a doctor" *)
Definition w_became : WordNode := word 2 "became" "become" "VERB" [] "root" 0 None.
Definition she_became_a_doctor : World :=
  sentence_of [word 1 "She" "she" "PRON" [] "nsubj" 2 (Some 1);
               w_became;
               word 3 "a" "a" "DET" [] "det" 4 (Some 3);
               w_doctor].

(** "Go home", with "home" labelled as the object of a preposition. *)
Definition w_go : WordNode := word 1 "Go" "go" "VERB" [] "root" 0 None.
Definition w_home : WordNode := word 2 "home" "home" "NOUN" [] "pobj" 1 (Some 0).
Definition go_home : World := sentence_of [w_go; w_home].

(** "talk about leaving", with "about" labelled as a marker. *)
Definition w_about : WordNode := word 2 "about" "about" "ADP" [] "mark" 1 (Some 0).
Definition w_leaving : WordNode :=
  word 3 "leaving" "leave" "VERB" [] "pcomp" 2 (Some 1).
Definition talk_about_leaving : World :=
  sentence_of [word 1 "talk" "talk" "VERB" [] "root" 0 None; w_about; w_leaving].

(** The first sentence of "Stop. Go home." *)
Definition stop : Span :=
  {| span_text := "Stop."; sent_start := 0; sent_end := 2; span_ents := [] |}.

(** Governor position and governor word agree: the governor position of a
    word that has a governor word is the position of that word. *)
Definition coherent (ws : list WordNode) : Prop :=
  ∀ i w g, ws !! i = Some w → governor_word w = Some g →
    ∃ gw, ws !! g = Some gw ∧ governor w = index gw.

(** The same, in a sentence whose words have the positions [idx]. *)
Definition agree (idx : list Z) (σ : World) : Prop :=
  index <$> word_nodes σ = idx
  ∧ ∀ i w g, word_nodes σ !! i = Some w → governor_word w = Some g →
      idx !! g = Some (governor w).

Definition keeps_agreement (idx : list Z) (σ σ' : World) : Prop :=
  agree idx σ → agree idx σ'.

(** [g] is the position of the word [t], if [t] is a word. *)
Definition position_of (idx : list Z) (g : Z) (t : obj) : Prop :=
  ∀ i, t = Some i → idx !! i = Some g.

(** [coherent], as a test. *)
Definition coherentb (ws : list WordNode) : bool :=
  forallb (λ w, match governor_word w with
                | Some g =>
                    match ws !! g with
                    | Some gw => (governor w =? index gw)%Z
                    | None => false
                    end
                | None => true
                end) ws.

(** Values that hold only words of a sentence of [n] words: a reference
    is in range when it is None or a word of the sentence. *)
Class Ranged (A : Type) := in_range : nat → A → Prop.

#[global] Instance ranged_obj : Ranged (option nat) :=
  λ n x, ∀ i, x = Some i → i < n.
#[global] Instance ranged_list {A} `{Ranged A} : Ranged (list A) :=
  λ n, Forall (in_range n).
#[global] Instance ranged_prod {A B} `{Ranged A} `{Ranged B} : Ranged (A * B) :=
  λ n p, in_range n p.1 ∧ in_range n p.2.
#[global] Instance ranged_bool : Ranged bool := λ _ _, True.
#[global] Instance ranged_unit : Ranged unit := λ _ _, True.
#[global] Instance ranged_string : Ranged string := λ _ _, True.
#[global] Instance ranged_Z : Ranged Z := λ _ _, True.

(** The sentence has [n] words and every governor word is one of them. *)
Definition in_sentence (n : nat) (σ : World) : Prop :=
  length (word_nodes σ) = n
  ∧ ∀ i w, word_nodes σ !! i = Some w → in_range n (governor_word w).

(** [m] keeps the governor words inside the sentence, returns values in
    range, and fails with AttributeError only, if it ends. *)
Definition safe (n : nat) {A} `{Ranged A} (m : M World A) : Prop :=
  ∀ σ, in_sentence n σ →
    in_sentence n (snd (m σ))
    ∧ match fst (m σ) with
      | Return a => in_range n a
      | Raise e => e = AttributeError ∨ e = NonTermination
      end.

(** Types whose values hold no reference. *)
Class Plain (A : Type) `{Ranged A} := plain : ∀ n (a : A), in_range n a.

(** * Reasoning about the embedding *)

(** ** One step of a computation *)

Section Steps.
Context {Σ : Type}.

Lemma bind_Return {A B} (m : M Σ A) (k : A → M Σ B) σ a σ' :
  m σ = (Return a, σ') → bind m k σ = k a σ'.
Proof. intros E. unfold bind. now rewrite E. Qed.

Lemma bind_Raise {A B} (m : M Σ A) (k : A → M Σ B) σ e σ' :
  m σ = (Raise e, σ') → bind m k σ = (Raise e, σ').
Proof. intros E. unfold bind. now rewrite E. Qed.

Lemma bind_ret {A B} (a : A) (k : A → M Σ B) σ : bind (ret a) k σ = k a σ.
Proof. reflexivity. Qed.

Lemma bind_assoc {A B C} (m : M Σ A) (k1 : A → M Σ B) (k2 : B → M Σ C) σ :
  bind (bind m k1) k2 σ = bind m (λ a, bind (k1 a) k2) σ.
Proof. unfold bind. now destruct (m σ) as [[a|e] σ']. Qed.

Lemma for_each_app {A} (xs ys : list A) (body : A → M Σ unit) σ σ' :
  for_each xs body σ = (Return tt, σ') →
  for_each (xs ++ ys) body σ = for_each ys body σ'.
Proof.
  revert σ. induction xs as [|x xs IH]; intros σ E; simpl in *.
  - unfold ret in E. now inversion E.
  - unfold bind in *. destruct (body x σ) as [[[]|e] σ1]; [|discriminate].
    now apply IH.
Qed.

End Steps.

Lemma set_words_id σ : set_words (word_nodes σ) σ = σ.
Proof. now destruct σ. Qed.

Lemma word_nodes_set_words ws σ : word_nodes (set_words ws σ) = ws.
Proof. reflexivity. Qed.

Lemma stdout_set_words ws σ : stdout (set_words ws σ) = stdout σ.
Proof. reflexivity. Qed.

Lemma set_words_twice ws ws' σ : set_words ws (set_words ws' σ) = set_words ws σ.
Proof. reflexivity. Qed.

Lemma getattr_Some {A} (f : WordNode → A) r w σ :
  word_nodes σ !! r = Some w → getattr (Some r) f σ = (Return (f w), σ).
Proof. intros E. unfold getattr. now rewrite E. Qed.

Lemma setattr_Some {A} (upd : A → WordNode → WordNode) v r w σ :
  word_nodes σ !! r = Some w →
  setattr (Some r) upd v σ
  = (Return tt, set_words (<[r := upd v w]> (word_nodes σ)) σ).
Proof. intros E. unfold setattr. now rewrite E. Qed.

Lemma bind_getattr {A B} (f : WordNode → A) (k : A → M World B) r w σ :
  word_nodes σ !! r = Some w → bind (getattr (Some r) f) k σ = k (f w) σ.
Proof. intros E. apply bind_Return. now apply getattr_Some. Qed.

Lemma bind_setattr {A B} (upd : A → WordNode → WordNode) v
    (k : unit → M World B) r w σ :
  word_nodes σ !! r = Some w →
  bind (setattr (Some r) upd v) k σ
  = k tt (set_words (<[r := upd v w]> (word_nodes σ)) σ).
Proof. intros E. apply bind_Return. now apply setattr_Some. Qed.

(** ** Loops over the words of the sentence *)

Lemma find_from_Some q ws : ∀ k i,
  find_from q k ws = Some i →
  ∃ w, k ≤ i ∧ ws !! (i - k)%nat = Some w ∧ q w = true
       ∧ ∀ j w', (j < i - k)%nat → ws !! j = Some w' → q w' = false.
Proof.
  induction ws as [|w ws IH]; intros k i E; simpl in E; [discriminate|].
  destruct (q w) eqn:Q.
  - inversion E; subst. exists w. rewrite Nat.sub_diag. repeat split; auto.
    intros j w' Hj. lia.
  - destruct (IH _ _ E) as (w1 & Hk & Hl & Hq & Hmin).
    exists w1. replace (i - k)%nat with (S (i - S k)) by lia.
    repeat split; auto; [lia|].
    intros [|j] w' Hj Hw'; simpl in Hw'.
    + now inversion Hw'; subst.
    + apply (Hmin j); [lia|done].
Qed.

Lemma find_from_None q ws : ∀ k,
  find_from q k ws = None → ∀ j w, ws !! j = Some w → q w = false.
Proof.
  induction ws as [|w ws IH]; intros k E j w' Hj; [done|].
  simpl in E. destruct (q w) eqn:Q; [discriminate|].
  destruct j as [|j]; simpl in Hj.
  - now inversion Hj; subst.
  - eapply IH; eauto.
Qed.

Lemma first_index_Some q ws i :
  first_index q ws = Some i →
  ∃ w, ws !! i = Some w ∧ q w = true
       ∧ ∀ j w', (j < i)%nat → ws !! j = Some w' → q w' = false.
Proof.
  intros E. destruct (find_from_Some _ _ _ _ E) as (w & _ & Hl & Hq & Hmin).
  rewrite Nat.sub_0_r in *. eauto.
Qed.

Lemma first_index_None q ws :
  first_index q ws = None → ∀ j w, ws !! j = Some w → q w = false.
Proof. apply find_from_None. Qed.

(** Two stores that agree on [q] slot by slot have the same first match. *)
Lemma find_from_ext q ws ws' : ∀ k,
  length ws = length ws' →
  (∀ j w w', ws !! j = Some w → ws' !! j = Some w' → q w = q w') →
  find_from q k ws = find_from q k ws'.
Proof.
  revert ws'. induction ws as [|w ws IH]; intros [|w' ws'] k Hlen Hq;
    simpl in *; try done.
  rewrite (Hq 0%nat w w') by done.
  destruct (q w'); [done|].
  apply IH; [lia|]. intros j v v' Hv Hv'. now apply (Hq (S j)).
Qed.

Lemma first_such_seq (q : WordNode → bool) (p : obj → M World bool) σ :
  (∀ i w, word_nodes σ !! i = Some w → p (Some i) σ = (Return (q w), σ)) →
  ∀ ws k,
    (∀ j w, ws !! j = Some w → word_nodes σ !! (k + j)%nat = Some w) →
    first_such (Some <$> seq k (length ws)) p σ = (Return (find_from q k ws), σ).
Proof.
  intros Hp. induction ws as [|w ws IH]; intros k Hws; simpl; [done|].
  erewrite bind_Return; cycle 1.
  { apply Hp. specialize (Hws 0 w eq_refl). rewrite Nat.add_0_r in Hws.
    exact Hws. }
  simpl. destruct (q w); [done|].
  apply IH. intros j w' Hj. specialize (Hws (S j) w' Hj).
  now replace (S k + j)%nat with (k + S j)%nat by lia.
Qed.

Lemma first_such_words (q : WordNode → bool) (p : obj → M World bool) σ :
  (∀ i w, word_nodes σ !! i = Some w → p (Some i) σ = (Return (q w), σ)) →
  first_such (Some <$> seq 0 (length (word_nodes σ))) p σ
  = (Return (first_index q (word_nodes σ)), σ).
Proof. intros Hp. now apply first_such_seq. Qed.

(** A loop whose body rewrites only the word it visits. *)
Lemma for_each_update (g : nat → WordNode → WordNode) (P : list WordNode → Prop)
    (body : obj → M World unit) (rs : list nat) :
  NoDup rs →
  (∀ σ i w, P (word_nodes σ) → i ∈ rs → word_nodes σ !! i = Some w →
     body (Some i) σ = (Return tt, set_words (<[i := g i w]> (word_nodes σ)) σ)) →
  (∀ ws i w, P ws → i ∈ rs → ws !! i = Some w → P (<[i := g i w]> ws)) →
  ∀ σ, P (word_nodes σ) → (∀ i, i ∈ rs → (i < length (word_nodes σ))%nat) →
    for_each (Some <$> rs) body σ
    = (Return tt,
       set_words (imap (λ i w, if bool_decide (i ∈ rs) then g i w else w)
                       (word_nodes σ)) σ).
Proof.
  intros Hnd Hbody HP. induction rs as [|r rs IH]; intros σ Hσ Hlt; simpl.
  - unfold ret. f_equal. rewrite <- (set_words_id σ) at 1. f_equal.
    apply list_eq. intros i. rewrite list_lookup_imap.
    destruct (word_nodes σ !! i); simpl; [|done].
    done.
  - apply NoDup_cons in Hnd as [Hr Hnd].
    destruct (lookup_lt_is_Some_2 (word_nodes σ) r) as [w Hw].
    { apply Hlt. left. }
    erewrite bind_Return; cycle 1.
    { apply Hbody; [done|left|exact Hw]. }
    rewrite IH; [|done| | | |].
    + rewrite set_words_twice, word_nodes_set_words. do 2 f_equal.
      apply list_eq. intros i. rewrite !list_lookup_imap.
      destruct (decide (i = r)) as [->|Hne].
      * rewrite list_lookup_insert_eq by (eapply lookup_lt_Some; eauto).
        rewrite Hw. simpl.
        rewrite bool_decide_eq_false_2 by done.
        rewrite bool_decide_eq_true_2 by left. done.
      * rewrite list_lookup_insert_ne by done.
        destruct (word_nodes σ !! i); simpl; [|done].
        destruct (bool_decide_reflect (i ∈ rs)) as [Hin|Hin].
        -- rewrite bool_decide_eq_true_2 by now right. done.
        -- rewrite bool_decide_eq_false_2; [done|].
           intros [?|?]%elem_of_cons; done.
    + intros σ' i w' HP' Hi. apply Hbody; [done|now right].
    + intros ws i w' HP' Hi. apply HP; [done|now right].
    + rewrite word_nodes_set_words. apply HP; [done|left|done].
    + intros i Hi. rewrite word_nodes_set_words, length_insert.
      apply Hlt. now right.
Qed.

Lemma for_each_words (g : nat → WordNode → WordNode) (P : list WordNode → Prop)
    (body : obj → M World unit) σ :
  (∀ σ i w, P (word_nodes σ) → word_nodes σ !! i = Some w →
     body (Some i) σ = (Return tt, set_words (<[i := g i w]> (word_nodes σ)) σ)) →
  (∀ ws i w, P ws → ws !! i = Some w → P (<[i := g i w]> ws)) →
  P (word_nodes σ) →
  for_each (Some <$> seq 0 (length (word_nodes σ))) body σ
  = (Return tt, set_words (imap g (word_nodes σ)) σ).
Proof.
  intros Hbody HP Hσ.
  rewrite (for_each_update g P); auto.
  - do 2 f_equal. apply list_eq. intros i. rewrite !list_lookup_imap.
    destruct (word_nodes σ !! i) eqn:E; simpl; [|done].
    rewrite bool_decide_eq_true_2; [done|].
    apply elem_of_seq. apply lookup_lt_Some in E. lia.
  - apply NoDup_seq.
  - intros i Hi%elem_of_seq. lia.
Qed.

(** ** The shared helpers, as functions of the store *)

Lemma find_governed_run r dep σ :
  find_governed (Some r) dep σ
  = (Return (first_index (governed r dep) (word_nodes σ)), σ).
Proof.
  unfold find_governed. erewrite bind_Return by reflexivity.
  apply first_such_words. intros i w Hw.
  rewrite (bind_getattr _ _ _ _ _ Hw). unfold governed, governed_by.
  destruct (bool_decide_reflect (governor_word w = Some r)); simpl; [|done].
  now rewrite (bind_getattr _ _ _ _ _ Hw).
Qed.

Lemma find_subj_run r σ :
  find_subj (Some r) σ = (Return (first_index (is_subj_of r) (word_nodes σ)), σ).
Proof.
  unfold find_subj. erewrite bind_Return by reflexivity.
  apply first_such_words. intros i w Hw.
  rewrite (bind_getattr _ _ _ _ _ Hw). unfold is_subj_of, governed_by.
  destruct (bool_decide_reflect (governor_word w = Some r)); simpl; [|done].
  now rewrite (bind_getattr _ _ _ _ _ Hw).
Qed.

Lemma redirected_length f t ti (ws : list WordNode) :
  length (imap (redirected f t ti) ws) = length ws.
Proof. apply length_imap. Qed.

Lemma ret_unchanged i w σ :
  word_nodes σ !! i = Some w →
  ret tt σ = (Return tt, set_words (<[i := w]> (word_nodes σ)) σ).
Proof. intros E. now rewrite list_insert_id, set_words_id. Qed.

Lemma redirect_dependants_run f t tw σ :
  word_nodes σ !! t = Some tw →
  redirect_dependants (Some f) (Some t) σ
  = (Return tt, set_words (imap (redirected f t (index tw)) (word_nodes σ)) σ).
Proof.
  intros Ht. unfold redirect_dependants. erewrite bind_Return by reflexivity.
  apply (for_each_words _
           (λ ws, ∃ tw', ws !! t = Some tw' ∧ index tw' = index tw)).
  - intros σ' i w (tw' & Ht' & Hi) Hw. unfold redirected, governed_by.
    destruct (bool_decide (Some i = Some f) || bool_decide (Some i = Some t));
      cbv iota; [now apply ret_unchanged|].
    rewrite (bind_getattr _ _ _ _ _ Hw).
    destruct (bool_decide (governor_word w = Some f)); cbn [andb]; cbv iota;
      [|now apply ret_unchanged].
    rewrite (bind_getattr _ _ _ _ _ Hw).
    destruct (string_in (dependency_relation w) redirectable); cbv iota;
      [|now apply ret_unchanged].
    rewrite (bind_getattr _ _ _ _ _ Ht').
    rewrite (bind_setattr _ _ _ _ _ _ Hw).
    erewrite setattr_Some; cycle 1.
    { rewrite word_nodes_set_words. apply list_lookup_insert_eq.
      eapply lookup_lt_Some; eauto. }
    rewrite set_words_twice, word_nodes_set_words, list_insert_insert_eq.
    now rewrite Hi.
  - intros ws i w (tw' & Ht' & Hi) Hw.
    destruct (decide (i = t)) as [->|Hne].
    + unfold redirected. rewrite (bool_decide_eq_true_2 (Some t = Some t)) by done.
      rewrite orb_true_r, list_insert_id by done. eauto.
    + exists tw'. now rewrite list_lookup_insert_ne.
  - eauto.
Qed.

(** Solves [ws' !! r = Some ?w] for a store [ws'] of nested updates. *)
Ltac lk :=
  rewrite ?word_nodes_set_words;
  repeat first
    [ rewrite list_lookup_insert_eq
        by (rewrite ?length_insert; eapply lookup_lt_Some; eassumption)
    | rewrite list_lookup_insert_ne by congruence ];
  first [reflexivity | eassumption].

Ltac get := rewrite ?bind_assoc; erewrite bind_getattr by lk.
Ltac set_ := rewrite ?bind_assoc; erewrite bind_setattr by lk.

Lemma make_copula_run h b hw bw σ :
  h ≠ b →
  word_nodes σ !! h = Some hw →
  word_nodes σ !! b = Some bw →
  make_copula (Some h) (Some b) σ
  = if existential (word_nodes σ) b then (Return false, σ)
    else (Return true, set_words (copula h b hw bw (word_nodes σ)) σ).
Proof.
  intros Hne Hh Hb. unfold make_copula.
  erewrite bind_Return by apply find_governed_run.
  assert (E : ∀ k : bool → M World bool,
    bind match first_index (governed b "expl") (word_nodes σ) with
         | Some _ =>
             bind (getattr (first_index (governed b "expl") (word_nodes σ)) lemma)
                  (λ l, ret (String.eqb l "there"))
         | None => ret false
         end k σ = k (existential (word_nodes σ) b) σ).
  { intros k. unfold existential.
    destruct (first_index _ _) as [e|] eqn:Fe; [|done].
    destruct (first_index_Some _ _ _ Fe) as (ew & He & _).
    rewrite He. erewrite bind_Return; [done|].
    now rewrite (bind_getattr _ _ _ _ _ He). }
  rewrite E. destruct (existential _ _); [done|].
  get. set_. get. set_. get. set_. get. set_. set_. set_. set_.
  erewrite bind_Return; cycle 1.
  { apply redirect_dependants_run. lk. }
  unfold ret, copula, copula_be, takes_over, regoverned.
  rewrite !set_words_twice, !word_nodes_set_words.
  rewrite !list_insert_insert_eq. reflexivity.
Qed.

(** The subject that [make_passive] re-governs, with its new relation. *)
Lemma insert_alter (f : WordNode → WordNode) (ws : list WordNode) i w :
  ws !! i = Some w → <[i := f w]> ws = alter f i ws.
Proof.
  intros E. apply list_eq. intros j. rewrite list_lookup_alter.
  case_decide; subst.
  - rewrite list_lookup_insert_eq by (eapply lookup_lt_Some; eauto).
    now rewrite E.
  - now rewrite list_lookup_insert_ne.
Qed.

Lemma governed_true r dep w :
  governed r dep w = true →
  governor_word w = Some r ∧ dependency_relation w = dep.
Proof.
  unfold governed, governed_by. intros [H1 H2]%andb_prop.
  apply bool_decide_eq_true_1 in H1. now apply String.eqb_eq in H2.
Qed.

Lemma make_passive_run b v bw vw σ :
  word_nodes σ !! b = Some bw →
  word_nodes σ !! v = Some vw →
  v ≠ b →
  governor_word bw ≠ Some b →
  dependency_relation vw ≠ "nsubj" →
  dependency_relation vw ≠ "csubj" →
  make_passive (Some b) (Some v) σ
  = (Return tt,
     set_words
       (<[b := with_dependency_relation "aux:pass" (regoverned v (index vw) bw)]>
          (<[v := takes_over vw bw]>
             match passive_subject (word_nodes σ) b with
             | Some (s, rel) =>
                 alter (λ sw, with_dependency_relation rel
                                (regoverned v (index vw) sw)) s (word_nodes σ)
             | None => word_nodes σ
             end)) σ).
Proof.
  intros Hb Hv Hne Hself Hn Hc. unfold make_passive, passive_subject.
  erewrite bind_Return by apply find_governed_run.
  assert (Hsubj : ∀ dep s, dep = "nsubj" ∨ dep = "csubj" →
            first_index (governed b dep) (word_nodes σ) = Some s →
            ∃ sw, word_nodes σ !! s = Some sw ∧ s ≠ b ∧ s ≠ v).
  { intros dep s Hdep Fs.
    destruct (first_index_Some _ _ _ Fs) as (sw & Hs & Hg & _).
    apply governed_true in Hg as [Hg Hd]. exists sw. split; [done|].
    split; intros ->; rewrite Hs in *; simplify_eq; destruct Hdep; congruence. }
  destruct (first_index (governed b "nsubj") _) as [s|] eqn:Fs.
  - destruct (Hsubj _ _ (or_introl eq_refl) Fs) as (sw & Hs & Hsb & Hsv).
    rewrite bind_ret. cbv beta iota. get. set_. set_. set_.
    get. set_. get. set_. get. set_. get. set_. set_.
    erewrite setattr_Some by lk.
    rewrite !set_words_twice, !word_nodes_set_words.
    unfold takes_over, regoverned. f_equal. f_equal.
    rewrite !list_insert_insert_eq.
    do 2 f_equal. symmetry. now erewrite <- insert_alter by exact Hs.
  - erewrite bind_Return; cycle 1.
    { erewrite bind_Return by apply find_governed_run. reflexivity. }
    destruct (first_index (governed b "csubj") _) as [s|] eqn:Fc.
    + destruct (Hsubj _ _ (or_intror eq_refl) Fc) as (sw & Hs & Hsb & Hsv).
      get. set_. set_. set_.
      get. set_. get. set_. get. set_. get. set_. set_.
      erewrite setattr_Some by lk.
      rewrite !set_words_twice, !word_nodes_set_words.
      unfold takes_over, regoverned. f_equal. f_equal.
      rewrite !list_insert_insert_eq.
      do 2 f_equal. symmetry. now erewrite <- insert_alter by exact Hs.
    + rewrite bind_ret.
      get. set_. get. set_. get. set_. get. set_. set_.
      erewrite setattr_Some by lk.
      rewrite !set_words_twice, !word_nodes_set_words.
      unfold takes_over, regoverned. f_equal. f_equal.
      now rewrite !list_insert_insert_eq.
Qed.

(** C6. A word labelled [acomp] under a "be" governor that is a VERB with
    Aspect=Perf is repaired by make-passive: the verb takes over the
    governor position, governor word and relation of "be"; the first nsubj
    dependent of "be" (else its first csubj dependent), if any, is
    re-governed by the verb with relation nsubj:pass (csubj:pass); "be"
    becomes the verb's dependent with relation aux:pass; every other word
    is left as it was. *)
Theorem acomp_perfect_verb_made_passive σ v b vw bw :
  word_nodes σ !! v = Some vw →
  word_nodes σ !! b = Some bw →
  dependency_relation vw = "acomp" →
  governor_word vw = Some b →
  lemma bw = "be" →
  upos vw = "VERB" →
  dict_get (features vw) "Aspect" = Some "Perf" →
  v ≠ b →
  governor_word bw ≠ Some b →
  ∃ ws',
    spacy_to_ud_word (Some v) σ = (Return tt, set_words ws' σ)
    ∧ length ws' = length (word_nodes σ)
    ∧ ws' !! v = Some (takes_over vw bw)
    ∧ ws' !! b = Some (with_dependency_relation "aux:pass"
                         (regoverned v (index vw) bw))
    ∧ (∀ s rel sw,
         passive_subject (word_nodes σ) b = Some (s, rel) →
         word_nodes σ !! s = Some sw →
         ws' !! s = Some (with_dependency_relation rel
                            (regoverned v (index vw) sw)))
    ∧ (∀ i w,
         i ≠ v → i ≠ b →
         (∀ rel, passive_subject (word_nodes σ) b ≠ Some (i, rel)) →
         word_nodes σ !! i = Some w → ws' !! i = Some w).
Proof.
  intros Hv Hb Hd Hg Hl Hp Hf Hne Hself.
  assert (Hlv := lookup_lt_Some _ _ _ Hv).
  assert (Hlb := lookup_lt_Some _ _ _ Hb).
  eexists. split.
  { unfold spacy_to_ud_word. get. rewrite Hd.
    change (string_in "acomp" ["xcomp"; "ccomp"]) with false. cbn [String.eqb Ascii.eqb Bool.eqb].
    cbv iota. unfold acomp_to_ud. get. rewrite Hg. get. rewrite Hl.
    cbn [String.eqb Ascii.eqb Bool.eqb]. cbv iota. get. rewrite Hp.
    cbn [String.eqb Ascii.eqb Bool.eqb]. cbv iota. get. rewrite bind_ret.
    rewrite bool_decide_eq_true_2 by done.
    apply make_passive_run; try done; rewrite Hd; discriminate. }
  assert (Hsub : ∀ s rel, passive_subject (word_nodes σ) b = Some (s, rel) →
            s ≠ v ∧ s ≠ b).
  { unfold passive_subject. intros s rel Hs.
    assert (∃ dep, (dep = "nsubj" ∨ dep = "csubj")
                   ∧ first_index (governed b dep) (word_nodes σ) = Some s)
      as (dep & Hdep & Fs).
    { destruct (first_index (governed b "nsubj") _) eqn:F1.
      - exists "nsubj". simplify_eq. auto.
      - destruct (first_index (governed b "csubj") _) eqn:F2; [|done].
        exists "csubj". simplify_eq. auto. }
    destruct (first_index_Some _ _ _ Fs) as (sw & Hsw & Hgv & _).
    apply governed_true in Hgv as [Hgv Hdv].
    split; intros ->; rewrite Hsw in *; simplify_eq; destruct Hdep; congruence. }
  split; [|split; [|split; [|split]]].
  - rewrite !length_insert. destruct (passive_subject _ _) as [[s rel]|]; [|done].
    apply length_alter.
  - rewrite list_lookup_insert_ne by done.
    rewrite list_lookup_insert_eq; [done|].
    destruct (passive_subject _ _) as [[s rel]|]; [|done].
    now rewrite length_alter.
  - rewrite list_lookup_insert_eq; [done|]. rewrite length_insert.
    destruct (passive_subject _ _) as [[s rel]|]; [|done].
    now rewrite length_alter.
  - intros s rel sw Hs Hsw. destruct (Hsub _ _ Hs) as [Hsv Hsb].
    rewrite !list_lookup_insert_ne by done. rewrite Hs.
    rewrite list_lookup_alter. rewrite decide_True by done. now rewrite Hsw.
  - intros i w Hiv Hib Hi Hw. rewrite !list_lookup_insert_ne by done.
    destruct (passive_subject _ _) as [[s rel]|]; [|done].
    rewrite list_lookup_alter_ne; [done|]. intros ->. now apply (Hi rel).
Qed.

(** C7. A word labelled [nmod] with lemma "$" under a NUM governor swaps
    roles with it: the word takes over the governor's governor position,
    governor word and relation; the former governor becomes the word's
    dependent with relation nummod; every other redirectable dependent of
    the former governor is re-governed by the word, and nothing else
    changes. *)
Theorem nmod_currency_swaps_roles σ w g ww gw :
  word_nodes σ !! w = Some ww →
  word_nodes σ !! g = Some gw →
  dependency_relation ww = "nmod" →
  governor_word ww = Some g →
  lemma ww = "$" →
  upos gw = "NUM" →
  w ≠ g →
  ∃ ws',
    spacy_to_ud_word (Some w) σ = (Return tt, set_words ws' σ)
    ∧ length ws' = length (word_nodes σ)
    ∧ ws' !! w = Some (takes_over ww gw)
    ∧ ws' !! g = Some (with_dependency_relation "nummod"
                         (regoverned w (index ww) gw))
    ∧ (∀ i x,
         i ≠ w → i ≠ g → word_nodes σ !! i = Some x →
         ws' !! i
         = Some (if governed_by g x
                    && string_in (dependency_relation x) redirectable
                 then regoverned w (index ww) x
                 else x)).
Proof.
  intros Hw Hg Hd Hgw Hl Hp Hne.
  assert (Hlw := lookup_lt_Some _ _ _ Hw).
  assert (Hlg := lookup_lt_Some _ _ _ Hg).
  eexists. split.
  { unfold spacy_to_ud_word. get. rewrite Hd.
    cbn [String.eqb Ascii.eqb Bool.eqb]. cbv iota.
    unfold nmod_to_ud. get. rewrite Hgw. get. rewrite Hl.
    cbn [String.eqb Ascii.eqb Bool.eqb]. cbv iota. get. rewrite Hp, bind_ret.
    cbn [String.eqb Ascii.eqb Bool.eqb]. cbv iota.
    get. set_. get. set_. get. set_. set_. get. set_. set_.
    erewrite redirect_dependants_run by lk.
    rewrite !set_words_twice, !word_nodes_set_words.
    rewrite !list_insert_insert_eq. reflexivity. }
  split; [|split; [|split]].
  - now rewrite redirected_length, !length_insert.
  - rewrite list_lookup_imap, list_lookup_insert_ne by done.
    rewrite list_lookup_insert_eq by done. cbn [fmap option_fmap option_map].
    unfold redirected. rewrite (bool_decide_eq_true_2 (Some w = Some w)) by done.
    now rewrite orb_true_r.
  - rewrite list_lookup_imap, list_lookup_insert_eq by now rewrite length_insert.
    cbn [fmap option_fmap option_map].
    unfold redirected. now rewrite (bool_decide_eq_true_2 (Some g = Some g)).
  - intros i x Hiw Hig Hx.
    rewrite list_lookup_imap, !list_lookup_insert_ne, Hx by done.
    cbn [fmap option_fmap option_map]. unfold redirected.
    rewrite !bool_decide_eq_false_2 by congruence. reflexivity.
Qed.

(** ** The store after [make_copula], slot by slot *)

Lemma copula_length h b hw bw (ws : list WordNode) :
  length (copula h b hw bw ws) = length ws.
Proof. unfold copula. now rewrite redirected_length, !length_insert. Qed.

Lemma copula_head_lookup h b hw bw (ws : list WordNode) :
  h ≠ b → h < length ws → copula h b hw bw ws !! h = Some (takes_over hw bw).
Proof.
  intros Hne Hh. unfold copula.
  rewrite list_lookup_imap, list_lookup_insert_ne by done.
  rewrite list_lookup_insert_eq by done. cbn [fmap option_fmap option_map].
  unfold redirected. rewrite (bool_decide_eq_true_2 (Some h = Some h)) by done.
  now rewrite orb_true_r.
Qed.

Lemma copula_be_lookup h b hw bw (ws : list WordNode) :
  b < length ws → copula h b hw bw ws !! b = Some (copula_be h hw bw).
Proof.
  intros Hb. unfold copula.
  rewrite list_lookup_imap, list_lookup_insert_eq by now rewrite length_insert.
  cbn [fmap option_fmap option_map].
  unfold redirected. now rewrite (bool_decide_eq_true_2 (Some b = Some b)).
Qed.

Lemma copula_other_lookup h b hw bw (ws : list WordNode) i x :
  i ≠ h → i ≠ b → ws !! i = Some x →
  copula h b hw bw ws !! i
  = Some (if governed_by b x && string_in (dependency_relation x) redirectable
          then regoverned h (index hw) x
          else x).
Proof.
  intros Hih Hib Hx. unfold copula.
  rewrite list_lookup_imap, !list_lookup_insert_ne, Hx by done.
  cbn [fmap option_fmap option_map]. unfold redirected.
  rewrite !bool_decide_eq_false_2 by congruence. reflexivity.
Qed.

(** The guard, spelled out. *)
Lemma existential_true ws b :
  existential ws b = true ↔
  ∃ e ew, ws !! e = Some ew
          ∧ governor_word ew = Some b ∧ dependency_relation ew = "expl"
          ∧ lemma ew = "there"
          ∧ ∀ j x, j < e → ws !! j = Some x →
                   ¬ (governor_word x = Some b ∧ dependency_relation x = "expl").
Proof.
  unfold existential. split.
  - destruct (first_index _ _) as [e|] eqn:Fe; [|done].
    destruct (first_index_Some _ _ _ Fe) as (ew & He & Hg & Hmin).
    rewrite He. intros Hl%String.eqb_eq.
    apply governed_true in Hg as [Hg Hd].
    exists e, ew. repeat split; auto.
    intros j x Hj Hx [Hgx Hdx]. specialize (Hmin j x Hj Hx).
    unfold governed, governed_by in Hmin.
    rewrite bool_decide_eq_true_2, Hdx in Hmin by done. discriminate.
  - intros (e & ew & He & Hg & Hd & Hl & Hmin).
    assert (Hge : governed b "expl" ew = true).
    { unfold governed, governed_by.
      now rewrite bool_decide_eq_true_2, Hd by done. }
    destruct (first_index _ _) as [e'|] eqn:Fe.
    + destruct (first_index_Some _ _ _ Fe) as (ew' & He' & Hg' & Hmin').
      destruct (Nat.lt_trichotomy e e') as [Hlt|[->|Hlt]].
      * rewrite (Hmin' e ew Hlt He) in Hge. discriminate.
      * rewrite He. now apply String.eqb_eq.
      * apply governed_true in Hg'. now destruct (Hmin e' ew' Hlt He').
    + rewrite (first_index_None _ _ Fe e ew He) in Hge. discriminate.
Qed.

(** C3 (amended). [make_copula] on a head candidate and a "be" node: when
    the first [expl] dependent of "be" has lemma "there" it changes nothing
    and returns False; otherwise the head takes over the governor position,
    governor word and relation of "be", "be" becomes the head's dependent
    with relation cop and POS AUX, every redirectable dependent of "be" is
    re-governed by the head, nothing else changes, and it returns True. *)
Theorem make_copula_spec σ h b hw bw :
  word_nodes σ !! h = Some hw →
  word_nodes σ !! b = Some bw →
  h ≠ b →
  (existential (word_nodes σ) b = true →
   make_copula (Some h) (Some b) σ = (Return false, σ))
  ∧ (existential (word_nodes σ) b = false →
     ∃ ws',
       make_copula (Some h) (Some b) σ = (Return true, set_words ws' σ)
       ∧ length ws' = length (word_nodes σ)
       ∧ ws' !! h = Some (takes_over hw bw)
       ∧ ws' !! b = Some (copula_be h hw bw)
       ∧ ∀ i x,
           i ≠ h → i ≠ b → word_nodes σ !! i = Some x →
           ws' !! i
           = Some (if governed_by b x
                      && string_in (dependency_relation x) redirectable
                   then regoverned h (index hw) x
                   else x)).
Proof.
  intros Hh Hb Hne. rewrite (make_copula_run h b hw bw) by done.
  split; intros ->; [done|].
  eexists. split; [reflexivity|].
  split; [apply copula_length|].
  split; [apply copula_head_lookup; [done|eapply lookup_lt_Some; eauto]|].
  split; [apply copula_be_lookup; eapply lookup_lt_Some; eauto|].
  intros i x ? ? ?. now apply copula_other_lookup.
Qed.




(** ** The reverse cleanup pass *)

Lemma cleanup_word_length ws i : length (cleanup_word ws i) = length ws.
Proof.
  unfold cleanup_word. repeat case_match; auto using copula_length.
Qed.

Lemma fix_advmod_cop_word_run σ i :
  advmod_ok (word_nodes σ) → i < length (word_nodes σ) →
  fix_advmod_cop_word (Some i) σ
  = (Return tt, set_words (cleanup_word (word_nodes σ) i) σ).
Proof.
  intros Hok Hi. destruct (lookup_lt_is_Some_2 _ _ Hi) as [w Hw].
  unfold fix_advmod_cop_word, cleanup_word. get. rewrite Hw.
  destruct (String.eqb_spec (dependency_relation w) "advmod") as [Hd|Hd];
    [|now rewrite set_words_id].
  destruct (Hok _ _ Hw Hd) as (Hlw & g & Hg & Hlt).
  destruct (lookup_lt_is_Some_2 _ _ Hlt) as [gw Hgw].
  get. rewrite Hg, Hgw. get.
  destruct (String.eqb_spec (lemma gw) "be") as [Hl|Hl]; cbn [andb];
    [|now rewrite bind_ret, set_words_id].
  get. rewrite bind_ret. cbn [andb].
  destruct (String.eqb (dependency_relation gw) "cop"); cbn [negb andb];
    [now rewrite set_words_id|].
  assert (i ≠ g) by (intros ->; rewrite Hw in Hgw; simplify_eq; congruence).
  unfold bind at 1. rewrite (make_copula_run i g w gw) by done.
  destruct (existential _ _); cbn [negb]; [|done].
  unfold ret. now rewrite set_words_id.
Qed.

Lemma copula_fields h b hw bw (ws : list WordNode) j x' :
  h ≠ b → ws !! h = Some hw → ws !! b = Some bw →
  copula h b hw bw ws !! j = Some x' →
  ∃ x, ws !! j = Some x ∧ lemma x' = lemma x ∧ index x' = index x.
Proof.
  intros Hne Hh Hb Hj.
  destruct (decide (j = h)) as [->|Hjh].
  { rewrite copula_head_lookup in Hj by (done || eapply lookup_lt_Some; eauto).
    simplify_eq. eauto. }
  destruct (decide (j = b)) as [->|Hjb].
  { rewrite copula_be_lookup in Hj by (eapply lookup_lt_Some; eauto).
    simplify_eq. eauto. }
  assert (∃ x, ws !! j = Some x) as [x Hx].
  { apply lookup_lt_is_Some_2. apply lookup_lt_Some in Hj.
    now rewrite copula_length in Hj. }
  rewrite (copula_other_lookup _ _ _ _ _ _ x) in Hj by done.
  exists x. split; [done|]. simplify_eq. now case_match.
Qed.

Lemma redirectable_not_expl d :
  string_in d redirectable = true → d ≠ "expl".
Proof. now intros H ->. Qed.

Section Copula_preserves.
Context (ws : list WordNode) (i g : nat) (w gw : WordNode).
Context (Hne : i ≠ g) (Hw : ws !! i = Some w) (Hgw : ws !! g = Some gw).
Context (Hdw : dependency_relation w = "advmod").
Context (Hlg : lemma gw = "be").
Context (Hok : advmod_ok ws).

Lemma copula_advmod_ok : advmod_ok (copula i g w gw ws).
Proof.
  intros j x' Hj Hd. rewrite copula_length.
  destruct (decide (j = i)) as [->|Hji].
  { rewrite copula_head_lookup in Hj by (done || eapply lookup_lt_Some; eauto).
    simplify_eq. cbn in Hd. now destruct (Hok _ _ Hgw Hd). }
  destruct (decide (j = g)) as [->|Hjg].
  { rewrite copula_be_lookup in Hj by (eapply lookup_lt_Some; eauto).
    simplify_eq. }
  assert (∃ x, ws !! j = Some x) as [x Hx].
  { apply lookup_lt_is_Some_2. apply lookup_lt_Some in Hj.
    now rewrite copula_length in Hj. }
  rewrite (copula_other_lookup _ _ _ _ _ _ x) in Hj by done. simplify_eq.
  case_match; cbn in *.
  - destruct (Hok _ _ Hx Hd) as [? _]. split; [done|].
    exists i. split; [done|]. eapply lookup_lt_Some; eauto.
  - now apply (Hok j).
Qed.

Lemma copula_be_not_expl : be_not_expl ws → be_not_expl (copula i g w gw ws).
Proof.
  intros Hbe j x' Hj Hl.
  destruct (decide (j = i)) as [->|Hji].
  { rewrite copula_head_lookup in Hj by (done || eapply lookup_lt_Some; eauto).
    simplify_eq. cbn in *. now apply (Hbe g). }
  destruct (decide (j = g)) as [->|Hjg].
  { rewrite copula_be_lookup in Hj by (eapply lookup_lt_Some; eauto).
    simplify_eq. cbn. discriminate. }
  assert (∃ x, ws !! j = Some x) as [x Hx].
  { apply lookup_lt_is_Some_2. apply lookup_lt_Some in Hj.
    now rewrite copula_length in Hj. }
  rewrite (copula_other_lookup _ _ _ _ _ _ x) in Hj by done. simplify_eq.
  case_match; cbn in *; now apply (Hbe j).
Qed.

(** The guard on another "be" node is not affected. *)
Lemma copula_existential b :
  be_not_expl ws → b ≠ g →
  existential (copula i g w gw ws) b = existential ws b.
Proof.
  intros Hbe Hb. unfold existential.
  assert (Hq : ∀ j x x', ws !! j = Some x →
            copula i g w gw ws !! j = Some x' →
            governed b "expl" x = governed b "expl" x'
            ∧ (governed b "expl" x = true → x' = x)).
  { intros j x x' Hx Hx'.
    destruct (decide (j = i)) as [->|Hji].
    { rewrite copula_head_lookup in Hx' by (done || eapply lookup_lt_Some; eauto).
      simplify_eq. unfold governed. cbn. rewrite Hdw.
      destruct (String.eqb_spec (dependency_relation gw) "expl") as [He|He];
        [now destruct (Hbe _ _ Hgw Hlg)|].
      rewrite !andb_false_r. split; [done|discriminate]. }
    destruct (decide (j = g)) as [->|Hjg].
    { rewrite copula_be_lookup in Hx' by (eapply lookup_lt_Some; eauto).
      simplify_eq. unfold governed. cbn.
      destruct (String.eqb_spec (dependency_relation gw) "expl") as [He|He];
        [now destruct (Hbe _ _ Hgw Hlg)|].
      rewrite !andb_false_r. split; [done|discriminate]. }
    rewrite (copula_other_lookup _ _ _ _ _ _ x) in Hx' by done. simplify_eq.
    destruct (governed_by g x && _) eqn:E; [|done].
    apply andb_prop in E as [_ E%redirectable_not_expl].
    unfold governed. cbn.
    destruct (String.eqb_spec (dependency_relation x) "expl"); [done|].
    rewrite !andb_false_r. split; [done|discriminate]. }
  unfold first_index.
  rewrite <- (find_from_ext (governed b "expl") ws (copula i g w gw ws));
    [|now rewrite copula_length|intros j x x' Hx Hx'; now apply (Hq j)].
  destruct (find_from _ _ _) as [e|] eqn:Fe; [|done].
  destruct (first_index_Some _ _ _ Fe) as (ew & He & Hge & _).
  rewrite He.
  assert (∃ ew', copula i g w gw ws !! e = Some ew') as [ew' He'].
  { apply lookup_lt_is_Some_2. rewrite copula_length.
    eapply lookup_lt_Some; eauto. }
  rewrite He'. destruct (Hq _ _ _ He He') as [_ ->]; done.
Qed.

End Copula_preserves.

Lemma cleanup_word_cases ws i :
  cleanup_word ws i = ws
  ∨ ∃ w g gw,
      ws !! i = Some w ∧ dependency_relation w = "advmod"
      ∧ governor_word w = Some g ∧ ws !! g = Some gw
      ∧ lemma gw = "be" ∧ dependency_relation gw ≠ "cop"
      ∧ existential ws g = false
      ∧ cleanup_word ws i = copula i g w gw ws.
Proof.
  unfold cleanup_word.
  destruct (ws !! i) as [w|] eqn:Hw; [|now left].
  destruct (String.eqb_spec (dependency_relation w) "advmod"); [|now left].
  destruct (governor_word w) as [g|] eqn:Hg; [|now left].
  destruct (ws !! g) as [gw|] eqn:Hgw; [|now left].
  destruct (String.eqb_spec (lemma gw) "be"); [|now left].
  destruct (String.eqb_spec (dependency_relation gw) "cop"); [now left|].
  destruct (existential ws g) eqn:Hex; [now left|].
  right. exists w, g, gw. cbn. repeat split; auto.
Qed.

Lemma cleanup_word_advmod_ok ws i : advmod_ok ws → advmod_ok (cleanup_word ws i).
Proof.
  intros Hok.
  destruct (cleanup_word_cases ws i)
    as [->|(w & g & gw & Hw & Hd & Hg & Hgw & Hl & Hc & Hex & ->)]; [done|].
  apply copula_advmod_ok; auto.
  intros ->. rewrite Hw in Hgw. simplify_eq. now destruct (Hok _ _ Hw Hd).
Qed.

Lemma fix_advmod_cop_loop (ks : list nat) : ∀ σ,
  advmod_ok (word_nodes σ) →
  Forall (λ i, i < length (word_nodes σ)) ks →
  for_each (Some <$> ks) fix_advmod_cop_word σ
  = (Return tt, set_words (foldl cleanup_word (word_nodes σ) ks) σ).
Proof.
  induction ks as [|i ks IH]; intros σ Hok Hlt; cbn [fmap list_fmap for_each foldl].
  - unfold ret. now rewrite set_words_id.
  - apply Forall_cons in Hlt as [Hi Hlt].
    erewrite bind_Return by now apply fix_advmod_cop_word_run.
    rewrite IH.
    + now rewrite set_words_twice, word_nodes_set_words.
    + rewrite word_nodes_set_words. now apply cleanup_word_advmod_ok.
    + rewrite word_nodes_set_words, cleanup_word_length. exact Hlt.
Qed.

Lemma foldl_cleanup_invariant (I : list WordNode → Prop) (ks : list nat) :
  (∀ ws i, I ws → i ∈ ks → I (cleanup_word ws i)) →
  ∀ ws, I ws → I (foldl cleanup_word ws ks).
Proof.
  induction ks as [|i ks IH]; intros Hstep ws Hws; cbn [foldl]; [done|].
  apply IH.
  - intros ws' j Hws' Hj. apply Hstep; [done|now right].
  - apply Hstep; [done|left].
Qed.

Section Rightmost.
Context (b r : nat) (ri : Z).

Lemma before_rightmost_step ws i :
  before_rightmost b r ri ws → r < i → before_rightmost b r ri (cleanup_word ws i).
Proof.
  intros Hinv Hi.
  pose proof Hinv as (Hok & Hbe & (bw & Hb & Hlb & Hdb) & Hex
                      & (rw & Hr & Hdr & Hgr & Hir) & Hright).
  destruct (cleanup_word_cases ws i)
    as [->|(w & g & gw & Hw & Hd & Hg & Hgw & Hl & Hc & Hexg & ->)]; [done|].
  destruct (Hok _ _ Hw Hd) as [Hlw _].
  destruct (Hok _ _ Hr Hdr) as [Hlr _].
  assert (i ≠ g) by (intros ->; rewrite Hw in Hgw; simplify_eq; congruence).
  assert (g ≠ b) by (intros ->; now apply (Hright i w)).
  assert (b ≠ i) by (intros ->; rewrite Hw in Hb; simplify_eq; congruence).
  assert (r ≠ g) by (intros ->; rewrite Hr in Hgw; simplify_eq; congruence).
  split; [now apply copula_advmod_ok|].
  split; [now apply copula_be_not_expl|].
  split.
  { rewrite (copula_other_lookup _ _ _ _ _ _ bw) by done.
    eexists. split; [done|]. now case_match. }
  split; [now rewrite copula_existential|].
  split.
  { rewrite (copula_other_lookup _ _ _ _ _ _ rw) by (done || lia).
    unfold governed_by. rewrite Hgr.
    rewrite bool_decide_eq_false_2 by congruence. cbn [andb]. eauto. }
  intros j x' Hj Hx' [Hdx Hgx].
  destruct (decide (j = i)) as [->|Hji].
  { rewrite copula_head_lookup in Hx' by (done || eapply lookup_lt_Some; eauto).
    simplify_eq. cbn in Hdx. now destruct (Hok _ _ Hgw Hdx). }
  destruct (decide (j = g)) as [->|Hjg].
  { rewrite copula_be_lookup in Hx' by (eapply lookup_lt_Some; eauto).
    simplify_eq. }
  assert (∃ x, ws !! j = Some x) as [x Hx].
  { apply lookup_lt_is_Some_2. apply lookup_lt_Some in Hx'.
    now rewrite copula_length in Hx'. }
  rewrite (copula_other_lookup _ _ _ _ _ _ x) in Hx' by done. simplify_eq.
  case_match; cbn in *; [congruence|]. now apply (Hright j x).
Qed.

Lemma rightmost_step ws :
  before_rightmost b r ri ws → after_rightmost b r ri (cleanup_word ws r).
Proof.
  intros (Hok & Hbe & (bw & Hb & Hlb & Hdb) & Hex
          & (rw & Hr & Hdr & Hgr & Hir) & Hright).
  destruct (Hok _ _ Hr Hdr) as [Hlr _].
  assert (r ≠ b) by (intros ->; rewrite Hr in Hb; simplify_eq; congruence).
  assert (Hcw : cleanup_word ws r = copula r b rw bw ws).
  { unfold cleanup_word. rewrite Hr, Hdr, Hgr, Hb, Hlb, Hex.
    now destruct (String.eqb_spec (dependency_relation bw) "cop"). }
  split; [now apply cleanup_word_advmod_ok|]. rewrite Hcw. split.
  - rewrite copula_be_lookup by (eapply lookup_lt_Some; eauto).
    eexists. split; [done|]. cbn. repeat split; auto.
  - rewrite copula_head_lookup by (done || eapply lookup_lt_Some; eauto).
    eexists. split; [done|]. done.
Qed.

Lemma after_rightmost_step ws i :
  after_rightmost b r ri ws → after_rightmost b r ri (cleanup_word ws i).
Proof.
  intros Hinv.
  pose proof Hinv
    as (Hok & (bw & Hb & Hlb & Hdb & Hpb & Hgb & Hib) & (rw & Hr & Hlr)).
  destruct (cleanup_word_cases ws i)
    as [->|(w & g & gw & Hw & Hd & Hg & Hgw & Hl & Hc & Hexg & Hcw)]; [done|].
  split; [now apply cleanup_word_advmod_ok|]. rewrite Hcw.
  destruct (Hok _ _ Hw Hd) as [Hlw _].
  assert (i ≠ g) by (intros ->; rewrite Hw in Hgw; simplify_eq; congruence).
  assert (g ≠ b) by (intros ->; rewrite Hb in Hgw; simplify_eq; congruence).
  assert (b ≠ i) by (intros ->; rewrite Hw in Hb; simplify_eq; congruence).
  assert (r ≠ g) by (intros ->; rewrite Hr in Hgw; simplify_eq; congruence).
  split.
  - rewrite (copula_other_lookup _ _ _ _ _ _ bw) by done.
    unfold governed_by. rewrite Hgb.
    rewrite bool_decide_eq_false_2 by congruence. cbn [andb]. eauto 10.
  - assert (∃ rw', copula i g w gw ws !! r = Some rw') as [rw' Hr'].
    { apply lookup_lt_is_Some_2. rewrite copula_length.
      eapply lookup_lt_Some; eauto. }
    destruct (copula_fields _ _ _ _ _ _ _ H Hw Hgw Hr') as (x & Hx & Hlx & _).
    rewrite Hr in Hx. simplify_eq. exists rw'. split; [done|congruence].
Qed.

End Rightmost.

Lemma seq_split_at r n :
  r < n → seq 0 n = (seq 0 r ++ r :: seq (S r) (n - S r))%list.
Proof.
  intros Hr. replace n with (r + S (n - S r)) at 1 by lia.
  now rewrite seq_app.
Qed.

(** C8 (amended). The cleanup visits the words from the last position to
    the first; at a word still labelled advmod whose governor has lemma "be"
    and is not labelled cop it applies make-copula, which leaves the
    sentence as it is when that governor is existential.  Consequently, in
    a sentence where every advmod word has a governor and is not a form of
    "be" and no form of "be" is labelled expl, the rightmost advmod
    dependent of a "be" node that is neither labelled cop nor existential
    ends up as the head of that node: the node is labelled cop, tagged AUX
    and governed by it. *)
Theorem fix_advmod_cop_rightmost_head σ b r bw rw :
  advmod_ok (word_nodes σ) →
  be_not_expl (word_nodes σ) →
  word_nodes σ !! b = Some bw →
  lemma bw = "be" →
  dependency_relation bw ≠ "cop" →
  existential (word_nodes σ) b = false →
  word_nodes σ !! r = Some rw →
  dependency_relation rw = "advmod" →
  governor_word rw = Some b →
  (∀ j w, r < j → word_nodes σ !! j = Some w →
     ¬ (dependency_relation w = "advmod" ∧ governor_word w = Some b)) →
  fix_advmod_cop σ
  = for_each (Some <$> reverse (seq 0 (length (word_nodes σ))))
             fix_advmod_cop_word σ
  ∧ (∀ σ' i,
       advmod_ok (word_nodes σ') → i < length (word_nodes σ') →
       fix_advmod_cop_word (Some i) σ'
       = (Return tt, set_words (cleanup_word (word_nodes σ') i) σ'))
  ∧ ∃ ws' bw',
      fix_advmod_cop σ = (Return tt, set_words ws' σ)
      ∧ ws' !! b = Some bw'
      ∧ dependency_relation bw' = "cop"
      ∧ upos bw' = "AUX"
      ∧ governor_word bw' = Some r
      ∧ governor bw' = index rw.
Proof.
  intros Hok Hbe Hb Hlb Hdb Hex Hr Hdr Hgr Hright.
  assert (Hloop : fix_advmod_cop σ
    = for_each (Some <$> reverse (seq 0 (length (word_nodes σ))))
               fix_advmod_cop_word σ).
  { unfold fix_advmod_cop. erewrite bind_Return by reflexivity.
    now rewrite fmap_reverse. }
  split; [exact Hloop|].
  split; [intros; now apply fix_advmod_cop_word_run|].
  rewrite Hloop, fix_advmod_cop_loop; [|done|]; cycle 1.
  { apply Forall_forall. intros i Hi%elem_of_reverse%elem_of_seq. lia. }
  assert (Hrn := lookup_lt_Some _ _ _ Hr).
  rewrite (seq_split_at r (length (word_nodes σ))) by done.
  rewrite reverse_app, reverse_cons, <- app_assoc, !foldl_app.
  cbn [foldl].
  set (ws1 := foldl cleanup_word (word_nodes σ) (reverse (seq (S r) _))).
  assert (H1 : before_rightmost b r (index rw) ws1).
  { apply foldl_cleanup_invariant.
    - intros ws i Hws Hi%elem_of_reverse%elem_of_seq.
      apply before_rightmost_step; [done|lia].
    - split; [done|]. split; [done|]. split; [eauto|]. split; [done|].
      split; [eauto 10|done]. }
  apply rightmost_step in H1.
  assert (H3 : after_rightmost b r (index rw)
                 (foldl cleanup_word (cleanup_word ws1 r) (reverse (seq 0 r)))).
  { apply foldl_cleanup_invariant; [|done].
    intros ws i Hws _. now apply after_rightmost_step. }
  destruct H3 as (_ & (bw' & Hb' & _ & Hd' & Hp' & Hg' & Hi') & _).
  eexists _, bw'. split; [reflexivity|]. auto.
Qed.

(** ** Entity alignment *)

Lemma positions_from_spec q ws : ∀ k i,
  i ∈ positions_from q k ws ↔
  ∃ w, k ≤ i ∧ ws !! (i - k) = Some w ∧ q w = true.
Proof.
  induction ws as [|w ws IH]; intros k i; cbn [positions_from].
  - split; [intros []%elem_of_nil|intros (? & _ & ? & _); done].
  - assert (Hrest : i ∈ positions_from q (S k) ws ↔
              ∃ w', S k ≤ i ∧ (w :: ws) !! (i - k) = Some w' ∧ q w' = true).
    { rewrite IH. split; intros (w' & Hk & Hl & Hq); exists w';
        (split; [done|]); (split; [|done]).
      - now replace (i - k) with (S (i - S k)) by lia.
      - now replace (i - k) with (S (i - S k)) in Hl by lia. }
    destruct (q w) eqn:Q.
    + rewrite elem_of_cons, Hrest. split.
      * intros [->|(w' & Hk & Hl & Hq)].
        -- exists w. rewrite Nat.sub_diag. auto.
        -- exists w'. split; [lia|done].
      * intros (w' & Hk & Hl & Hq).
        destruct (decide (i = k)) as [->|]; [now left|].
        right. exists w'. split; [lia|done].
    + rewrite Hrest. split.
      * intros (w' & Hk & Hl & Hq). exists w'. split; [lia|done].
      * intros (w' & Hk & Hl & Hq). exists w'. split; [|done].
        destruct (decide (i = k)) as [->|]; [|lia].
        rewrite Nat.sub_diag in Hl. cbn in Hl. congruence.
Qed.

Lemma positions_from_sorted q ws : ∀ k,
  StronglySorted lt (positions_from q k ws).
Proof.
  induction ws as [|w ws IH]; intros k; cbn [positions_from]; [constructor|].
  destruct (q w); [|apply IH].
  constructor; [apply IH|].
  apply Forall_forall. intros i (w' & Hk & _)%positions_from_spec. lia.
Qed.

Lemma StronglySorted_lt_NoDup (l : list nat) : StronglySorted lt l → NoDup l.
Proof.
  induction 1 as [|x l Hs IH Hx]; constructor; [|done].
  intros Hin. rewrite Forall_forall in Hx. specialize (Hx _ Hin). lia.
Qed.

Lemma collect_seq (q : WordNode → bool) (p : option nat → M World bool) σ :
  (∀ i w, word_nodes σ !! i = Some w → p (Some i) σ = (Return (q w), σ)) →
  ∀ ws k,
    (∀ j w, ws !! j = Some w → word_nodes σ !! (k + j) = Some w) →
    collect (Some <$> seq k (length ws)) p σ
    = (Return (Some <$> positions_from q k ws), σ).
Proof.
  intros Hp. induction ws as [|w ws IH]; intros k Hws; [done|].
  cbn [length seq fmap list_fmap collect positions_from].
  erewrite bind_Return; cycle 1.
  { apply Hp. specialize (Hws 0 w eq_refl). rewrite Nat.add_0_r in Hws.
    exact Hws. }
  erewrite bind_Return; cycle 1.
  { apply IH. intros j w' Hj. specialize (Hws (S j) w' Hj).
    now replace (S k + j) with (k + S j) by lia. }
  unfold ret. now destruct (q w).
Qed.

Lemma find_span_words_run e σ :
  find_span_words e σ = (Return (Some <$> span_words e (word_nodes σ)), σ).
Proof.
  unfold find_span_words. erewrite bind_Return by reflexivity.
  apply (collect_seq (within_span e)); [|done].
  intros i w Hw. now rewrite (bind_getattr _ _ _ _ _ Hw).
Qed.

Lemma obj_in_Some (g : nat) (sws : list nat) :
  obj_in (Some g) (Some <$> sws) = bool_decide (g ∈ sws).
Proof.
  unfold obj_in. induction sws as [|s sws IH]; cbn [fmap list_fmap existsb].
  - now rewrite bool_decide_eq_false_2 by apply not_elem_of_nil.
  - rewrite IH.
    destruct (bool_decide_reflect (Some g = Some s)) as [E|E]; cbn [orb].
    + simplify_eq. rewrite bool_decide_eq_true_2; [done|left].
    + apply bool_decide_ext. rewrite elem_of_cons. split; [auto|].
      intros [->|]; done.
Qed.

Lemma mark_phrase_head_run e (sws : list nat) σ : ∀ todo,
  Forall (λ i, i < length (word_nodes σ)) todo →
  mark_phrase_head e (Some <$> sws) (Some <$> todo) σ
  = match find (attaches_outside (word_nodes σ) sws) todo with
    | Some h =>
        (Return (Some h),
         set_words (alter (with_ner (Some (entity_ner e sws))) h (word_nodes σ)) σ)
    | None => (Return None, σ)
    end.
Proof.
  induction todo as [|i todo IH]; intros Hlt; [done|].
  apply Forall_cons in Hlt as [Hi Hlt].
  destruct (lookup_lt_is_Some_2 _ _ Hi) as [w Hw].
  cbn [fmap list_fmap mark_phrase_head find].
  rewrite (bind_getattr _ _ _ _ _ Hw).
  unfold attaches_outside at 1. rewrite Hw.
  destruct (bool_decide (governor_word w = None)
            || negb (obj_in (governor_word w) (Some <$> sws))).
  - rewrite (bind_setattr _ _ _ _ _ _ Hw). unfold ret.
    do 2 f_equal. now apply insert_alter.
  - now apply IH.
Qed.

Lemma find_first {A} (q : A → bool) (l : list A) h :
  find q l = Some h →
  ∃ l1 l2, l = (l1 ++ h :: l2)%list ∧ q h = true ∧ Forall (λ x, q x = false) l1.
Proof.
  induction l as [|x l IH]; cbn [find]; [done|].
  destruct (q x) eqn:Q.
  - intros [= ->]. now exists [], l.
  - intros (l1 & l2 & -> & Hq & Hall)%IH.
    exists (x :: l1), l2. repeat split; auto.
Qed.

Lemma find_none_all {A} (q : A → bool) (l : list A) :
  find q l = None → Forall (λ x, q x = false) l.
Proof.
  induction l as [|x l IH]; cbn [find]; [constructor|].
  destruct (q x) eqn:Q; [done|]. constructor; auto.
Qed.

Lemma StronglySorted_suffix (l1 l2 : list nat) :
  StronglySorted lt (l1 ++ l2)%list → StronglySorted lt l2.
Proof.
  induction l1 as [|x l1 IH]; [done|]. intros Hs. apply IH.
  now inversion Hs.
Qed.

(** In a list sorted by position the first match is the leftmost one. *)
Lemma find_sorted_least (q : nat → bool) (l : list nat) h :
  StronglySorted lt l → find q l = Some h →
  h ∈ l ∧ q h = true ∧ ∀ j, j ∈ l → j < h → q j = false.
Proof.
  intros Hs (l1 & l2 & -> & Hq & Hall)%find_first.
  split; [apply elem_of_app; right; left|]. split; [done|].
  intros j Hj Hlt. apply elem_of_app in Hj as [Hj|Hj].
  - rewrite Forall_forall in Hall. auto.
  - apply StronglySorted_suffix in Hs. inversion Hs as [|? ? _ Hgt]; subst.
    apply elem_of_cons in Hj as [->|Hj]; [lia|].
    rewrite Forall_forall in Hgt. specialize (Hgt _ Hj). lia.
Qed.

Lemma span_words_lt e ws i : i ∈ span_words e ws → i < length ws.
Proof.
  intros (w & _ & Hw & _)%positions_from_spec.
  rewrite Nat.sub_0_r in Hw. eapply lookup_lt_Some; eauto.
Qed.

Lemma add_entity_run e σ :
  add_entity e σ = (Return tt, set_words (entity_result e (word_nodes σ)) σ).
Proof.
  unfold add_entity, entity_result.
  erewrite bind_Return by apply find_span_words_run.
  set (sws := span_words e (word_nodes σ)).
  assert (Hlt : Forall (λ i, i < length (word_nodes σ)) sws).
  { apply Forall_forall. intros i. apply (span_words_lt e). }
  unfold bind at 1. rewrite (mark_phrase_head_run e sws σ sws Hlt).
  fold (phrase_head (word_nodes σ) sws).
  set (head := phrase_head (word_nodes σ) sws).
  assert (Hloop : ∀ σ', length (word_nodes σ') = length (word_nodes σ) →
    for_each (Some <$> sws)
      (λ word_node,
         if bool_decide (word_node ≠ head)
         then setattr word_node with_ner_head_word head
         else ret tt) σ'
    = (Return tt,
       set_words
         (imap (λ i w, if bool_decide (i ∈ sws) then back_reference head i w else w)
               (word_nodes σ')) σ')).
  { intros σ' Hlen.
    apply (for_each_update (back_reference head) (λ _, True)); auto.
    - apply StronglySorted_lt_NoDup, positions_from_sorted.
    - intros σ'' i w _ _ Hw. unfold back_reference.
      destruct (bool_decide (Some i ≠ head)).
      + now apply setattr_Some.
      + now apply ret_unchanged.
    - intros i Hi. rewrite Hlen. now apply (span_words_lt e). }
  destruct head as [h|].
  - rewrite Hloop by (rewrite word_nodes_set_words; apply length_alter).
    now rewrite set_words_twice, word_nodes_set_words.
  - now rewrite Hloop.
Qed.

(** C9. For every named-entity span: the span words are exactly the words
    of the sentence whose character span lies within the entity's span, in
    sentence order; the annotation (text, member list, character span,
    type) is attached to the first span word that has no governor or whose
    governor is not a span word; every other span word gets a
    back-reference to that head; when no span word qualifies, no annotation
    is attached, nothing is printed and nothing is raised.  With no entity
    [add_entities] returns at once and changes nothing; with the entities
    [e :: es] it does to the sentence what is said here for [e], then goes
    on with [es]; so for the one entity [e] the sentence described here is
    the final one. *)
Theorem add_entities_aligns_entity e es σ :
  let ws := word_nodes σ in
  let sws := span_words e ws in
  let head := phrase_head ws sws in
  find_span_words e σ = (Return (Some <$> sws), σ)
  ∧ (∀ i, i ∈ sws ↔
          ∃ w, ws !! i = Some w
               ∧ (start_char e ≤ fst (span w))%Z ∧ (snd (span w) ≤ end_char e)%Z)
  ∧ StronglySorted lt sws
  ∧ match head with
    | Some h =>
        h ∈ sws ∧ attaches_outside ws sws h = true
        ∧ ∀ j, j ∈ sws → j < h → attaches_outside ws sws j = false
    | None => ∀ j, j ∈ sws → attaches_outside ws sws j = false
    end
  ∧ add_entities [] σ = (Return tt, σ)
  ∧ ∃ ws',
      add_entities (e :: es) σ = add_entities es (set_words ws' σ)
      ∧ add_entities [e] σ = (Return tt, set_words ws' σ)
      ∧ length ws' = length ws
      ∧ ∀ i w, ws !! i = Some w →
          ws' !! i
          = Some (if bool_decide (head = Some i)
                  then with_ner (Some (entity_ner e sws)) w
                  else if bool_decide (i ∈ sws)
                       then with_ner_head_word head w
                       else w).
Proof.
  intros ws sws head.
  assert (Hsorted : StronglySorted lt sws) by apply positions_from_sorted.
  assert (Hhead :
    match head with
    | Some h =>
        h ∈ sws ∧ attaches_outside ws sws h = true
        ∧ ∀ j, j ∈ sws → j < h → attaches_outside ws sws j = false
    | None => ∀ j, j ∈ sws → attaches_outside ws sws j = false
    end).
  { unfold head, phrase_head.
    destruct (find _ sws) as [h|] eqn:Fh.
    - now apply find_sorted_least.
    - intros j Hj. apply find_none_all in Fh. rewrite Forall_forall in Fh. auto. }
  split; [apply find_span_words_run|].
  split.
  { intros i. unfold sws, span_words. rewrite positions_from_spec.
    split; intros (w & Hw); exists w.
    - destruct Hw as (_ & Hw & [H1 H2]%andb_prop). rewrite Nat.sub_0_r in Hw.
      split; [done|]. split; lia.
    - destruct Hw as (Hw & H1 & H2). split; [lia|]. rewrite Nat.sub_0_r.
      split; [done|]. unfold within_span. apply andb_true_intro. split; lia. }
  split; [done|]. split; [done|]. split; [reflexivity|].
  exists (entity_result e ws). split.
  { unfold add_entities. cbn [for_each].
    erewrite bind_Return by apply add_entity_run. done. }
  split.
  { unfold add_entities. cbn [for_each].
    erewrite bind_Return by apply add_entity_run. done. }
  split.
  { unfold entity_result. rewrite length_imap.
    destruct (phrase_head _ _); [apply length_alter|done]. }
  intros i w Hw. unfold entity_result. fold ws sws head.
  rewrite list_lookup_imap. unfold back_reference.
  destruct head as [h|].
  - destruct Hhead as (Hh & _).
    rewrite list_lookup_alter. case_decide as Hhi.
    + subst h. rewrite Hw. cbn [fmap option_fmap option_map].
      rewrite (bool_decide_eq_true_2 (i ∈ sws)) by done.
      rewrite (bool_decide_eq_false_2 (Some i ≠ Some i)) by auto.
      now rewrite (bool_decide_eq_true_2 (Some i = Some i)).
    + rewrite Hw. cbn [fmap option_fmap option_map].
      rewrite (bool_decide_eq_false_2 (Some h = Some i)) by congruence.
      rewrite (bool_decide_eq_true_2 (Some i ≠ Some h)) by congruence.
      done.
  - rewrite Hw. cbn [fmap option_fmap option_map].
    rewrite (bool_decide_eq_false_2 (None = Some i)) by done.
    now rewrite (bool_decide_eq_true_2 (Some i ≠ None)).
Qed.

(** ** The renderers only write text *)

Lemma preserves_ret {A} (a : A) : preserves_document (ret a).
Proof. now intros σ. Qed.

Lemma preserves_raise {A} e : preserves_document (@raise Console A e).
Proof. now intros σ. Qed.

Lemma preserves_bind {A B} (m : M Console A) (k : A → M Console B) :
  preserves_document m → (∀ a, preserves_document (k a)) →
  preserves_document (bind m k).
Proof.
  intros Hm Hk σ. unfold bind. specialize (Hm σ).
  destruct (m σ) as [[a|e] σ1]; cbn [snd] in *; [|done].
  now rewrite Hk.
Qed.

Lemma preserves_for_each {A} (xs : list A) (body : A → M Console unit) :
  (∀ x, preserves_document (body x)) → preserves_document (for_each xs body).
Proof.
  intros Hb. induction xs as [|x xs IH]; cbn [for_each].
  - apply preserves_ret.
  - apply preserves_bind; auto.
Qed.

Lemma preserves_map_m {A B} (f : A → M Console B) (xs : list A) :
  (∀ x, preserves_document (f x)) → preserves_document (map_m f xs).
Proof.
  intros Hf. induction xs as [|x xs IH]; cbn [map_m].
  - apply preserves_ret.
  - apply preserves_bind; [auto|]. intros y.
    apply preserves_bind; [auto|]. intros ys. apply preserves_ret.
Qed.

Lemma preserves_console_print line : preserves_document (console_print line).
Proof. now intros σ. Qed.

Lemma preserves_file_write s : preserves_document (file_write s).
Proof. now intros σ. Qed.

Lemma preserves_doc_sentences : preserves_document doc_sentences.
Proof. now intros σ. Qed.

Lemma preserves_sentence s : preserves_document (sentence s).
Proof. intros σ. unfold sentence. now destruct (document σ !! s). Qed.

Lemma preserves_word_attr {A} s x (f : WordNode → A) :
  preserves_document (word_attr s x f).
Proof.
  unfold word_attr. apply preserves_bind; [apply preserves_sentence|].
  intros sn. destruct x as [r|]; [|apply preserves_raise].
  destruct (sent_word_nodes sn !! r); [apply preserves_ret|apply preserves_raise].
Qed.

Create HintDb frame.
#[local] Hint Resolve preserves_ret preserves_raise preserves_console_print
  preserves_file_write preserves_doc_sentences preserves_sentence
  preserves_word_attr : frame.

Ltac frame :=
  repeat first
    [ progress auto with frame
    | apply preserves_bind; [|intros ?]
    | apply preserves_for_each; intros ?
    | apply preserves_map_m; intros ?
    | match goal with
      | |- preserves_document (match ?x with _ => _ end) => destruct x
      | |- preserves_document (let _ := _ in _) => cbv zeta
      end ].

Lemma preserves_display_word s self fo :
  preserves_document (display_word s self fo).
Proof. unfold display_word. frame. Qed.

Lemma preserves_print_words s fo : preserves_document (print_words s fo).
Proof. unfold print_words. frame. Qed.

Lemma preserves_print_doc fo count : preserves_document (print_doc fo count).
Proof. unfold print_doc. frame. Qed.

Lemma preserves_print_spacy_doc sp_doc :
  preserves_document (print_spacy_doc sp_doc).
Proof. unfold print_spacy_doc. frame. Qed.

(** C10. Printing a normalized document, printing a word and printing a raw
    analysis only write text: after any such call the document, its
    sentences and every field of every word are what they were. *)
Theorem printing_leaves_document_unchanged σ :
  (∀ fo count, document (snd (print_doc fo count σ)) = document σ)
  ∧ (∀ s self fo, document (snd (display_word s self fo σ)) = document σ)
  ∧ (∀ sp_doc, document (snd (print_spacy_doc sp_doc σ)) = document σ).
Proof.
  split; [|split]; intros.
  - apply preserves_print_doc.
  - apply preserves_display_word.
  - apply preserves_print_spacy_doc.
Qed.

(** ** The label remap *)

Lemma dict_get_absent (d : list (string * string)) k :
  k ∉ d.*1 → dict_get d k = None.
Proof.
  induction d as [|[k' v] d IH]; cbn [dict_get fmap list_fmap fst]; [done|].
  intros Hk. apply not_elem_of_cons in Hk as [Hne Hk].
  destruct (String.eqb_spec k' k); [congruence|auto].
Qed.

(** C5. The initial remap sends dobj to obj, ROOT to root and parataxis to
    prataxis; the table has fourteen entries; a raw label that is not a key
    of the table is copied unchanged; and the relation of every word built
    from a raw token is the remap of the token's label. *)
Theorem remap_table :
  remap "dobj" = "obj"
  ∧ remap "ROOT" = "root"
  ∧ remap "parataxis" = "prataxis"
  ∧ length dep_dict = 14
  ∧ (∀ s_dep, s_dep ∉ dep_dict.*1 → remap s_dep = s_dep)
  ∧ ∀ i spacy_token,
      dependency_relation (spacy_to_ud_token i spacy_token)
      = remap (dep_ spacy_token).
Proof.
  repeat split.
  intros s_dep Hs. unfold remap. now rewrite dict_get_absent.
Qed.

(** ** Governor resolution in a sentence that starts the document *)

Lemma append_words_run (its : list (nat * Token)) : ∀ σ,
  for_each its (λ '(i, spacy_token),
    append_word (spacy_to_ud_token i spacy_token)) σ
  = (Return tt,
     set_words (word_nodes σ
                ++ ((λ it, spacy_to_ud_token it.1 it.2) <$> its))%list σ).
Proof.
  induction its as [|[i t] its IH]; intros σ; cbn [for_each fmap list_fmap].
  - unfold ret. now rewrite app_nil_r, set_words_id.
  - erewrite bind_Return by reflexivity. rewrite IH.
    rewrite set_words_twice, word_nodes_set_words.
    now rewrite <- app_assoc.
Qed.

Lemma add_governor_word_run σ :
  (∀ i w, word_nodes σ !! i = Some w →
     (governor w ≤ Z.of_nat (length (word_nodes σ)))%Z) →
  add_governor_word σ
  = (Return tt,
     set_words
       (imap (λ _ w, if (0 <? governor w)%Z
                     then with_governor_word
                            (Some (Z.to_nat (governor w - 1))) w
                     else w) (word_nodes σ)) σ).
Proof.
  intros Hin. unfold add_governor_word. erewrite bind_Return by reflexivity.
  set (n := length (word_nodes σ)) in *.
  apply (for_each_words _
    (λ ws, length ws = n
           ∧ ∀ i w, ws !! i = Some w → (governor w ≤ Z.of_nat n)%Z)).
  - intros σ' i w [Hlen Hgov] Hw. rewrite (bind_getattr _ _ _ _ _ Hw).
    destruct (0 <? governor w)%Z eqn:Hpos; [|now apply ret_unchanged].
    apply Z.ltb_lt in Hpos. specialize (Hgov _ _ Hw).
    erewrite bind_Return; cycle 1.
    { unfold subscript. rewrite Hlen.
      replace ((0 <=? governor w - 1)%Z && (governor w - 1 <? Z.of_nat n)%Z)
        with true; [reflexivity|].
      symmetry. apply andb_true_intro. split; [apply Z.leb_le|apply Z.ltb_lt]; lia. }
    now apply setattr_Some.
  - intros ws i w [Hlen Hgov] Hw. split; [now rewrite length_insert|].
    intros j x Hx. destruct (decide (j = i)) as [->|Hne].
    + rewrite list_lookup_insert_eq in Hx by (eapply lookup_lt_Some; eauto).
      simplify_eq. specialize (Hgov _ _ Hw). now destruct (0 <? governor w)%Z.
    + rewrite list_lookup_insert_ne in Hx by done. eauto.
  - split; [done|exact Hin].
Qed.

(** X15. In a sentence that begins at token 0 and whose heads lie inside it,
    every word gets the word of its head token as governor word, and a
    token that is its own head gets none. *)
Lemma first_sentence_governors_resolved sp_doc s out :
  sent_start s = 0 →
  sent_end s ≤ length (tokens sp_doc) →
  (∀ i spacy_token,
     i < sent_end s → tokens sp_doc !! i = Some spacy_token →
     head spacy_token < sent_end s) →
  bind (materialize sp_doc s) (λ _, add_governor_word)
       {| word_nodes := []; stdout := out |}
  = (Return tt,
     {| word_nodes := imap resolved (take (sent_end s) (tokens sp_doc));
        stdout := out |}).
Proof.
  intros Hs He Hheads. unfold materialize.
  erewrite bind_Return by apply append_words_run.
  unfold span_tokens. rewrite Hs, Nat.sub_0_r, drop_0. cbn [word_nodes app].
  set (toks := take (sent_end s) (tokens sp_doc)).
  assert (Hlen : length toks = sent_end s) by (unfold toks; rewrite length_take; lia).
  assert (Hzip : ∀ i, ((λ it : nat * Token, spacy_to_ud_token it.1 it.2)
                         <$> zip (seq 0 (sent_end s)) toks) !! i
                      = spacy_to_ud_token i <$> toks !! i).
  { intros i. rewrite list_lookup_fmap.
    destruct (toks !! i) as [t|] eqn:Ht.
    - assert (Hi : i < sent_end s) by (rewrite <- Hlen; eapply lookup_lt_Some; eauto).
      assert (Hz : zip (seq 0 (sent_end s)) toks !! i = Some (i, t)).
      { apply lookup_zip_with_Some. exists i, t. split; [done|].
        split; [|done]. now apply lookup_seq. }
      now rewrite Hz.
    - assert (Hz : zip (seq 0 (sent_end s)) toks !! i = None); [|now rewrite Hz].
      apply lookup_ge_None. rewrite length_zip_with, Hlen, length_seq.
      apply lookup_ge_None in Ht. lia. }
  rewrite add_governor_word_run.
  - unfold set_words. cbn [word_nodes stdout]. do 2 f_equal.
    apply list_eq. intros i. rewrite !list_lookup_imap, Hzip.
    destruct (toks !! i) as [t|] eqn:Ht; [|done].
    cbn [fmap option_fmap option_map]. f_equal. unfold resolved.
    assert (Hi : i < sent_end s) by (rewrite <- Hlen; eapply lookup_lt_Some; eauto).
    cbn [spacy_to_ud_token governor].
    destruct (bool_decide_reflect (head t = i)); [done|].
    replace (0 <? Z.of_nat (head t) + 1)%Z with true
      by (symmetry; apply Z.ltb_lt; lia).
    do 2 f_equal. lia.
  - cbn [word_nodes]. intros i w Hw. rewrite Hzip in Hw.
    destruct (toks !! i) as [t|] eqn:Ht; [|done]. cbn in Hw. simplify_eq.
    rewrite word_nodes_set_words, length_fmap, length_zip_with, length_seq, Hlen.
    assert (Hi : i < sent_end s) by (rewrite <- Hlen; eapply lookup_lt_Some; eauto).
    assert (Ht' : tokens sp_doc !! i = Some t).
    { unfold toks in Ht. now rewrite lookup_take_lt in Ht. }
    specialize (Hheads _ _ Hi Ht'). cbn. case_bool_decide; lia.
Qed.

(** ** Anomalies: what is reported and what is raised *)

(** X16. An attr under a governor that is not "be" is reported and left
    alone. *)
Lemma attr_not_be_is_reported σ w g ww gw :
  word_nodes σ !! w = Some ww →
  word_nodes σ !! g = Some gw →
  dependency_relation ww = "attr" →
  governor_word ww = Some g →
  lemma gw ≠ "be" →
  spacy_to_ud_word (Some w) σ
  = (Return tt,
     reported ("Dep attr used with something other than to be: " +:+ text gw
               +:+ " <-attr- " +:+ text ww) σ).
Proof.
  intros Hw Hg Hd Hgw Hl.
  unfold spacy_to_ud_word. get. rewrite Hd.
  change (string_in "attr" ["xcomp"; "ccomp"]) with false.
  cbn [String.eqb Ascii.eqb Bool.eqb]. cbv iota.
  unfold attr_to_ud. get. rewrite Hgw. get.
  destruct (String.eqb_spec (lemma gw) "be"); [done|]. cbn [negb].
  get. get. reflexivity.
Qed.

(** X17. A pobj whose governor is labelled neither prep, iobj nor agent is
    reported and left alone. *)
Lemma pobj_without_preps_is_reported σ w g ww gw :
  word_nodes σ !! w = Some ww →
  word_nodes σ !! g = Some gw →
  dependency_relation ww = "pobj" →
  governor_word ww = Some g →
  string_in (dependency_relation gw) ["iobj"; "agent"; "prep"] = false →
  spacy_to_ud_word (Some w) σ
  = (Return tt, reported ("pobj without preps, word: " +:+ text ww) σ).
Proof.
  intros Hw Hg Hd Hgw Hrel.
  assert (Hia : string_in (dependency_relation gw) ["iobj"; "agent"] = false
                ∧ String.eqb (dependency_relation gw) "prep" = false).
  { unfold string_in in *. cbn [existsb] in *.
    apply orb_false_elim in Hrel as [H1 Hrel].
    apply orb_false_elim in Hrel as [H2 Hrel].
    apply orb_false_elim in Hrel as [H3 _]. now rewrite H1, H2, H3. }
  destruct Hia as [Hia Hprep].
  unfold spacy_to_ud_word. get. rewrite Hd.
  cbn [String.eqb Ascii.eqb Bool.eqb]. cbv iota.
  unfold pobj_to_ud, prep_chain. get. rewrite Hgw. get. rewrite Hia.
  erewrite bind_Return; cycle 1.
  { erewrite bind_Return by reflexivity. cbn [prep_chain_loop].
    get. rewrite Hprep. reflexivity. }
  cbv beta iota. get. reflexivity.
Qed.

(** X18. A pcomp whose governor is not labelled prep: when that governor has a
    governor of its own the anomaly is reported and the word left alone;
    when it is the root of the sentence, AttributeError is raised. *)
Lemma pcomp_without_prep σ w p ww pw :
  word_nodes σ !! w = Some ww →
  word_nodes σ !! p = Some pw →
  dependency_relation ww = "pcomp" →
  governor_word ww = Some p →
  dependency_relation pw ≠ "prep" →
  ¬ (upos ww = "ADP" ∧ upos pw = "SCONJ") →
  spacy_to_ud_word (Some w) σ
  = match governor_word pw with
    | Some g =>
        match word_nodes σ !! g with
        | Some gw =>
            (Return tt,
             reported ("No prep dependency in: " +:+ text gw +:+ " <-"
                       +:+ dependency_relation pw +:+ "- " +:+ text pw
                       +:+ " <-pcomp- " +:+ text ww) σ)
        | None => (Raise Dangling, σ)
        end
    | None => (Raise AttributeError, σ)
    end.
Proof.
  intros Hw Hp Hd Hgw Hrel Hfix.
  unfold spacy_to_ud_word. get. rewrite Hd.
  cbn [String.eqb Ascii.eqb Bool.eqb]. cbv iota.
  unfold pcomp_to_ud. get. rewrite Hgw. get.
  erewrite bind_Return with (a := false); cycle 1.
  { destruct (String.eqb_spec (upos ww) "ADP"); [|done].
    get. destruct (String.eqb_spec (upos pw) "SCONJ"); [|done].
    now destruct Hfix. }
  cbv iota. get. get.
  destruct (String.eqb_spec (dependency_relation pw) "prep"); [done|].
  cbn [negb]. destruct (governor_word pw) as [g|]; [|done].
  destruct (word_nodes σ !! g) as [gw|] eqn:Hg.
  - get. get. get. get. reflexivity.
  - unfold bind, getattr. now rewrite Hg.
Qed.

(** C1 (the code at the failing input).  In the second sentence of a
    document the positions continue the count of the first, and a governor
    position is looked up in the list of the sentence's own words: in
    "Stop. Go home." the word "home" (head "Go") is given the full stop as
    its governor word and the full stop is given itself; in "Please stop
    now. Go home." the lookup runs past the end of the list and the
    conversion raises IndexError. *)
Theorem second_sentence_governors_misresolved :
  match spacy_to_ud_doc stop_go_home [] with
  | (Return [s1; s2], _) =>
      governor_links s1 = [("Stop", 1%Z, 0%Z, None); (".", 2%Z, 1%Z, Some 0)]
      ∧ governor_links s2
        = [("Go", 3%Z, 0%Z, None); ("home", 4%Z, 3%Z, Some 2);
           (".", 5%Z, 3%Z, Some 2)]
  | _ => False
  end
  ∧ spacy_to_ud_doc please_stop_now [] = (Raise IndexError, []).
Proof. split; [vm_compute; split; reflexivity|vm_compute; reflexivity]. Qed.

(** C2 (the code at the failing input).  A pcomp whose immediate governor
    is the root of the sentence, hence not labelled prep: the diagnostic
    message dereferences the governor of the governor, which is None, and
    the conversion ends with AttributeError; nothing is printed and no
    document is returned. *)
Theorem pcomp_under_root_raises :
  spacy_to_ud_doc after_eating [] = (Raise AttributeError, []).
Proof. vm_compute. reflexivity. Qed.

(** ** The claims on sample sentences *)

(** C3 (amended) on "Mary is a doctor": "doctor" becomes the head over "is". *)
Lemma make_copula_spec_witness :
  ∃ ws',
    make_copula (Some 3) (Some 1) mary_is_a_doctor
    = (Return true, set_words ws' mary_is_a_doctor)
    ∧ ws' !! 3 = Some (takes_over w_doctor w_is)
    ∧ ws' !! 1 = Some (copula_be 3 w_doctor w_is).
Proof.
  destruct (make_copula_spec mary_is_a_doctor 3 1 w_doctor w_is) as [_ H];
    [reflexivity|reflexivity|lia|].
  destruct (H eq_refl) as (ws' & Hrun & _ & Hh & Hb & _).
  exists ws'. auto.
Defined.

(** C3 as stated fails: "be" has a dependent with relation expl and lemma
    "there", yet [make_copula] returns True and restructures the sentence,
    because an earlier expl dependent has another lemma. *)
Lemma make_copula_any_expl_counterexample :
  (∃ e ew, word_nodes it_there_is !! e = Some ew
           ∧ governor_word ew = Some 2
           ∧ dependency_relation ew = "expl" ∧ lemma ew = "there")
  ∧ fst (make_copula (Some 3) (Some 2) it_there_is) = Return true
  ∧ links (word_nodes (snd (make_copula (Some 3) (Some 2) it_there_is)))
    = [("expl", Some 2); ("expl", Some 2); ("cop", Some 3); ("root", None)].
Proof.
  split; [|split; vm_compute; reflexivity].
  exists 1, (word 2 "there" "there" "PRON" [] "expl" 3 (Some 2)).
  repeat split.
Qed.



(** C6 on "The speech was well received". *)
Lemma acomp_perfect_verb_made_passive_witness :
  ∃ ws',
    spacy_to_ud_word (Some 4) the_speech_was_well_received
    = (Return tt, set_words ws' the_speech_was_well_received)
    ∧ ws' !! 4 = Some (takes_over w_received w_was)
    ∧ ws' !! 2 = Some (with_dependency_relation "aux:pass"
                         (regoverned 4 5 w_was))
    ∧ ws' !! 1 = Some (with_dependency_relation "nsubj:pass"
                         (regoverned 4 5 w_speech)).
Proof.
  destruct (acomp_perfect_verb_made_passive the_speech_was_well_received
              4 2 w_received w_was)
    as (ws' & Hrun & _ & Hv & Hb & Hs & _);
    [reflexivity|reflexivity|reflexivity|reflexivity|reflexivity|reflexivity
    |reflexivity|lia|discriminate|].
  exists ws'. split; [exact Hrun|]. split; [exact Hv|]. split; [exact Hb|].
  apply (Hs 1 "nsubj:pass" w_speech); reflexivity.
Defined.

(** C7 on "Sam spent $40". *)
Lemma nmod_currency_swaps_roles_witness :
  ∃ ws',
    spacy_to_ud_word (Some 2) sam_spent_40
    = (Return tt, set_words ws' sam_spent_40)
    ∧ ws' !! 2 = Some (takes_over w_dollar w_40)
    ∧ ws' !! 3 = Some (with_dependency_relation "nummod"
                         (regoverned 2 3 w_40)).
Proof.
  destruct (nmod_currency_swaps_roles sam_spent_40 2 3 w_dollar w_40)
    as (ws' & Hrun & _ & Hw & Hg & _);
    [reflexivity|reflexivity|reflexivity|reflexivity|reflexivity|reflexivity
    |lia|].
  exists ws'. auto.
Defined.

(** Checks a property of every word of a sample sentence. *)
Ltac each_word i w Hw :=
  repeat match type of Hw with
         | (_ :: _) !! _ = Some _ =>
             destruct i as [|i]; cbn in Hw; [injection Hw as <-|]
         end;
  try (exfalso; clear - Hw; destruct i; discriminate Hw).

(** C8 (amended) on "We are here now": "now", the rightmost adverb, becomes
    the head over "are". *)
Lemma fix_advmod_cop_rightmost_head_witness :
  ∃ ws' bw',
    fix_advmod_cop we_are_here_now = (Return tt, set_words ws' we_are_here_now)
    ∧ ws' !! 1 = Some bw'
    ∧ dependency_relation bw' = "cop"
    ∧ governor_word bw' = Some 3
    ∧ governor bw' = 4%Z.
Proof.
  destruct (fix_advmod_cop_rightmost_head we_are_here_now 1 3 w_are w_now)
    as (_ & _ & ws' & bw' & Hrun & Hb & Hd & _ & Hg & Hi).
  - intros i w Hw Hd. cbn in Hw.
    each_word i w Hw; try discriminate Hd;
      (split; [discriminate|exists 1; split; [reflexivity|cbn; lia]]).
  - intros i w Hw Hl. cbn in Hw. each_word i w Hw; discriminate.
  - reflexivity.
  - reflexivity.
  - discriminate.
  - reflexivity.
  - reflexivity.
  - reflexivity.
  - reflexivity.
  - intros j w Hj Hw. cbn in Hw. each_word j w Hw; lia.
  - exists ws', bw'. auto.
Defined.

(** C8 as stated fails: "here" and "now" are still labelled advmod, their
    governor has lemma "be" and is not labelled cop, yet the cleanup leaves
    the sentence as it is, because the governor is existential. *)
Lemma fix_advmod_cop_existential_counterexample :
  links (word_nodes there_is_hope_here_now)
  = [("expl", Some 1); ("root", None); ("nsubj", Some 1);
     ("advmod", Some 1); ("advmod", Some 1)]
  ∧ lemma <$> word_nodes there_is_hope_here_now !! 1 = Some "be"
  ∧ fix_advmod_cop there_is_hope_here_now = (Return tt, there_is_hope_here_now).
Proof. repeat split; vm_compute; reflexivity. Qed.

(** * Further properties of the code *)

(** ** Relations every step of a computation respects *)

Section Stable.
Context (Q : World → World → Prop) `{!PreOrder Q}.

Lemma stable_ret {A} (a : A) : stable Q (ret a).
Proof. intros σ. reflexivity. Qed.

Lemma stable_raise {A} e : stable Q (@raise World A e).
Proof. intros σ. reflexivity. Qed.

Lemma stable_bind {A B} (m : M World A) (k : A → M World B) :
  stable Q m → (∀ a, stable Q (k a)) → stable Q (bind m k).
Proof.
  intros Hm Hk σ. unfold bind. specialize (Hm σ).
  destruct (m σ) as [[a|e] σ1]; cbn [snd] in *; [|done].
  etrans; [exact Hm|apply Hk].
Qed.

Lemma stable_for_each {A} (xs : list A) (body : A → M World unit) :
  (∀ x, stable Q (body x)) → stable Q (for_each xs body).
Proof.
  intros Hb. induction xs as [|x xs IH]; cbn [for_each].
  - apply stable_ret.
  - apply stable_bind; auto.
Qed.

Lemma stable_first_such xs (p : option nat → M World bool) :
  (∀ x, stable Q (p x)) → stable Q (first_such xs p).
Proof.
  intros Hp. induction xs as [|x xs IH]; cbn [first_such].
  - apply stable_ret.
  - apply stable_bind; [auto|]. intros []; [apply stable_ret|exact IH].
Qed.

Lemma stable_collect xs (p : option nat → M World bool) :
  (∀ x, stable Q (p x)) → stable Q (collect xs p).
Proof.
  intros Hp. induction xs as [|x xs IH]; cbn [collect].
  - apply stable_ret.
  - apply stable_bind; [auto|]. intros b.
    apply stable_bind; [exact IH|]. intros r. apply stable_ret.
Qed.

Lemma stable_getattr {A} x (f : WordNode → A) : stable Q (getattr x f).
Proof.
  intros σ. unfold getattr. destruct x as [r|]; [|reflexivity].
  destruct (word_nodes σ !! r); reflexivity.
Qed.

Lemma stable_sentence_words x : stable Q (sentence_words x).
Proof. intros σ. unfold sentence_words. destruct x; reflexivity. Qed.

Lemma stable_all_words : stable Q all_words.
Proof. intros σ. reflexivity. Qed.

Lemma stable_subscript k : stable Q (subscript k).
Proof. intros σ. unfold subscript. repeat case_match; reflexivity. Qed.

End Stable.

#[local] Instance wordwise_preorder (R : WordNode → WordNode → Prop) :
  PreOrder R → PreOrder (wordwise R).
Proof.
  intros HR. split.
  - intros σ. apply Forall2_same_length_lookup. split; [done|].
    intros i w w' H1 H2. simplify_eq. reflexivity.
  - intros σ1 σ2 σ3 H1 H2.
    apply Forall2_same_length_lookup.
    apply Forall2_same_length_lookup in H1 as [L1 H1].
    apply Forall2_same_length_lookup in H2 as [L2 H2].
    split; [congruence|]. intros i w1 w3 Hw1 Hw3.
    destruct (lookup_lt_is_Some_2 (word_nodes σ2) i) as [w2 Hw2].
    { rewrite <- L1. eapply lookup_lt_Some; eauto. }
    etrans; eauto.
Qed.

#[local] Instance same_text_preorder : PreOrder same_text.
Proof.
  split.
  - intros w. now repeat split.
  - intros w1 w2 w3 (?&?&?&?&?) (?&?&?&?&?). repeat split; congruence.
Qed.

#[local] Instance same_link_preorder : PreOrder same_link.
Proof.
  split.
  - intros w. now split.
  - intros w1 w2 w3 [? ?] [? ?]. split; congruence.
Qed.

#[local] Instance extends_preorder : PreOrder extends.
Proof.
  split.
  - intros σ. split; reflexivity.
  - intros σ1 σ2 σ3 [H1 P1] [H2 P2]. split; etrans; eauto.
Qed.

#[local] Instance quiet_preorder : PreOrder quiet.
Proof.
  split.
  - intros σ. reflexivity.
  - intros σ1 σ2 σ3 H1 H2. unfold quiet in *. congruence.
Qed.

Lemma wordwise_setattr (R : WordNode → WordNode → Prop) `{!PreOrder R}
    {A} x (upd : A → WordNode → WordNode) v σ :
  (∀ w, R w (upd v w)) → wordwise R σ (snd (setattr x upd v σ)).
Proof.
  intros Hupd. unfold setattr. destruct x as [r|]; [|reflexivity].
  destruct (word_nodes σ !! r) as [w|] eqn:Hw; [|reflexivity].
  cbn [snd]. unfold wordwise. rewrite word_nodes_set_words.
  apply Forall2_same_length_lookup. split; [now rewrite length_insert|].
  intros i w1 w2 H1 H2. destruct (decide (i = r)) as [->|Hne].
  - rewrite list_lookup_insert_eq in H2 by (eapply lookup_lt_Some; eauto).
    simplify_eq. apply Hupd.
  - rewrite list_lookup_insert_ne in H2 by done. simplify_eq. reflexivity.
Qed.

Lemma stdout_setattr {A} x (upd : A → WordNode → WordNode) v σ :
  stdout (snd (setattr x upd v σ)) = stdout σ.
Proof.
  unfold setattr. destruct x as [r|]; [|done].
  now destruct (word_nodes σ !! r).
Qed.

Lemma extends_setattr {A} x (upd : A → WordNode → WordNode) v :
  (∀ w, same_text w (upd v w)) → stable extends (setattr x upd v).
Proof.
  intros Hupd σ. split; [apply (wordwise_setattr same_text); auto|].
  now rewrite stdout_setattr.
Qed.

Lemma extends_print line : stable extends (print line).
Proof.
  intros σ. split; cbn [snd print].
  - apply (reflexivity (R := wordwise same_text) σ).
  - now apply prefix_app_r.
Qed.

Lemma quiet_setattr {A} x (upd : A → WordNode → WordNode) v :
  stable quiet (setattr x upd v).
Proof. intros σ. apply stdout_setattr. Qed.

Lemma links_setattr {A} x (upd : A → WordNode → WordNode) v :
  (∀ w, same_link w (upd v w)) → stable (wordwise same_link) (setattr x upd v).
Proof. intros Hupd σ. apply (wordwise_setattr same_link); auto. Qed.

Lemma links_print line : stable (wordwise same_link) (print line).
Proof. intros σ. apply (reflexivity (R := wordwise same_link) σ). Qed.

Create HintDb stable.

#[local] Hint Resolve extends_print quiet_setattr links_print : stable.

#[local] Hint Extern 1 (stable extends (setattr _ _ _)) =>
  apply extends_setattr; intros ?; repeat split : stable.

#[local] Hint Extern 1 (stable (wordwise same_link) (setattr _ _ _)) =>
  apply links_setattr; intros ?; split; reflexivity : stable.

(** Walks through a computation built from the operations above. *)
Ltac walk_step :=
  match goal with
  | |- stable _ (ret _) => refine (stable_ret _ _)
  | |- stable _ (raise _) => refine (stable_raise _ _)
  | |- stable _ (getattr _ _) => refine (stable_getattr _ _ _)
  | |- stable _ (sentence_words _) => refine (stable_sentence_words _ _)
  | |- stable _ all_words => refine (stable_all_words _)
  | |- stable _ (subscript _) => refine (stable_subscript _ _)
  | |- stable _ (bind _ _) => refine (stable_bind _ _ _ _ _); [|intros ?]
  | |- stable _ (for_each _ _) => refine (stable_for_each _ _ _ _); intros ?
  | |- stable _ (first_such _ _) => refine (stable_first_such _ _ _ _); intros ?
  | |- stable _ (collect _ _) => refine (stable_collect _ _ _ _); intros ?
  | |- stable _ (match ?x with _ => _ end) => destruct x
  | |- stable _ _ => solve [auto with stable]
  end.

Ltac walk := repeat walk_step.

Lemma stable_find_governed Q `{!PreOrder Q} x dep : stable Q (find_governed x dep).
Proof. unfold find_governed. walk. Qed.

Lemma stable_find_subj Q `{!PreOrder Q} x : stable Q (find_subj x).
Proof. unfold find_subj. walk. Qed.

Lemma stable_prep_chain_loop Q `{!PreOrder Q} fuel :
  ∀ x acc, stable Q (prep_chain_loop fuel x acc).
Proof.
  induction fuel as [|fuel IH]; intros x acc; cbn [prep_chain_loop]; walk.
Qed.

#[local] Hint Extern 1 (stable _ (find_governed _ _)) =>
  refine (stable_find_governed _ _ _) : stable.

#[local] Hint Extern 1 (stable _ (find_subj _)) =>
  refine (stable_find_subj _ _) : stable.

#[local] Hint Extern 1 (stable _ (prep_chain_loop _ _ _)) =>
  refine (stable_prep_chain_loop _ _ _ _) : stable.

Lemma stable_prep_chain Q `{!PreOrder Q} w : stable Q (prep_chain w).
Proof. unfold prep_chain. walk. Qed.

#[local] Hint Extern 1 (stable _ (prep_chain _)) =>
  refine (stable_prep_chain _ _) : stable.

Lemma extends_redirect_dependants f t : stable extends (redirect_dependants f t).
Proof. unfold redirect_dependants. walk. Qed.

#[local] Hint Resolve extends_redirect_dependants : stable.

Lemma extends_make_copula h b : stable extends (make_copula h b).
Proof. unfold make_copula. walk. Qed.

Lemma extends_make_passive b v : stable extends (make_passive b v).
Proof. unfold make_passive. walk. Qed.

#[local] Hint Resolve extends_make_copula extends_make_passive : stable.

Lemma extends_spacy_to_ud_word w : stable extends (spacy_to_ud_word w).
Proof.
  unfold spacy_to_ud_word. refine (stable_bind _ _ _ _ _); [walk|]. intros d.
  repeat match goal with
         | |- stable _ (if ?b then _ else _) => destruct b
         end.
  - unfold aux_to_ud. walk.
  - unfold oprd_to_ud. walk.
  - unfold amod_to_ud. walk.
  - unfold nmod_to_ud. walk.
  - unfold nummod_to_ud. walk.
  - unfold advcl_to_ud. walk.
  - unfold pobj_to_ud. walk.
  - unfold pcomp_to_ud. walk.
  - unfold comp_to_ud. walk.
  - unfold attr_to_ud. walk.
  - unfold acomp_to_ud. walk.
  - unfold advmod_to_ud. walk.
  - unfold npadvmod_to_ud. walk.
  - unfold conj_to_ud. walk.
  - unfold dep_to_ud. walk.
  - walk.
Qed.

Lemma extends_fix_advmod_cop : stable extends fix_advmod_cop.
Proof. unfold fix_advmod_cop, fix_advmod_cop_word. walk. Qed.

Lemma extends_spacy_to_ud : stable extends spacy_to_ud.
Proof.
  unfold spacy_to_ud. refine (stable_bind _ _ _ _ _); [walk|]. intros sent.
  refine (stable_bind _ _ _ _ _).
  - refine (stable_for_each _ _ _ _). intros w. apply extends_spacy_to_ud_word.
  - intros _. apply extends_fix_advmod_cop.
Qed.

Lemma extends_add_governor_word : stable extends add_governor_word.
Proof. unfold add_governor_word. walk. Qed.

Lemma extends_mark_phrase_head e sws :
  ∀ todo, stable extends (mark_phrase_head e sws todo).
Proof. induction todo as [|x todo IH]; cbn [mark_phrase_head]; walk. Qed.

Lemma extends_add_entities es : stable extends (add_entities es).
Proof.
  unfold add_entities. refine (stable_for_each _ _ _ _). intros e.
  unfold add_entity, find_span_words. refine (stable_bind _ _ _ _ _); [walk|].
  intros sws. refine (stable_bind _ _ _ _ _); [apply extends_mark_phrase_head|].
  intros h. walk.
Qed.

(** X1. Whatever the sentence and however the pass ends, the rule engine
    adds and removes no word, leaves position, text, lemma, features and
    character span of every word as they were, and only appends to the
    output. *)
Theorem spacy_to_ud_keeps_token_fields σ :
  length (word_nodes (snd (spacy_to_ud σ))) = length (word_nodes σ)
  ∧ (∀ i w w',
       word_nodes σ !! i = Some w →
       word_nodes (snd (spacy_to_ud σ)) !! i = Some w' →
       same_text w w')
  ∧ stdout σ `prefix_of` stdout (snd (spacy_to_ud σ)).
Proof.
  destruct (extends_spacy_to_ud σ) as [Hw Hout].
  apply Forall2_same_length_lookup in Hw as [Hlen Hw]. auto.
Qed.

Lemma materialize_run sp_doc s σ :
  materialize sp_doc s σ
  = (Return tt,
     set_words (word_nodes σ
                ++ ((λ it, spacy_to_ud_token it.1 it.2)
                      <$> span_tokens sp_doc s))%list σ).
Proof. apply append_words_run. Qed.

Lemma spacy_to_ud_sentence_extends sp_doc s out :
  extends
    {| word_nodes := (λ it, spacy_to_ud_token it.1 it.2) <$> span_tokens sp_doc s;
       stdout := out |}
    (snd (spacy_to_ud_sentence sp_doc s {| word_nodes := []; stdout := out |})).
Proof.
  unfold spacy_to_ud_sentence. unfold bind at 1. rewrite materialize_run.
  cbn [word_nodes app set_words stdout].
  assert (Hrest : stable extends (bind add_governor_word
                    (λ _, bind spacy_to_ud (λ _, add_entities (span_ents s))))).
  { refine (stable_bind _ _ _ _ _); [apply extends_add_governor_word|].
    intros _.
    refine (stable_bind _ _ _ _ _); [apply extends_spacy_to_ud|]. intros _.
    apply extends_add_entities. }
  apply Hrest.
Qed.

Lemma convert_sentences_spec sp_doc : ∀ ss doc0 out,
  out `prefix_of` snd (convert_sentences sp_doc ss doc0 out)
  ∧ ∀ doc, fst (convert_sentences sp_doc ss doc0 out) = Return doc →
      ∃ new,
        doc = (doc0 ++ new)%list
        ∧ Forall2
            (λ s sn,
               sent_text sn = span_text s
               ∧ Forall2 (λ it w, same_text (spacy_to_ud_token it.1 it.2) w)
                         (span_tokens sp_doc s) (sent_word_nodes sn))
            ss new.
Proof.
  induction ss as [|s ss IH]; intros doc0 out; cbn [convert_sentences].
  - split; [done|]. intros doc [= <-]. exists []. split; [now rewrite app_nil_r|].
    constructor.
  - pose proof (spacy_to_ud_sentence_extends sp_doc s out) as [Hw Hout].
    destruct (spacy_to_ud_sentence sp_doc s _) as [[[]|e] σ];
      cbn [snd fst word_nodes stdout] in *; [|split; [done|discriminate]].
    destruct (IH (doc0 ++ [{| sent_text := span_text s;
                              sent_word_nodes := word_nodes σ |}])%list
                 (stdout σ)) as [Hpre Hdoc].
    split; [by etrans|].
    intros doc Hret. destruct (Hdoc doc Hret) as (new & -> & Hnew).
    eexists (_ :: new). split; [now rewrite <- app_assoc|].
    constructor; [|exact Hnew]. split; [done|]. cbn [sent_word_nodes].
    apply Forall2_same_length_lookup.
    unfold wordwise in Hw. cbn [word_nodes] in Hw.
    apply Forall2_same_length_lookup in Hw as [Hlen Hw].
    rewrite length_fmap in Hlen. split; [done|].
    intros i it w Hit Hwi. apply (Hw i); [|done].
    now rewrite list_lookup_fmap, Hit.
Qed.

(** X2. When the conversion of a document returns, the result has one
    sentence per sentence of the parse (the whole document when the parse
    has none), with the sentence's text, and one word per token of the
    sentence, in order: the word of the token at place [i] of the document
    has position [i + 1], the token's text, lemma and features, and the
    character span from the token's offset to the offset plus the length
    of its text; what was printed before is still there, followed by the
    diagnostics. *)
Theorem spacy_to_ud_doc_keeps_tokens sp_doc out doc out' :
  spacy_to_ud_doc sp_doc out = (Return doc, out') →
  Forall2
    (λ s sn,
       sent_text sn = span_text s
       ∧ Forall2
           (λ '(i, t) w,
              index w = (Z.of_nat i + 1)%Z
              ∧ text w = tok_text t
              ∧ lemma w = lemma_ t
              ∧ features w = morph t
              ∧ span w = (idx t,
                          (idx t + Z.of_nat (String.length (tok_text t)))%Z))
           (span_tokens sp_doc s) (sent_word_nodes sn)
       ∧ ∀ k i t, span_tokens sp_doc s !! k = Some (i, t) →
           i = sent_start s + k ∧ i < sent_end s
           ∧ tokens sp_doc !! i = Some t)
    (doc_sentences_of sp_doc) doc
  ∧ out `prefix_of` out'.
Proof.
  intros Hrun. unfold spacy_to_ud_doc in Hrun. fold (doc_sentences_of sp_doc) in Hrun.
  destruct (convert_sentences_spec sp_doc (doc_sentences_of sp_doc) [] out)
    as [Hpre Hdoc].
  rewrite Hrun in *. cbn [fst snd] in *.
  destruct (Hdoc doc eq_refl) as (new & -> & Hnew). split; [|done].
  cbn [app]. eapply Forall2_impl; [exact Hnew|].
  intros s sn [Ht Hw]. split; [done|]. split.
  - eapply Forall2_impl; [exact Hw|].
    intros [i t] w (Hi & Htx & Hl & Hf & Hsp).
    cbn [spacy_to_ud_token index text lemma features span fst snd] in *.
    auto.
  - intros k i t Hk. unfold span_tokens in Hk.
    apply lookup_zip_with_Some in Hk as (i' & t' & [= <- <-] & Hi & Htk).
    apply lookup_seq in Hi as [-> Hlt].
    apply lookup_take_Some in Htk as [Htk _]. rewrite lookup_drop in Htk.
    split; [done|]. split; [lia|done].
Qed.

Lemma same_tree_refl w : same_tree w w.
Proof. now destruct w. Qed.

Lemma same_tree_trans w1 w2 w3 :
  same_tree w1 w2 → same_tree w2 w3 → same_tree w1 w3.
Proof. unfold same_tree. intros -> ->. reflexivity. Qed.

Lemma entity_result_same_tree e ws : Forall2 same_tree ws (entity_result e ws).
Proof.
  apply Forall2_same_length_lookup. unfold entity_result.
  split.
  { rewrite length_imap. destruct (phrase_head _ _); [|done].
    now rewrite length_alter. }
  intros i w w' Hw Hw'. rewrite list_lookup_imap in Hw'.
  assert (∃ w1, match phrase_head ws (span_words e ws) with
                | Some h => alter (with_ner (Some (entity_ner e (span_words e ws)))) h ws
                | None => ws
                end !! i = Some w1 ∧ same_tree w w1) as (w1 & Hw1 & Ht).
  { destruct (phrase_head _ _) as [h|]; [|eauto using same_tree_refl].
    rewrite list_lookup_alter. destruct (decide (h = i)) as [->|]; rewrite Hw; cbn.
    - eexists. split; [reflexivity|]. now destruct w.
    - eexists. split; [reflexivity|]. apply same_tree_refl. }
  rewrite Hw1 in Hw'. cbn in Hw'. simplify_eq.
  eapply same_tree_trans; [exact Ht|].
  unfold back_reference.
  destruct (bool_decide (i ∈ span_words e ws)); [|apply same_tree_refl].
  destruct (bool_decide (Some i ≠ phrase_head ws (span_words e ws)));
    [|apply same_tree_refl].
  now destruct w1.
Qed.

(** X3. Entity alignment always returns, prints nothing, and changes
    nothing but the entity annotation and the head back-reference of words:
    relation, governor position, governor word, POS and the token fields of
    every word are as before, and no word is added or removed. *)
Theorem add_entities_only_annotates es σ :
  ∃ ws',
    add_entities es σ = (Return tt, set_words ws' σ)
    ∧ Forall2 same_tree (word_nodes σ) ws'.
Proof.
  revert σ. induction es as [|e es IH]; intros σ.
  - exists (word_nodes σ). split.
    + unfold add_entities, for_each, ret. now rewrite set_words_id.
    + apply Forall2_same_length_lookup. split; [done|].
      intros i w w' ? ?. simplify_eq. apply same_tree_refl.
  - destruct (IH (set_words (entity_result e (word_nodes σ)) σ))
      as (ws' & Hrun & Ht).
    exists ws'. split.
    + unfold add_entities in *. cbn [for_each].
      erewrite bind_Return by apply add_entity_run.
      rewrite Hrun. now rewrite set_words_twice.
    + rewrite word_nodes_set_words in Ht.
      pose proof (entity_result_same_tree e (word_nodes σ)) as H0.
      apply Forall2_same_length_lookup.
      apply Forall2_same_length_lookup in H0 as [L0 H0].
      apply Forall2_same_length_lookup in Ht as [L1 H1].
      split; [congruence|]. intros i w w' Hw Hw'.
      destruct (lookup_lt_is_Some_2 (entity_result e (word_nodes σ)) i) as [w1 Hw1].
      { rewrite <- L0. eapply lookup_lt_Some; eauto. }
      eapply same_tree_trans; eauto.
Qed.

(** ** Governor resolution: when the lookup fails *)

(** X4. [add_governor_word] returns exactly when no governor position
    exceeds the number of words of the sentence, and raises IndexError as
    soon as one does. *)
Theorem add_governor_word_index_error σ :
  ((∀ i w, word_nodes σ !! i = Some w →
      (governor w ≤ Z.of_nat (length (word_nodes σ)))%Z) →
   fst (add_governor_word σ) = Return tt)
  ∧ ((∃ i w, word_nodes σ !! i = Some w
             ∧ (Z.of_nat (length (word_nodes σ)) < governor w)%Z) →
     fst (add_governor_word σ) = Raise IndexError).
Proof.
  split; [intros Hin; now rewrite add_governor_word_run|].
  intros (i0 & w0 & Hw0 & Hbig).
  set (n := length (word_nodes σ)) in *.
  set (q := λ w : WordNode, (Z.of_nat n <? governor w)%Z).
  destruct (first_index q (word_nodes σ)) as [k|] eqn:Fk; cycle 1.
  { pose proof (first_index_None _ _ Fk _ _ Hw0) as Hq.
    apply Z.ltb_ge in Hq. lia. }
  destruct (first_index_Some _ _ _ Fk) as (wk & Hwk & Hqk & Hmin).
  apply Z.ltb_lt in Hqk.
  assert (Hk : k < n) by (eapply lookup_lt_Some; eauto).
  unfold add_governor_word. erewrite bind_Return by reflexivity.
  fold n. rewrite (seq_split_at k n Hk), fmap_app.
  set (g := λ (_ : nat) (w : WordNode),
              if (0 <? governor w)%Z
              then with_governor_word (Some (Z.to_nat (governor w - 1))) w
              else w).
  set (P := λ ws' : list WordNode,
              length ws' = n
              ∧ ∀ i w', ws' !! i = Some w' →
                  ∃ w, word_nodes σ !! i = Some w ∧ governor w' = governor w).
  erewrite for_each_app; cycle 1.
  { apply (for_each_update g P).
    - apply NoDup_seq.
    - intros σ' i w' [Hlen Hgov] Hi%elem_of_seq Hw'.
      destruct (Hgov _ _ Hw') as (w & Hw & Hg).
      assert (Hle : (governor w' ≤ Z.of_nat n)%Z).
      { rewrite Hg. pose proof (Hmin i w ltac:(lia) Hw) as Hq.
        now apply Z.ltb_ge in Hq. }
      rewrite (bind_getattr _ _ _ _ _ Hw'). unfold g.
      destruct (0 <? governor w')%Z eqn:Hpos; [|now apply ret_unchanged].
      apply Z.ltb_lt in Hpos.
      erewrite bind_Return; cycle 1.
      { unfold subscript. rewrite Hlen.
        replace ((0 <=? governor w' - 1)%Z && (governor w' - 1 <? Z.of_nat n)%Z)
          with true; [reflexivity|].
        symmetry. apply andb_true_intro.
        split; [apply Z.leb_le|apply Z.ltb_lt]; lia. }
      now apply setattr_Some.
    - intros ws' i w' [Hlen Hgov] _ Hw'. split; [now rewrite length_insert|].
      intros j x Hx. destruct (decide (j = i)) as [->|Hne].
      + rewrite list_lookup_insert_eq in Hx by (eapply lookup_lt_Some; eauto).
        simplify_eq. destruct (Hgov _ _ Hw') as (w & Hw & Hg).
        exists w. split; [done|]. unfold g. now destruct (0 <? governor w')%Z.
      + rewrite list_lookup_insert_ne in Hx by done. eauto.
    - split; [done|eauto].
    - intros i Hi%elem_of_seq. fold n. lia. }
  cbn [fmap list_fmap for_each]. erewrite bind_Raise; [done|].
  erewrite bind_getattr; cycle 1.
  { rewrite word_nodes_set_words, list_lookup_imap, Hwk.
    rewrite bool_decide_eq_false_2; [done|].
    intros Hin%elem_of_seq. lia. }
  replace (0 <? governor wk)%Z with true by (symmetry; apply Z.ltb_lt; lia).
  erewrite bind_Raise; [done|].
  unfold subscript. rewrite word_nodes_set_words, length_imap. fold n.
  replace ((0 <=? governor wk - 1)%Z && (governor wk - 1 <? Z.of_nat n)%Z)
    with false by (symmetry; apply andb_false_intro2, Z.ltb_ge; lia).
  replace ((governor wk - 1 <? 0)%Z) with false
    by (symmetry; apply Z.ltb_ge; lia).
  reflexivity.
Qed.

(** ** The linear scans *)

(** X5. [find_governed] and [find_subj] leave the sentence as it is and
    return the first word, in sentence order, that is governed by the given
    word with the given relation (for [find_subj], a subject relation), or
    None when there is none; given None they raise AttributeError. *)
Theorem find_governed_first_match σ r dep :
  find_governed None dep σ = (Raise AttributeError, σ)
  ∧ find_subj None σ = (Raise AttributeError, σ)
  ∧ (∃ found,
       find_governed (Some r) dep σ = (Return found, σ)
       ∧ match found with
         | Some i =>
             ∃ w, word_nodes σ !! i = Some w
                  ∧ governor_word w = Some r ∧ dependency_relation w = dep
                  ∧ ∀ j x, j < i → word_nodes σ !! j = Some x →
                      ¬ (governor_word x = Some r ∧ dependency_relation x = dep)
         | None =>
             ∀ j x, word_nodes σ !! j = Some x →
               ¬ (governor_word x = Some r ∧ dependency_relation x = dep)
         end)
  ∧ (∃ found,
       find_subj (Some r) σ = (Return found, σ)
       ∧ match found with
         | Some i =>
             ∃ w, word_nodes σ !! i = Some w
                  ∧ governor_word w = Some r
                  ∧ dependency_relation w ∈ subj_relations
                  ∧ ∀ j x, j < i → word_nodes σ !! j = Some x →
                      ¬ (governor_word x = Some r
                         ∧ dependency_relation x ∈ subj_relations)
         | None =>
             ∀ j x, word_nodes σ !! j = Some x →
               ¬ (governor_word x = Some r
                  ∧ dependency_relation x ∈ subj_relations)
         end).
Proof.
  assert (Hin : ∀ d l, string_in d l = true ↔ d ∈ l).
  { intros d l. unfold string_in. rewrite existsb_exists. split.
    - intros (y & Hy%list_elem_of_In & ->%String.eqb_eq). done.
    - intros Hd. exists d. split; [now apply list_elem_of_In|apply String.eqb_refl]. }
  assert (Hg : ∀ x, governed r dep x = true
                    ↔ governor_word x = Some r ∧ dependency_relation x = dep).
  { intros x. unfold governed, governed_by.
    rewrite andb_true_iff, bool_decide_eq_true, String.eqb_eq. done. }
  assert (Hs : ∀ x, is_subj_of r x = true
                    ↔ governor_word x = Some r
                      ∧ dependency_relation x ∈ subj_relations).
  { intros x. unfold is_subj_of, governed_by.
    rewrite andb_true_iff, bool_decide_eq_true, Hin. done. }
  split; [done|]. split; [done|]. split.
  - eexists. split; [apply find_governed_run|].
    destruct (first_index _ _) as [i|] eqn:Fi.
    + destruct (first_index_Some _ _ _ Fi) as (w & Hw & Hq & Hmin).
      apply Hg in Hq as [? ?]. exists w. repeat split; auto.
      intros j x Hj Hx Hgx%Hg. rewrite (Hmin j x Hj Hx) in Hgx. discriminate.
    + intros j x Hx Hgx%Hg.
      rewrite (first_index_None _ _ Fi j x Hx) in Hgx. discriminate.
  - eexists. split; [apply find_subj_run|].
    destruct (first_index _ _) as [i|] eqn:Fi.
    + destruct (first_index_Some _ _ _ Fi) as (w & Hw & Hq & Hmin).
      apply Hs in Hq as [? ?]. exists w. repeat split; auto.
      intros j x Hj Hx Hgx%Hs. rewrite (Hmin j x Hj Hx) in Hgx. discriminate.
    + intros j x Hx Hgx%Hs.
      rewrite (first_index_None _ _ Fi j x Hx) in Hgx. discriminate.
Qed.

(** ** Redirecting dependents *)

Lemma redirected_idempotent f t ti i w :
  redirected f t ti i (redirected f t ti i w) = redirected f t ti i w.
Proof.
  unfold redirected.
  destruct (bool_decide (Some i = Some f) || bool_decide (Some i = Some t));
    [done|].
  destruct (governed_by f w && string_in (dependency_relation w) redirectable)
    eqn:E; [|now rewrite E].
  cbn [dependency_relation with_governor_word with_governor governor_word].
  unfold governed_by at 1. cbn [governor_word with_governor_word].
  apply andb_prop in E as [_ E]. rewrite E.
  case_bool_decide; reflexivity.
Qed.

(** X6. Redirecting the dependents of a word to a word of the sentence a
    second time changes nothing; and after it no word other than the two
    is governed by the first with a redirectable relation, when the two
    differ. *)
Theorem redirect_dependants_idempotent σ f t tw :
  word_nodes σ !! t = Some tw →
  bind (redirect_dependants (Some f) (Some t))
       (λ _, redirect_dependants (Some f) (Some t)) σ
  = redirect_dependants (Some f) (Some t) σ
  ∧ (f ≠ t →
     ∀ i w, word_nodes (snd (redirect_dependants (Some f) (Some t) σ)) !! i
            = Some w →
       i ≠ f → i ≠ t → governor_word w = Some f →
       string_in (dependency_relation w) redirectable = false).
Proof.
  intros Ht.
  assert (Ht' : imap (redirected f t (index tw)) (word_nodes σ) !! t = Some tw).
  { rewrite list_lookup_imap, Ht. cbn. unfold redirected.
    rewrite (bool_decide_eq_true_2 (Some t = Some t)) by done.
    now rewrite orb_true_r. }
  split.
  - erewrite bind_Return by exact (redirect_dependants_run f t tw σ Ht).
    rewrite (redirect_dependants_run f t tw (set_words _ σ) Ht').
    rewrite (redirect_dependants_run f t tw σ Ht).
    rewrite set_words_twice, word_nodes_set_words. do 2 f_equal.
    apply list_eq. intros i. rewrite !list_lookup_imap.
    destruct (word_nodes σ !! i); [|done]. cbn.
    now rewrite redirected_idempotent.
  - intros Hne i w Hw Hif Hit Hg.
    rewrite (redirect_dependants_run f t tw) in Hw by done.
    cbn [snd] in Hw. rewrite word_nodes_set_words, list_lookup_imap in Hw.
    destruct (word_nodes σ !! i) as [x|]; [|done]. cbn in Hw. simplify_eq.
    unfold redirected in *.
    rewrite !bool_decide_eq_false_2 in * by congruence. cbn [orb] in *.
    destruct (governed_by f x && string_in (dependency_relation x) redirectable)
      eqn:E.
    + cbn in Hg. congruence.
    + unfold governed_by in E. rewrite bool_decide_eq_true_2 in E by done.
      exact E.
Qed.

(** ** The label remap *)

Lemma dict_get_Some_value (d : list (string * string)) k v :
  dict_get d k = Some v → v ∈ d.*2.
Proof.
  induction d as [|[k' v'] d IH]; cbn [dict_get fmap list_fmap snd]; [done|].
  destruct (String.eqb k' k).
  - intros [= ->]. left.
  - intros Hd. right. auto.
Qed.

Lemma dict_get_None_absent (d : list (string * string)) k :
  dict_get d k = None → k ∉ d.*1.
Proof.
  induction d as [|[k' v'] d IH]; cbn [dict_get fmap list_fmap fst].
  - intros _. apply not_elem_of_nil.
  - destruct (String.eqb_spec k' k); [done|].
    intros Hd. apply not_elem_of_cons. split; [congruence|auto].
Qed.

(** X7. No normalized label is a raw label of the table: remapping twice
    is remapping once, and no word built from a token carries a label that
    is a key of the table. *)
Theorem remap_idempotent s_dep :
  remap (remap s_dep) = remap s_dep ∧ remap s_dep ∉ dep_dict.*1.
Proof.
  assert (Hv : ∀ v, v ∈ dep_dict.*2 → dict_get dep_dict v = None).
  { intros v Hv. cbn in Hv.
    repeat (apply elem_of_cons in Hv as [->|Hv]; [reflexivity|]).
    now apply elem_of_nil in Hv. }
  assert (Hn : ∀ v, dict_get dep_dict v = None → remap v = v).
  { intros v E. unfold remap. now rewrite E. }
  destruct (dict_get dep_dict s_dep) as [v|] eqn:E.
  - assert (Hr : remap s_dep = v) by (unfold remap; now rewrite E).
    rewrite Hr. apply dict_get_Some_value, Hv in E.
    split; [auto|now apply dict_get_None_absent].
  - rewrite !(Hn _ E). split; [done|now apply dict_get_None_absent].
Qed.

(** ** Rules that only relabel *)

(** X8. At a word whose relation is none of nmod, advcl, pobj, pcomp,
    xcomp, ccomp, attr, acomp, npadvmod and conj, the body of the loop of
    [spacy_to_ud] prints nothing and re-attaches no word: every word keeps
    its governor position and its governor word. *)
Theorem relabelling_rules_keep_links σ i w :
  word_nodes σ !! i = Some w →
  dependency_relation w ∉ attaching →
  stdout (snd (spacy_to_ud_word (Some i) σ)) = stdout σ
  ∧ Forall2 (λ x x', governor x' = governor x
                     ∧ governor_word x' = governor_word x)
      (word_nodes σ) (word_nodes (snd (spacy_to_ud_word (Some i) σ))).
Proof.
  intros Hw Hd.
  assert (Hin : ∀ d, String.eqb (dependency_relation w) d = true →
                     d ∈ attaching → False).
  { intros d E%String.eqb_eq Hin. now rewrite <- E in Hin. }
  unfold spacy_to_ud_word. rewrite !(bind_getattr _ _ _ _ _ Hw). cbv beta.
  assert (Hxc : string_in (dependency_relation w) ["xcomp"; "ccomp"] = false).
  { unfold string_in. cbn [existsb].
    destruct (String.eqb _ "xcomp") eqn:E1;
      [exfalso; eapply Hin; [exact E1|apply list_elem_of_In; cbn [In attaching]; auto 20]|].
    destruct (String.eqb _ "ccomp") eqn:E2;
      [exfalso; eapply Hin; [exact E2|apply list_elem_of_In; cbn [In attaching]; auto 20]|].
    done. }
  rewrite Hxc.
  repeat match goal with
         | |- context [if String.eqb (dependency_relation w) ?d then _ else _] =>
             destruct (String.eqb (dependency_relation w) d) eqn:?; cbv iota
         end;
    try solve [exfalso; eapply Hin;
               [eassumption|apply list_elem_of_In; cbn [In attaching]; auto 20]].
  all: match goal with
       | |- stdout (snd (?m _)) = _ ∧ _ =>
           assert (Hq : stable quiet m);
           [|assert (Hl : stable (wordwise same_link) m);
             [|split; [apply Hq|];
               eapply Forall2_impl; [apply Hl|]; intros x x' [? ?]; done]]
       end.
  all: unfold aux_to_ud, oprd_to_ud, amod_to_ud, nummod_to_ud, advmod_to_ud,
         dep_to_ud; walk.
Qed.

(** ** What the rule engine prints *)

Lemma bind_cases {Σ A B} (P : outcome B * Σ → Prop) (m : M Σ A)
    (k : A → M Σ B) σ :
  (∀ e σ1, m σ = (Raise e, σ1) → P (Raise e, σ1)) →
  (∀ a σ1, m σ = (Return a, σ1) → P (k a σ1)) →
  P (bind m k σ).
Proof.
  intros Hr Hk. unfold bind. destruct (m σ) as [[a|e] σ1]; auto.
Qed.

Lemma bind_inv {Σ A B} (m : M Σ A) (k : A → M Σ B) σ b σ' :
  bind m k σ = (Return b, σ') →
  ∃ a σ1, m σ = (Return a, σ1) ∧ k a σ1 = (Return b, σ').
Proof.
  unfold bind. destruct (m σ) as [[a|e] σ1]; [eauto|discriminate].
Qed.

Lemma getattr_inv {A} (f : WordNode → A) x σ a σ' :
  getattr x f σ = (Return a, σ') →
  σ' = σ ∧ ∃ i w, x = Some i ∧ word_nodes σ !! i = Some w ∧ a = f w.
Proof.
  unfold getattr. destruct x as [i|]; [|discriminate].
  destruct (word_nodes σ !! i) as [w|] eqn:Hw; [|discriminate].
  intros [= <- <-]. eauto 6.
Qed.

Lemma stable_eq_state {A} (m : M World A) σ o σ' :
  stable eq m → m σ = (o, σ') → σ' = σ.
Proof. intros Hm E. specialize (Hm σ). rewrite E in Hm. done. Qed.

Lemma quiet_redirect_dependants f t : stable quiet (redirect_dependants f t).
Proof. unfold redirect_dependants. walk. Qed.

#[local] Hint Resolve quiet_redirect_dependants : stable.

Lemma quiet_make_copula h b : stable quiet (make_copula h b).
Proof. unfold make_copula. walk. Qed.

Lemma quiet_make_passive b v : stable quiet (make_passive b v).
Proof. unfold make_passive. walk. Qed.

#[local] Hint Resolve quiet_make_copula quiet_make_passive : stable.

(** A copula that is declined has changed nothing. *)
Lemma make_copula_declined h b σ σ' :
  make_copula h b σ = (Return false, σ') → σ' = σ.
Proof.
  unfold make_copula. intros H.
  apply bind_inv in H as (e & σ1 & He & H).
  apply (stable_eq_state _ _ _ _ (stable_find_governed eq _ _)) in He as ->.
  apply bind_inv in H as (ex & σ2 & Hex & H).
  assert (σ2 = σ) as ->.
  { destruct e; [|now injection Hex].
    eapply stable_eq_state; [|exact Hex]. walk. }
  destruct ex; [now injection H|].
  repeat (apply bind_inv in H as (? & ? & _ & H)). discriminate H.
Qed.

(** The prepositions [prep_chain] returns. *)
Lemma prep_chain_loop_inv fuel : ∀ x acc σ g ps σ',
  prep_chain_loop fuel x acc σ = (Return (g, ps), σ') →
  σ' = σ
  ∧ ∃ rest, ps = (acc ++ rest)%list
            ∧ Forall (λ p, ∃ i w, p = Some i ∧ word_nodes σ !! i = Some w
                                  ∧ dependency_relation w = "prep") rest.
Proof.
  induction fuel as [|fuel IH]; intros x acc σ g ps σ';
    cbn [prep_chain_loop]; [discriminate|].
  intros H. apply bind_inv in H as (d & σ1 & Hd & H).
  apply getattr_inv in Hd as [-> (i & w & -> & Hw & ->)].
  destruct (String.eqb_spec (dependency_relation w) "prep") as [E|_].
  - apply bind_inv in H as (gx & σ1 & Hg & H).
    apply getattr_inv in Hg as [-> _].
    apply IH in H as [-> (rest & -> & Hrest)]. split; [done|].
    exists (Some i :: rest). rewrite <- app_assoc. split; [done|].
    constructor; eauto.
  - injection H as <- <- <-. split; [done|]. exists []. rewrite app_nil_r.
    split; [done|constructor].
Qed.

Lemma prep_chain_inv x σ g ps σ' :
  prep_chain x σ = (Return (g, ps), σ') →
  σ' = σ
  ∧ Forall (λ p, ∃ i w, p = Some i ∧ word_nodes σ !! i = Some w
                        ∧ string_in (dependency_relation w)
                            ["prep"; "iobj"; "agent"] = true) ps.
Proof.
  unfold prep_chain. intros H.
  apply bind_inv in H as (gx & σ1 & Hg & H).
  apply getattr_inv in Hg as [-> _].
  apply bind_inv in H as (d & σ1 & Hd & H).
  apply getattr_inv in Hd as [-> (i & w & -> & Hw & ->)].
  destruct (string_in (dependency_relation w) ["iobj"; "agent"]) eqn:E.
  - apply bind_inv in H as (ggx & σ1 & Hg & H).
    apply getattr_inv in Hg as [-> _]. injection H as <- <- <-.
    split; [done|]. constructor; [|constructor].
    exists i, w. repeat split; try done.
    unfold string_in in *. cbn [existsb] in *.
    now destruct (String.eqb (dependency_relation w) "prep").
  - apply bind_inv in H as (sent & σ1 & Hs & H).
    apply (stable_eq_state _ _ _ _ (stable_sentence_words eq _)) in Hs as ->.
    apply prep_chain_loop_inv in H as [-> (rest & -> & Hrest)].
    split; [done|]. cbn [app]. eapply Forall_impl; [exact Hrest|].
    intros p (j & pw & -> & Hp & E'). exists j, pw. now rewrite E'.
Qed.

Lemma quiet_at {A} (m : M World A) σ o σ' :
  stable quiet m → m σ = (o, σ') → stdout σ' = stdout σ.
Proof. intros Hm E. specialize (Hm σ). now rewrite E in Hm. Qed.

(** [pobj_to_ud] prints nothing, or the one line that tells of an object
    without a preposition: its other message is never reached, as the first
    preposition [prep_chain] returns is a prep, an iobj or an agent. *)
Lemma pobj_to_ud_output x σ :
  stdout (snd (pobj_to_ud x σ)) = stdout σ
  ∨ ∃ i w, x = Some i ∧ word_nodes σ !! i = Some w
           ∧ stdout (snd (pobj_to_ud x σ))
             = (stdout σ ++ ["pobj without preps, word: " +:+ text w])%list.
Proof.
  set (P := λ r : outcome unit * World,
              stdout (snd r) = stdout σ
              ∨ ∃ i w, x = Some i ∧ word_nodes σ !! i = Some w
                       ∧ stdout (snd r)
                         = (stdout σ
                            ++ ["pobj without preps, word: " +:+ text w])%list).
  change (P (pobj_to_ud x σ)). unfold pobj_to_ud. apply (bind_cases P).
  { intros e σ1 E. left.
    now apply (stable_eq_state _ _ _ _ (stable_prep_chain eq _)) in E as ->. }
  intros [g ps] σ1 E. apply prep_chain_inv in E as [-> Hps].
  destruct ps as [|p ps].
  { apply (bind_cases P).
    - intros e σ1 E. left.
      now apply (stable_eq_state _ _ _ _ (stable_getattr eq _ _)) in E as ->.
    - intros t σ1 E. apply getattr_inv in E as [-> (i & w & -> & Hw & ->)].
      right. exists i, w. done. }
  apply Forall_cons in Hps as [(pi & pw & -> & Hpw & Hdep) _].
  apply (bind_cases P).
  { intros e σ1 E. left.
    now apply (stable_eq_state _ _ _ _ (stable_getattr eq _ _)) in E as ->. }
  intros l σ1 E. apply getattr_inv in E as [-> _].
  apply (bind_cases P).
  { intros e σ1 E. left. eapply quiet_at; [|exact E]. walk. }
  intros [|] σ1 E.
  - assert (σ1 = σ) as ->.
    { destruct (String.eqb l "be"); [|now injection E].
      apply bind_inv in E as (c & σ2 & Hc & E). injection E as Hn <-.
      apply negb_true_iff in Hn as ->. now apply make_copula_declined in Hc. }
    cbv iota. rewrite bind_assoc. apply (bind_cases P).
    { intros e σ1 E'. left.
      now apply (stable_eq_state _ _ _ _ (stable_getattr eq _ _)) in E' as ->. }
    intros pd σ1 E'. apply getattr_inv in E' as [-> (j & w' & [= <-] & Hw' & ->)].
    rewrite Hpw in Hw'. injection Hw' as <-.
    unfold string_in in Hdep. cbn [existsb] in Hdep.
    left.
    destruct (String.eqb (dependency_relation pw) "prep");
      [|destruct (String.eqb (dependency_relation pw) "iobj");
        [|destruct (String.eqb (dependency_relation pw) "agent");
          [|discriminate Hdep]]].
    all: match goal with
         | |- stdout (snd (?m _)) = _ => apply (ltac:(walk) : stable quiet m)
         end.
  - left. assert (stdout σ1 = stdout σ) as <-
      by (eapply quiet_at; [|exact E]; walk).
    match goal with
    | |- stdout (snd (?m _)) = _ => apply (ltac:(walk) : stable quiet m)
    end.
Qed.

#[local] Instance diagnosed_preorder : PreOrder diagnosed.
Proof.
  split.
  - intros σ. exists []. now rewrite app_nil_r.
  - intros σ1 σ2 σ3 (l1 & E1 & H1) (l2 & E2 & H2). exists (l1 ++ l2)%list.
    split; [now rewrite E2, E1, app_assoc|now apply Forall_app].
Qed.

Lemma quiet_diagnosed {A} (m : M World A) : stable quiet m → stable diagnosed m.
Proof.
  intros Hm σ. exists []. split; [|constructor].
  rewrite app_nil_r. apply Hm.
Qed.

Lemma prefix_append p s : String.prefix p (p +:+ s) = true.
Proof.
  induction p as [|a p IH]; [now destruct s|].
  change (String a p +:+ s) with (String a (p +:+ s)). cbn [String.prefix].
  destruct (Ascii.ascii_dec a a); [exact IH|congruence].
Qed.

Lemma is_diagnostic_intro p s : p ∈ diagnostics → is_diagnostic (p +:+ s) = true.
Proof.
  intros Hp. unfold is_diagnostic. apply existsb_exists. exists p.
  split; [now apply list_elem_of_In|apply prefix_append].
Qed.

Lemma diagnosed_print line :
  is_diagnostic line = true → stable diagnosed (print line).
Proof. intros Hl σ. exists [line]. split; [done|]. now constructor. Qed.

Lemma diagnosed_pobj_to_ud x : stable diagnosed (pobj_to_ud x).
Proof.
  intros σ. destruct (pobj_to_ud_output x σ) as [E|(i & w & _ & _ & E)].
  - exists []. rewrite app_nil_r. split; [done|constructor].
  - eexists. split; [exact E|]. constructor; [|constructor].
    apply is_diagnostic_intro. left.
Qed.

#[local] Hint Extern 1 (stable diagnosed (setattr _ _ _)) =>
  refine (quiet_diagnosed _ (quiet_setattr _ _ _)) : stable.

#[local] Hint Extern 1 (stable diagnosed (redirect_dependants _ _)) =>
  refine (quiet_diagnosed _ (quiet_redirect_dependants _ _)) : stable.

#[local] Hint Extern 1 (stable diagnosed (make_copula _ _)) =>
  refine (quiet_diagnosed _ (quiet_make_copula _ _)) : stable.

#[local] Hint Extern 1 (stable diagnosed (make_passive _ _)) =>
  refine (quiet_diagnosed _ (quiet_make_passive _ _)) : stable.

#[local] Hint Extern 1 (stable diagnosed (print _)) =>
  refine (diagnosed_print _ (is_diagnostic_intro _ _ _));
  apply list_elem_of_In; cbn [In diagnostics]; auto : stable.

Lemma diagnosed_spacy_to_ud_word w : stable diagnosed (spacy_to_ud_word w).
Proof.
  unfold spacy_to_ud_word. refine (stable_bind _ _ _ _ _); [walk|]. intros d.
  repeat match goal with
         | |- stable _ (if ?b then _ else _) => destruct b
         end; try apply diagnosed_pobj_to_ud.
  all: unfold aux_to_ud, oprd_to_ud, amod_to_ud, nmod_to_ud, nummod_to_ud,
         advcl_to_ud, pcomp_to_ud, comp_to_ud, attr_to_ud, acomp_to_ud,
         advmod_to_ud, npadvmod_to_ud, conj_to_ud, dep_to_ud; walk.
Qed.

(** X9. Whatever the sentence, [spacy_to_ud] adds to the output only lines
    that start with "pobj without preps, word: ", "No prep dependency in: "
    or "Dep attr used with something other than to be: "; the message
    "Unknown dep from PREP in: " of [pobj_to_ud] is never printed. *)
Theorem spacy_to_ud_prints_diagnostics_only σ :
  ∃ lines,
    stdout (snd (spacy_to_ud σ)) = (stdout σ ++ lines)%list
    ∧ Forall (λ l, is_diagnostic l = true
                   ∧ String.prefix "Unknown dep from PREP in: " l = false)
        lines.
Proof.
  assert (H : stable diagnosed spacy_to_ud).
  { unfold spacy_to_ud. refine (stable_bind _ _ _ _ _); [walk|]. intros sent.
    refine (stable_bind _ _ _ _ _).
    - refine (stable_for_each _ _ _ _). intros w.
      apply diagnosed_spacy_to_ud_word.
    - intros _. unfold fix_advmod_cop, fix_advmod_cop_word. walk. }
  destruct (H σ) as (lines & E & Hl). exists lines. split; [done|].
  eapply Forall_impl; [exact Hl|]. intros l Hd. split; [done|].
  unfold is_diagnostic in Hd. apply existsb_exists in Hd as (p & Hp & Hd).
  cbn [In diagnostics] in Hp.
  destruct Hp as [<-|[<-|[<-|[]]]]; destruct l as [|c l]; try discriminate Hd;
    cbn [String.prefix] in Hd |- *;
    match type of Hd with
    | (if Ascii.ascii_dec ?a c then _ else _) = _ =>
        destruct (Ascii.ascii_dec a c) as [<-|_]; [|discriminate Hd]
    end;
    now destruct (Ascii.ascii_dec "U" _).
Qed.

(** ** The chain of prepositions *)

Lemma prep_path_suffix ws l1 : ∀ x p l2 h,
  prep_path ws x (l1 ++ p :: l2) h → prep_path ws p (p :: l2) h.
Proof.
  induction l1 as [|a l1 IH]; intros x p l2 h; cbn [app prep_path].
  - intros [-> H]. now split.
  - intros [-> (pw & y & _ & _ & _ & H)]. apply IH in H. exact H.
Qed.

Lemma prep_path_unique ws l : ∀ x l' h h',
  prep_path ws x l h → prep_path ws x l' h' → l = l'.
Proof.
  induction l as [|p l IH]; intros x [|p' l'] h h'; cbn [prep_path].
  - done.
  - intros [-> (hw & Hh & Hn)] [<- (pw & y & Hp & Hd & _)]. congruence.
  - intros [-> (pw & y & Hp & Hd & _)] [<- (hw & Hh & Hn)]. congruence.
  - intros [-> (pw & y & Hp & Hd & Hy & H)] [<- (pw' & y' & Hp' & Hd' & Hy' & H')].
    f_equal. assert (y' = y) as -> by congruence. eauto.
Qed.

Lemma prep_path_NoDup ws l : ∀ x h, prep_path ws x l h → NoDup l.
Proof.
  induction l as [|p l IH]; intros x h H; [constructor|].
  pose proof H as [-> (pw & y & Hp & Hd & Hy & H')].
  constructor; [|eauto].
  intros (l1 & l2 & ->)%list_elem_of_split.
  apply prep_path_suffix in H' as Hs.
  pose proof (prep_path_unique _ _ _ _ _ _ H Hs) as E.
  apply (f_equal length) in E. cbn [length] in E.
  rewrite length_app in E. cbn [length] in E. lia.
Qed.

Lemma prep_path_bound ws l x h : prep_path ws x l h → length l ≤ length ws.
Proof.
  intros H. pose proof (prep_path_NoDup _ _ _ _ H) as Hnd.
  assert (length l ≤ length (seq 0 (length ws))) as Hle;
    [|now rewrite length_seq in Hle].
  apply submseteq_length.
  apply NoDup_submseteq; [done|]. intros p (l1 & l2 & ->)%list_elem_of_split.
  apply prep_path_suffix in H as [_ (pw & y & Hp & _)].
  apply elem_of_seq. apply lookup_lt_Some in Hp. lia.
Qed.

Lemma prep_chain_loop_path σ l : ∀ fuel x acc h,
  prep_path (word_nodes σ) x l h → length l < fuel →
  prep_chain_loop fuel (Some x) acc σ
  = (Return (Some h, (acc ++ (Some <$> l))%list), σ).
Proof.
  induction l as [|p l IH]; intros [|fuel] x acc h H Hf; cbn [length] in Hf;
    try lia; cbn [prep_chain_loop prep_path] in *.
  - destruct H as [-> (hw & Hh & Hn)]. rewrite (bind_getattr _ _ _ _ _ Hh).
    destruct (String.eqb_spec (dependency_relation hw) "prep"); [done|].
    now rewrite app_nil_r.
  - destruct H as [-> (pw & y & Hp & Hd & Hy & H)].
    rewrite (bind_getattr _ _ _ _ _ Hp), Hd. cbn [String.eqb Ascii.eqb Bool.eqb].
    cbv iota. rewrite (bind_getattr _ _ _ _ _ Hp), Hy.
    rewrite (IH fuel y _ h H) by lia.
    cbn [fmap list_fmap]. now rewrite <- app_assoc.
Qed.

(** X10. When the governors of a word, followed upwards through the words
    labelled prep, reach a word with another label, [prep_chain] returns
    that word and the prepositions passed, nearest first, and leaves the
    sentence as it is; through an iobj or an agent it goes one step only. *)
Theorem prep_chain_follows_prepositions σ w ww x xw :
  word_nodes σ !! w = Some ww →
  governor_word ww = Some x →
  word_nodes σ !! x = Some xw →
  (string_in (dependency_relation xw) ["iobj"; "agent"] = true →
   prep_chain (Some w) σ = (Return (governor_word xw, [Some x]), σ))
  ∧ (string_in (dependency_relation xw) ["iobj"; "agent"] = false →
     ∀ preps head, prep_path (word_nodes σ) x preps head →
       prep_chain (Some w) σ = (Return (Some head, Some <$> preps), σ)).
Proof.
  intros Hw Hg Hx. unfold prep_chain.
  rewrite (bind_getattr _ _ _ _ _ Hw), Hg, (bind_getattr _ _ _ _ _ Hx).
  split; intros ->.
  - now rewrite (bind_getattr _ _ _ _ _ Hx).
  - intros preps head H. erewrite bind_Return by reflexivity.
    rewrite (prep_chain_loop_path σ preps _ x [] head H); [done|].
    rewrite length_fmap, length_seq.
    pose proof (prep_path_bound _ _ _ _ H). lia.
Qed.

(** ** The two output streams *)

Section Keeps.
Context {X : Type} (π : Console → X).

Lemma keeps_ret {A} (a : A) : keeps π (ret a).
Proof. now intros σ. Qed.

Lemma keeps_raise {A} e : keeps π (@raise Console A e).
Proof. now intros σ. Qed.

Lemma keeps_bind {A B} (m : M Console A) (k : A → M Console B) :
  keeps π m → (∀ a, keeps π (k a)) → keeps π (bind m k).
Proof.
  intros Hm Hk σ. unfold bind. specialize (Hm σ).
  destruct (m σ) as [[a|e] σ1]; cbn [snd] in *; [|done].
  now rewrite Hk.
Qed.

Lemma keeps_for_each {A} (xs : list A) (body : A → M Console unit) :
  (∀ x, keeps π (body x)) → keeps π (for_each xs body).
Proof.
  intros Hb. induction xs as [|x xs IH]; cbn [for_each].
  - apply keeps_ret.
  - apply keeps_bind; auto.
Qed.

Lemma keeps_map_m {A B} (f : A → M Console B) (xs : list A) :
  (∀ x, keeps π (f x)) → keeps π (map_m f xs).
Proof.
  intros Hf. induction xs as [|x xs IH]; cbn [map_m].
  - apply keeps_ret.
  - apply keeps_bind; [auto|]. intros y.
    apply keeps_bind; [auto|]. intros ys. apply keeps_ret.
Qed.

Lemma keeps_doc_sentences : keeps π doc_sentences.
Proof. now intros σ. Qed.

Lemma keeps_sentence s : keeps π (sentence s).
Proof. intros σ. unfold sentence. now destruct (document σ !! s). Qed.

Lemma keeps_word_attr {A} s x (f : WordNode → A) : keeps π (word_attr s x f).
Proof.
  unfold word_attr. apply keeps_bind; [apply keeps_sentence|].
  intros sn. destruct x as [r|]; [|apply keeps_raise].
  destruct (sent_word_nodes sn !! r); [apply keeps_ret|apply keeps_raise].
Qed.

End Keeps.

Lemma keeps_console_out_file_write s : keeps console_out (file_write s).
Proof. now intros σ. Qed.

Lemma keeps_file_out_console_print line : keeps file_out (console_print line).
Proof. now intros σ. Qed.

Ltac keep_step :=
  match goal with
  | |- keeps _ (ret _) => refine (keeps_ret _ _)
  | |- keeps _ (raise _) => refine (keeps_raise _ _)
  | |- keeps _ doc_sentences => refine (keeps_doc_sentences _)
  | |- keeps _ (sentence _) => refine (keeps_sentence _ _)
  | |- keeps _ (word_attr _ _ _) => refine (keeps_word_attr _ _ _ _)
  | |- keeps console_out (file_write _) =>
      refine (keeps_console_out_file_write _)
  | |- keeps file_out (console_print _) =>
      refine (keeps_file_out_console_print _)
  | |- keeps _ (bind _ _) => refine (keeps_bind _ _ _ _ _); [|intros ?]
  | |- keeps _ (for_each _ _) => refine (keeps_for_each _ _ _ _); intros ?
  | |- keeps _ (map_m _ _) => refine (keeps_map_m _ _ _ _); intros ?
  | |- keeps _ (match ?x with _ => _ end) => destruct x
  | |- keeps _ (let _ := _ in _) => cbv zeta
  end.

(** X11. A renderer writes to one stream only: given a sink, [print_doc]
    and [display_word] print nothing to the default output, and without one
    they write nothing to a sink; [print_spacy_doc] never writes to a
    sink. *)
Theorem printing_uses_one_stream σ :
  (∀ fo count,
     console_out (snd (print_doc (Some fo) count σ)) = console_out σ
     ∧ file_out (snd (print_doc None count σ)) = file_out σ)
  ∧ (∀ s self fo,
       console_out (snd (display_word s self (Some fo) σ)) = console_out σ
       ∧ file_out (snd (display_word s self None σ)) = file_out σ)
  ∧ (∀ sp_doc, file_out (snd (print_spacy_doc sp_doc σ)) = file_out σ).
Proof.
  assert (Hd1 : ∀ s self fo, keeps console_out (display_word s self (Some fo))).
  { intros. unfold display_word. repeat keep_step. }
  assert (Hd2 : ∀ s self, keeps file_out (display_word s self None)).
  { intros. unfold display_word. repeat keep_step. }
  assert (Hp1 : ∀ fo count, keeps console_out (print_doc (Some fo) count)).
  { intros. unfold print_doc, print_words. repeat keep_step; apply Hd1. }
  assert (Hp2 : ∀ count, keeps file_out (print_doc None count)).
  { intros. unfold print_doc, print_words. repeat keep_step; apply Hd2. }
  assert (Hs : ∀ sp_doc, keeps file_out (print_spacy_doc sp_doc)).
  { intros. unfold print_spacy_doc. repeat keep_step. }
  split; [|split].
  - intros fo count. split; [apply Hp1|apply Hp2].
  - intros s self fo. split; [apply Hd1|apply Hd2].
  - intros sp_doc. apply Hs.
Qed.

(** ** A converted document can be printed *)

#[local] Instance same_ner_preorder : PreOrder same_ner.
Proof.
  split.
  - intros w. reflexivity.
  - intros w1 w2 w3 H1 H2. unfold same_ner in *. congruence.
Qed.

Lemma ner_setattr {A} x (upd : A → WordNode → WordNode) v :
  (∀ w, same_ner w (upd v w)) → stable (wordwise same_ner) (setattr x upd v).
Proof. intros Hupd σ. apply (wordwise_setattr same_ner); auto. Qed.

Lemma ner_print line : stable (wordwise same_ner) (print line).
Proof. intros σ. apply (reflexivity (R := wordwise same_ner) σ). Qed.

#[local] Hint Resolve ner_print : stable.

#[local] Hint Extern 1 (stable (wordwise same_ner) (setattr _ _ _)) =>
  apply ner_setattr; intros ?; reflexivity : stable.

Lemma ner_redirect_dependants f t :
  stable (wordwise same_ner) (redirect_dependants f t).
Proof. unfold redirect_dependants. walk. Qed.

#[local] Hint Resolve ner_redirect_dependants : stable.

Lemma ner_make_copula h b : stable (wordwise same_ner) (make_copula h b).
Proof. unfold make_copula. walk. Qed.

Lemma ner_make_passive b v : stable (wordwise same_ner) (make_passive b v).
Proof. unfold make_passive. walk. Qed.

#[local] Hint Resolve ner_make_copula ner_make_passive : stable.

Lemma ner_spacy_to_ud_word w : stable (wordwise same_ner) (spacy_to_ud_word w).
Proof.
  unfold spacy_to_ud_word. refine (stable_bind _ _ _ _ _); [walk|]. intros d.
  repeat match goal with
         | |- stable _ (if ?b then _ else _) => destruct b
         end.
  all: unfold aux_to_ud, oprd_to_ud, amod_to_ud, nmod_to_ud, nummod_to_ud,
         advcl_to_ud, pobj_to_ud, pcomp_to_ud, comp_to_ud, attr_to_ud,
         acomp_to_ud, advmod_to_ud, npadvmod_to_ud, conj_to_ud, dep_to_ud; walk.
Qed.

Lemma ner_spacy_to_ud : stable (wordwise same_ner) spacy_to_ud.
Proof.
  unfold spacy_to_ud. refine (stable_bind _ _ _ _ _); [walk|]. intros sent.
  refine (stable_bind _ _ _ _ _).
  - refine (stable_for_each _ _ _ _). intros w. apply ner_spacy_to_ud_word.
  - intros _. unfold fix_advmod_cop, fix_advmod_cop_word. walk.
Qed.

Lemma ner_add_governor_word : stable (wordwise same_ner) add_governor_word.
Proof. unfold add_governor_word. walk. Qed.

Lemma members_same_ner σ σ' :
  wordwise same_ner σ σ' →
  members_in_sentence (word_nodes σ) → members_in_sentence (word_nodes σ').
Proof.
  unfold wordwise, members_in_sentence. intros H.
  rewrite <- (Forall2_length _ _ _ H). generalize (length (word_nodes σ)).
  intros n Hm. induction H as [|w w' ws ws' Hw H IH]; [constructor|].
  apply Forall_cons in Hm as [Hw0 Hm]. constructor; [|auto].
  unfold ner_in_range, same_ner in *. now rewrite Hw.
Qed.

Lemma entity_result_members e ws :
  members_in_sentence ws → members_in_sentence (entity_result e ws).
Proof.
  unfold members_in_sentence. intros Hm.
  assert (Hlen : length (entity_result e ws) = length ws).
  { unfold entity_result. rewrite length_imap.
    destruct (phrase_head _ _); [now rewrite length_alter|done]. }
  rewrite Hlen. apply Forall_lookup. intros i w' Hw'.
  unfold entity_result in Hw'. rewrite list_lookup_imap in Hw'.
  set (sws := span_words e ws) in *.
  assert (HL : Forall (ner_in_range (length ws))
                 match phrase_head ws sws with
                 | Some h => alter (with_ner (Some (entity_ner e sws))) h ws
                 | None => ws
                 end).
  { destruct (phrase_head ws sws) as [h|]; [|done].
    apply Forall_alter; [done|]. intros w _ _. unfold ner_in_range.
    destruct w. cbn. apply Forall_fmap, Forall_forall.
    intros r Hr. exists r. split; [done|]. now apply (span_words_lt e). }
  destruct (_ !! i) as [w1|] eqn:Hw1 in Hw'; [|discriminate Hw'].
  pose proof (Forall_lookup_1 _ _ _ _ HL Hw1) as Hr.
  cbn in Hw'. injection Hw' as <-.
  unfold back_reference.
  destruct (bool_decide (i ∈ sws)); [|done].
  destruct (bool_decide (Some i ≠ phrase_head ws sws)); [|done].
  exact Hr.
Qed.

Lemma add_entities_members es : ∀ σ,
  members_in_sentence (word_nodes σ) →
  fst (add_entities es σ) = Return tt
  ∧ members_in_sentence (word_nodes (snd (add_entities es σ))).
Proof.
  unfold add_entities.
  induction es as [|e es IH]; intros σ Hm; cbn [for_each]; [done|].
  erewrite bind_Return by apply add_entity_run.
  apply IH. rewrite word_nodes_set_words. now apply entity_result_members.
Qed.

Lemma spacy_to_ud_sentence_members sp_doc s out σ :
  spacy_to_ud_sentence sp_doc s {| word_nodes := []; stdout := out |}
  = (Return tt, σ) →
  members_in_sentence (word_nodes σ).
Proof.
  unfold spacy_to_ud_sentence. unfold bind at 1. rewrite materialize_run.
  unfold set_words. cbn [word_nodes app stdout].
  set (σ0 := {| word_nodes := _ <$> _; stdout := out |}).
  assert (H0 : members_in_sentence (word_nodes σ0)).
  { unfold members_in_sentence. apply Forall_forall. intros w Hw.
    cbn [σ0 word_nodes] in Hw. apply list_elem_of_fmap in Hw as ([i t] & -> & _).
    exact I. }
  intros H. apply bind_inv in H as ([] & σ1 & H1 & H).
  apply bind_inv in H as ([] & σ2 & H2 & H).
  pose proof (ner_add_governor_word σ0) as Hg. rewrite H1 in Hg.
  pose proof (ner_spacy_to_ud σ1) as Hu. rewrite H2 in Hu.
  cbn [snd] in *.
  apply (members_same_ner _ _ Hg) in H0. apply (members_same_ner _ _ Hu) in H0.
  destruct (add_entities_members (span_ents s) σ2 H0) as [_ Hm].
  now rewrite H in Hm.
Qed.

Lemma convert_sentences_members sp_doc : ∀ ss doc0 out doc out',
  Forall (λ sn, members_in_sentence (sent_word_nodes sn)) doc0 →
  convert_sentences sp_doc ss doc0 out = (Return doc, out') →
  Forall (λ sn, members_in_sentence (sent_word_nodes sn)) doc.
Proof.
  induction ss as [|s ss IH]; intros doc0 out doc out' H0;
    cbn [convert_sentences].
  - now intros [= <- _].
  - destruct (spacy_to_ud_sentence sp_doc s _) as [[[]|e] σ] eqn:E;
      [|discriminate].
    apply IH. apply Forall_app. split; [done|]. constructor; [|constructor].
    cbn [sent_word_nodes]. eapply spacy_to_ud_sentence_members. exact E.
Qed.

Lemma word_attr_Some {A} s r (f : WordNode → A) sn w σ :
  document σ !! s = Some sn → sent_word_nodes sn !! r = Some w →
  word_attr s (Some r) f σ = (Return (f w), σ).
Proof.
  intros Hs Hw. unfold word_attr, bind, sentence. now rewrite Hs, Hw.
Qed.

Lemma map_m_word_attr {A} s (f : WordNode → A) sn σ xs :
  document σ !! s = Some sn →
  Forall (λ x, ∃ r, x = Some r ∧ r < length (sent_word_nodes sn)) xs →
  ∃ l, map_m (λ x, word_attr s x f) xs σ = (Return l, σ).
Proof.
  intros Hs. induction 1 as [|x xs (r & -> & Hr) _ [l IH]]; cbn [map_m].
  - now eexists.
  - destruct (lookup_lt_is_Some_2 _ _ Hr) as [w Hw].
    erewrite bind_Return by (eapply word_attr_Some; eauto).
    erewrite bind_Return by exact IH. now eexists.
Qed.

Lemma display_word_returns s r fo sn w σ :
  document σ !! s = Some sn → sent_word_nodes sn !! r = Some w →
  ner_in_range (length (sent_word_nodes sn)) w →
  ∃ σ', display_word s (Some r) fo σ = (Return tt, σ')
        ∧ document σ' = document σ ∧ written fo σ' = written fo σ + 1.
Proof.
  intros Hs Hw Hn. unfold display_word.
  do 7 (erewrite bind_Return by (eapply word_attr_Some; eauto)).
  erewrite bind_Return by (eapply word_attr_Some; eauto).
  unfold ner_in_range in Hn. destruct (ner w) as [n|].
  - destruct (map_m_word_attr s index sn σ _ Hs Hn) as [l Hl].
    erewrite bind_Return; cycle 1.
    { erewrite bind_Return by exact Hl. reflexivity. }
    destruct fo; eexists; (split; [reflexivity|]); cbn;
      (split; [done|]); rewrite length_app; cbn; lia.
  - erewrite bind_Return by reflexivity.
    destruct fo; eexists; (split; [reflexivity|]); cbn;
      (split; [done|]); rewrite length_app; cbn; lia.
Qed.

Lemma for_each_counts {A} (μ : Console → nat) (D : UdDoc) (cost : A → nat)
    (body : A → M Console unit) (xs : list A) :
  (∀ x σ, x ∈ xs → document σ = D →
     ∃ σ', body x σ = (Return tt, σ') ∧ document σ' = D
           ∧ μ σ' = μ σ + cost x) →
  ∀ σ, document σ = D →
    ∃ σ', for_each xs body σ = (Return tt, σ') ∧ document σ' = D
          ∧ μ σ' = μ σ + sum_list (cost <$> xs).
Proof.
  induction xs as [|x xs IH]; intros Hb σ Hσ; cbn [for_each fmap list_fmap sum_list].
  - exists σ. split; [done|]. split; [done|]. cbn. lia.
  - destruct (Hb x σ ltac:(left) Hσ) as (σ1 & E1 & H1 & M1).
    destruct (IH (λ y τ Hy, Hb y τ ltac:(now right)) σ1 H1) as (σ2 & E2 & H2 & M2).
    exists σ2. split; [now erewrite bind_Return by exact E1|].
    split; [done|]. rewrite M2, M1. cbn. lia.
Qed.

Lemma print_doc_returns fo count σ :
  Forall (λ sn, members_in_sentence (sent_word_nodes sn)) (document σ) →
  ∃ σ', print_doc fo count σ = (Return tt, σ')
        ∧ document σ' = document σ
        ∧ written fo σ'
          = written fo σ + sum_list (sentence_lines fo <$> document σ).
Proof.
  intros Hdoc. unfold print_doc. erewrite bind_Return by reflexivity.
  set (D := document σ) in *.
  destruct (for_each_counts (written fo) D
              (λ s, default 0 (sentence_lines fo <$> D !! s))
              (λ s, bind (sentence s) (λ sn,
                 bind (match fo with
                       | Some _ =>
                           file_write
                             ((if (0 <? count)%Z
                               then newline +:+ " " +:+ str_int count +:+ " "
                                    +:+ sent_text sn
                               else sent_text sn) +:+ newline)
                       | None =>
                           console_print
                             (if (0 <? count)%Z
                              then newline +:+ " " +:+ str_int count +:+ " "
                                   +:+ sent_text sn
                              else sent_text sn)
                       end)
                   (λ _, bind (print_words s fo)
                     (λ _, match fo with
                           | Some _ => ret tt
                           | None => console_print ""
                           end))))
              (seq 0 (length D))) with σ as (σ' & E & HD & HM); [|done|].
  - intros s τ Hs%elem_of_seq Hτ.
    cbv beta.
    match goal with
    | |- context [sentence_lines fo <$> ?t] => destruct t as [sn|] eqn:Hsn
    end; [|apply lookup_ge_None in Hsn; lia]. cbn [fmap option_fmap option_map default].
    pose proof (Forall_lookup_1 _ _ _ _ Hdoc Hsn) as Hm.
    erewrite bind_Return; cycle 1.
    { unfold sentence. rewrite Hτ, Hsn. reflexivity. }
    match goal with
    | |- context [bind ?m (λ _, bind (print_words _ _) _)] =>
        assert (∃ τ1, m τ = (Return tt, τ1) ∧ document τ1 = D
                      ∧ written fo τ1 = written fo τ + 1)
          as (τ1 & E1 & H1 & M1)
    end.
    { destruct fo; eexists; (split; [reflexivity|]); cbn; rewrite length_app;
        cbn; split; (done || lia). }
    erewrite bind_Return by exact E1.
    destruct (for_each_counts (written fo) D (λ _, 1)
                (λ w, display_word s w fo)
                (Some <$> seq 0 (length (sent_word_nodes sn)))) with τ1
      as (τ2 & E2 & H2 & M2); [|done|].
    + intros x τ' (r & -> & Hr%elem_of_seq)%list_elem_of_fmap Hτ'.
      destruct (lookup_lt_is_Some_2 (sent_word_nodes sn) r ltac:(lia))
        as [w Hw].
      assert (Hτs : document τ' !! s = Some sn) by (rewrite Hτ'; exact Hsn).
      destruct (display_word_returns s r fo sn w τ' Hτs Hw
                  (Forall_lookup_1 _ _ _ _ Hm Hw)) as (τ'' & ? & ? & ?).
      exists τ''. split; [done|]. split; [congruence|done].
    + erewrite bind_Return; cycle 1.
      { unfold print_words. erewrite bind_Return; cycle 1.
        { unfold sentence. rewrite H1, Hsn. reflexivity. }
        exact E2. }
      assert (Hsum : sum_list ((λ _ : option nat, 1)
                       <$> (Some <$> seq 0 (length (sent_word_nodes sn))))
                     = length (sent_word_nodes sn)).
      { assert (Hones : ∀ l : list (option nat),
                  sum_list ((λ _, 1) <$> l) = length l).
        { induction l as [|x l IH]; [done|]. cbn. now rewrite <- IH. }
        now rewrite Hones, length_fmap, length_seq. }
      rewrite Hsum in M2.
      destruct fo; eexists; (split; [reflexivity|]); cbn [sentence_lines].
      * split; [done|]. unfold id. lia.
      * cbn. rewrite length_app. cbn. split; [done|].
        cbn [written] in M1, M2. unfold id. lia.
  - exists σ'. split; [exact E|]. split; [done|]. rewrite HM. f_equal.
    clear. generalize D. intros l.
    assert (H : ∀ k (l0 l : list SentenceNode), length l0 = k →
              sum_list ((λ s, default 0 (sentence_lines fo <$> (l0 ++ l)%list !! s))
                          <$> seq k (length l))
              = sum_list (sentence_lines fo <$> l)).
    { intros k l0 l1. revert k l0. induction l1 as [|sn l1 IH]; intros k l0 Hk;
        [done|].
      cbn [length seq fmap list_fmap sum_list sum_list_with].
      rewrite lookup_app_r by lia. rewrite Hk, Nat.sub_diag. cbn [lookup].
      replace (l0 ++ sn :: l1)%list with ((l0 ++ [sn]) ++ l1)%list
        by now rewrite <- app_assoc.
      rewrite (IH (S k) (l0 ++ [sn])%list); [done|].
      rewrite length_app. cbn. lia. }
    exact (H 0 [] l eq_refl).
Qed.

(** X12. A document the conversion returns can always be printed:
    [print_doc] returns, on the sink or on the default output, and adds for
    every sentence its text and one line per word (and an empty line on the
    default output), because the member lists of the entity annotations hold
    words of their own sentence. *)
Theorem converted_document_prints sp_doc out doc out' fo count c f :
  spacy_to_ud_doc sp_doc out = (Return doc, out') →
  fst (print_doc fo count {| document := doc; console_out := c; file_out := f |})
  = Return tt
  ∧ written fo
      (snd (print_doc fo count
              {| document := doc; console_out := c; file_out := f |}))
    = written fo {| document := doc; console_out := c; file_out := f |}
      + sum_list (sentence_lines fo <$> doc).
Proof.
  intros Hrun. unfold spacy_to_ud_doc in Hrun.
  apply convert_sentences_members in Hrun; [|constructor].
  destruct (print_doc_returns fo count
              {| document := doc; console_out := c; file_out := f |} Hrun)
    as (σ' & E & _ & HM).
  rewrite E. cbn [fst snd]. split; [done|exact HM].
Qed.

Lemma for_each_prints {A} (body : A → M Console unit) (xs : list A) :
  (∀ x, ∃ line, body x = console_print line) →
  ∀ σ, ∃ lines,
    for_each xs body σ
    = (Return tt,
       {| document := document σ;
          console_out := (console_out σ ++ lines)%list;
          file_out := file_out σ |})
    ∧ length lines = length xs.
Proof.
  intros Hb. induction xs as [|x xs IH]; intros σ; cbn [for_each].
  - exists []. rewrite app_nil_r. now destruct σ.
  - destruct (Hb x) as [line ->]. erewrite bind_Return by reflexivity.
    destruct (IH {| document := document σ;
                    console_out := (console_out σ ++ [line])%list;
                    file_out := file_out σ |}) as (lines & -> & Hlen).
    exists (line :: lines). cbn. rewrite <- app_assoc. split; [done|].
    now rewrite Hlen.
Qed.

(** X13. [print_spacy_doc] never fails and leaves the document and the
    sink alone; on the default output it adds the heading with the text of
    the document, then one line per token, then, when the parse has
    entities, the heading "Entities:" and one line per entity. *)
Theorem print_spacy_doc_lines sp_doc σ :
  ∃ token_lines entity_lines,
    print_spacy_doc sp_doc σ
    = (Return tt,
       {| document := document σ;
          console_out :=
            (console_out σ
             ++ ("Spacy tokens for: " +:+ doc_text sp_doc) :: token_lines
             ++ match ents sp_doc with
                | [] => []
                | _ => "Entities:" :: entity_lines
                end)%list;
          file_out := file_out σ |})
    ∧ length token_lines = length (tokens sp_doc)
    ∧ length entity_lines = length (ents sp_doc).
Proof.
  unfold print_spacy_doc.
  erewrite bind_Return by reflexivity.
  match goal with
  | |- context [for_each ?xs ?body] =>
      destruct (for_each_prints body xs) with
        {| document := document σ;
           console_out := (console_out σ
                           ++ ["Spacy tokens for: " +:+ doc_text sp_doc])%list;
           file_out := file_out σ |} as (tls & Et & Ht)
  end.
  { intros [i t]. eexists. reflexivity. }
  erewrite bind_Return by exact Et.
  rewrite length_zip_with, length_seq, Nat.min_id in Ht.
  cbn [document console_out file_out] in *.
  destruct (ents sp_doc) as [|e es].
  - exists tls, []. split; [|done].
    cbn. now rewrite app_nil_r, <- app_assoc.
  - erewrite bind_Return by reflexivity.
    match goal with
    | |- context [for_each ?xs ?body ?τ] =>
        destruct (for_each_prints body xs) with τ as (els & Ee & He)
    end.
    { intros x. eexists. reflexivity. }
    rewrite Ee. cbn [document console_out file_out].
    exists tls, els. split; [|done].
    rewrite <- !app_assoc. reflexivity.
Qed.

(** ** The feature string *)

Lemma list_ascii_app s t :
  list_ascii_of_string (s +:+ t)
  = (list_ascii_of_string s ++ list_ascii_of_string t)%list.
Proof.
  induction s as [|c s IH]; [done|].
  change (String c s +:+ t) with (String c (s +:+ t)). cbn. now rewrite IH.
Qed.

Lemma lstrip_bar_head c l : c ≠ "|"%char → lstrip_bar (c :: l) = c :: l.
Proof.
  intros Hc. cbn. destruct (Ascii.eqb_spec c "|"); [done|reflexivity].
Qed.

(** A text that neither begins nor ends with a bar, followed by one bar,
    is stripped to the text. *)
Lemma strip_trailing_bar (L : list ascii) c l l' d :
  L = c :: l → L = (l' ++ [d])%list → c ≠ "|"%char → d ≠ "|"%char →
  rev (lstrip_bar (rev (lstrip_bar (L ++ ["|"%char])))) = L.
Proof.
  intros Hh Hl Hc Hd.
  rewrite Hh at 1. cbn [app]. rewrite lstrip_bar_head by done.
  change (c :: (l ++ ["|"%char])%list) with ((c :: l) ++ ["|"%char])%list.
  rewrite <- Hh. rewrite rev_app_distr. cbn [rev app lstrip_bar].
  cbn [Ascii.eqb Bool.eqb]. cbv iota.
  rewrite Hl at 1. rewrite rev_app_distr. cbn [rev app].
  rewrite lstrip_bar_head by done.
  change (d :: rev l') with (rev [d] ++ rev l')%list.
  rewrite <- rev_app_distr, <- Hl. apply rev_involutive.
Qed.

Ltac norm_app := repeat first [rewrite <- app_assoc | progress cbn [app]].

(** The characters of the lines of a dictionary, each followed by a bar. *)
Lemma features_folded (f_dict : list (string * string)) : ∀ acc,
  list_ascii_of_string
    (fold_left (λ acc '(f_name, f_val), acc +:+ f_name +:+ "=" +:+ f_val +:+ "|")
       f_dict acc)
  = (list_ascii_of_string acc
     ++ concat ((λ f, list_ascii_of_string (feature f) ++ ["|"%char])
                  <$> f_dict))%list.
Proof.
  induction f_dict as [|[n v] fs IH]; intros acc; cbn [fold_left fmap list_fmap concat].
  - now rewrite app_nil_r.
  - rewrite IH. unfold feature. cbn [fst snd].
    rewrite !list_ascii_app. cbn [list_ascii_of_string]. norm_app.
    reflexivity.
Qed.

Lemma features_joined (f : string * string) (fs : list (string * string)) :
  concat ((λ f, list_ascii_of_string (feature f) ++ ["|"%char])%list
            <$> (f :: fs))
  = (list_ascii_of_string (String.concat "|" (feature <$> (f :: fs)))
     ++ ["|"%char])%list.
Proof.
  revert f. induction fs as [|g fs IH]; intros f.
  - cbn. now rewrite app_nil_r.
  - cbn [fmap list_fmap concat] in *. rewrite IH.
    cbn [String.concat]. rewrite !list_ascii_app.
    cbn [list_ascii_of_string]. norm_app. reflexivity.
Qed.

Lemma feature_chars f :
  no_bar f.1 → no_bar f.2 →
  ("|"%char ∉ list_ascii_of_string (feature f))
  ∧ list_ascii_of_string (feature f) ≠ [].
Proof.
  intros Hn Hv. unfold feature. rewrite !list_ascii_app. cbn. split.
  - rewrite elem_of_app, elem_of_cons. intros [?|[?|?]]; [done|discriminate|done].
  - now destruct (list_ascii_of_string f.1).
Qed.

Lemma joined_chars (fs : list (string * string)) :
  fs ≠ [] →
  Forall (λ f, no_bar f.1 ∧ no_bar f.2) fs →
  ∃ c l l' d,
    list_ascii_of_string (String.concat "|" (feature <$> fs)) = c :: l
    ∧ list_ascii_of_string (String.concat "|" (feature <$> fs)) = (l' ++ [d])%list
    ∧ c ≠ "|"%char ∧ d ≠ "|"%char.
Proof.
  intros Hne Hfs. destruct fs as [|f fs]; [done|]. clear Hne.
  revert f Hfs. induction fs as [|g fs IH]; intros f Hfs.
  - apply Forall_cons in Hfs as [[Hn Hv] _].
    destruct (feature_chars f Hn Hv) as [Hbar Hnil]. cbn.
    destruct (list_ascii_of_string (feature f)) as [|c l] eqn:E; [done|].
    destruct (exists_last (l := c :: l) ltac:(done)) as (l' & d & El).
    exists c, l, l', d. split; [done|]. split; [done|].
    split; intros ->; apply Hbar; [left|].
    rewrite El. apply elem_of_app. right. left.
  - apply Forall_cons in Hfs as [[Hn Hv] Hfs].
    destruct (IH g Hfs) as (c' & l0 & l' & d & _ & El & _ & Hd).
    destruct (feature_chars f Hn Hv) as [Hbar Hnil].
    cbn [fmap list_fmap String.concat] in *.
    rewrite !list_ascii_app. cbn.
    destruct (list_ascii_of_string (feature f)) as [|c l] eqn:E; [done|].
    exists c, (l ++ "|"%char :: list_ascii_of_string
                       (String.concat "|" (feature g :: (feature <$> fs))))%list,
      ((c :: l) ++ "|"%char :: l')%list, d.
    split; [done|]. split.
    + rewrite El. norm_app. reflexivity.
    + split; [|done]. intros ->. apply Hbar. left.
Qed.

(** X14. The feature string of an empty dictionary is "None"; of any other
    whose names and values have no '|' in them it is the items, written
    name=value, in the order of the dictionary, joined by '|'. *)
Theorem morph_to_string_joins f_dict :
  Forall (λ f, no_bar f.1 ∧ no_bar f.2) f_dict →
  morph_to_string f_dict
  = match f_dict with
    | [] => "None"
    | _ => String.concat "|" (feature <$> f_dict)
    end.
Proof.
  intros Hfs. destruct f_dict as [|f fs]; [reflexivity|].
  destruct (joined_chars (f :: fs) ltac:(done) Hfs)
    as (c & l & l' & d & Eh & El & Hc & Hd).
  unfold morph_to_string.
  assert (Es : strip_bar
                 (fold_left
                    (λ acc '(f_name, f_val),
                       acc +:+ f_name +:+ "=" +:+ f_val +:+ "|")
                    (f :: fs) "")
               = String.concat "|" (feature <$> f :: fs)).
  { unfold strip_bar. rewrite features_folded, features_joined. cbn [app].
    cbn [list_ascii_of_string app].
    rewrite (strip_trailing_bar _ c l l' d Eh El Hc Hd).
    apply string_of_list_ascii_of_string. }
  rewrite Es.
  destruct (String.eqb_spec (String.concat "|" (feature <$> f :: fs)) "")
    as [E|_]; [|done].
  rewrite E in Eh. discriminate Eh.
Qed.

(** ** The further properties on sample sentences *)

Lemma spacy_to_ud_doc_keeps_tokens_witness :
  ∃ doc out',
    spacy_to_ud_doc stop_go_home [] = (Return doc, out')
    ∧ Forall2
        (λ s sn,
           sent_text sn = span_text s
           ∧ Forall2
               (λ '(i, t) w,
                  index w = (Z.of_nat i + 1)%Z
                  ∧ text w = tok_text t
                  ∧ lemma w = lemma_ t
                  ∧ features w = morph t
                  ∧ span w = (idx t,
                              (idx t + Z.of_nat (String.length (tok_text t)))%Z))
               (span_tokens stop_go_home s) (sent_word_nodes sn)
           ∧ ∀ k i t, span_tokens stop_go_home s !! k = Some (i, t) →
               i = sent_start s + k ∧ i < sent_end s
               ∧ tokens stop_go_home !! i = Some t)
        (doc_sentences_of stop_go_home) doc
    ∧ [] `prefix_of` out'.
Proof.
  eexists _, _.
  assert (H : spacy_to_ud_doc stop_go_home []
              = (Return (match spacy_to_ud_doc stop_go_home [] with
                         | (Return d, _) => d
                         | _ => []
                         end), []))
    by (vm_compute; reflexivity).
  split; [exact H|].
  exact (spacy_to_ud_doc_keeps_tokens stop_go_home [] _ [] H).
Defined.

Lemma redirect_dependants_idempotent_witness :
  bind (redirect_dependants (Some 1) (Some 3))
       (λ _, redirect_dependants (Some 1) (Some 3)) mary_is_a_doctor
  = redirect_dependants (Some 1) (Some 3) mary_is_a_doctor.
Proof.
  exact (proj1 (redirect_dependants_idempotent mary_is_a_doctor 1 3 w_doctor
                  eq_refl)).
Defined.

Lemma relabelling_rules_keep_links_witness :
  stdout (snd (spacy_to_ud_word (Some 3) the_problem_is_to_leave)) = []
  ∧ Forall2 (λ x x', governor x' = governor x
                     ∧ governor_word x' = governor_word x)
      (word_nodes the_problem_is_to_leave)
      (word_nodes (snd (spacy_to_ud_word (Some 3) the_problem_is_to_leave))).
Proof.
  apply (relabelling_rules_keep_links the_problem_is_to_leave 3
           (word 4 "to" "to" "PART" [] "aux" 5 (Some 4)) eq_refl).
  unfold attaching. cbn [dependency_relation word].
  intros H. repeat (apply elem_of_cons in H as [H|H]; [discriminate H|]).
  now apply elem_of_nil in H.
Defined.

Lemma prep_chain_follows_prepositions_witness :
  prep_chain (Some 5) we_walked_out_of_the_woods
  = (Return (Some 1, [Some 3; Some 2]), we_walked_out_of_the_woods).
Proof.
  apply (proj2 (prep_chain_follows_prepositions we_walked_out_of_the_woods
                  5 w_woods 3 w_of eq_refl eq_refl eq_refl)
           eq_refl [3; 2] 1).
  cbn. split; [reflexivity|]. eexists _, _.
  split; [reflexivity|]. split; [reflexivity|]. split; [reflexivity|].
  split; [reflexivity|]. eexists _, _.
  split; [reflexivity|]. split; [reflexivity|]. split; [reflexivity|].
  split; [reflexivity|]. eexists. split; [reflexivity|]. discriminate.
Defined.

Lemma converted_document_prints_witness :
  ∃ doc,
    fst (spacy_to_ud_doc stop_go_home []) = Return doc
    ∧ fst (print_doc (Some TextIO) 0
             {| document := doc; console_out := []; file_out := [] |})
      = Return tt
    ∧ written (Some TextIO)
        (snd (print_doc (Some TextIO) 0
                {| document := doc; console_out := []; file_out := [] |}))
      = 7.
Proof.
  eexists.
  assert (H : spacy_to_ud_doc stop_go_home []
              = (Return (match spacy_to_ud_doc stop_go_home [] with
                         | (Return d, _) => d
                         | _ => []
                         end), []))
    by (vm_compute; reflexivity).
  split; [now rewrite H|].
  exact (converted_document_prints stop_go_home [] _ [] (Some TextIO) 0 [] [] H).
Defined.

Lemma morph_to_string_joins_witness :
  morph_to_string [("Aspect", "Perf"); ("Tense", "Past"); ("VerbForm", "Part")]
  = "Aspect=Perf|Tense=Past|VerbForm=Part".
Proof.
  apply (morph_to_string_joins
           [("Aspect", "Perf"); ("Tense", "Past"); ("VerbForm", "Part")]).
  repeat constructor; unfold no_bar; cbn; intros H;
    repeat (apply elem_of_cons in H as [H|H]; [discriminate H|]);
    now apply elem_of_nil in H.
Defined.

Lemma first_sentence_governors_resolved_witness :
  bind (materialize stop_go_home stop) (λ _, add_governor_word)
       {| word_nodes := []; stdout := [] |}
  = (Return tt,
     {| word_nodes := imap resolved (take 2 (tokens stop_go_home));
        stdout := [] |}).
Proof.
  apply (first_sentence_governors_resolved stop_go_home stop []).
  - reflexivity.
  - cbn. lia.
  - intros i t Hi Ht. cbn in Hi.
    destruct i as [|[|i]]; [| |lia]; cbn in Ht; injection Ht as <-; cbn; lia.
Defined.

Lemma attr_not_be_is_reported_witness :
  spacy_to_ud_word (Some 3) she_became_a_doctor
  = (Return tt,
     reported "Dep attr used with something other than to be: became <-attr- doctor"
       she_became_a_doctor).
Proof.
  apply (attr_not_be_is_reported she_became_a_doctor 3 1 w_doctor w_became);
    (reflexivity || discriminate).
Defined.

Lemma pobj_without_preps_is_reported_witness :
  spacy_to_ud_word (Some 1) go_home
  = (Return tt, reported "pobj without preps, word: home" go_home).
Proof.
  apply (pobj_without_preps_is_reported go_home 1 0 w_home w_go); reflexivity.
Defined.

Lemma pcomp_without_prep_witness :
  spacy_to_ud_word (Some 2) talk_about_leaving
  = (Return tt,
     reported "No prep dependency in: talk <-mark- about <-pcomp- leaving"
       talk_about_leaving).
Proof.
  apply (pcomp_without_prep talk_about_leaving 2 1 w_leaving w_about);
    try reflexivity; try discriminate.
  intros [_ H]. discriminate H.
Defined.

(** ** Governor position and governor word *)

Lemma coherent_agree σ :
  coherent (word_nodes σ) ↔ agree (index <$> word_nodes σ) σ.
Proof.
  unfold coherent, agree. split.
  - intros H. split; [done|]. intros i w g Hw Hg.
    destruct (H i w g Hw Hg) as (gw & Hgw & ->).
    now rewrite list_lookup_fmap, Hgw.
  - intros [_ H] i w g Hw Hg. specialize (H i w g Hw Hg).
    rewrite list_lookup_fmap in H.
    destruct (word_nodes σ !! g) as [gw|]; [|discriminate H].
    exists gw. split; [done|]. cbn in H. congruence.
Qed.

#[local] Instance keeps_agreement_preorder idx : PreOrder (keeps_agreement idx).
Proof.
  split.
  - intros σ H. exact H.
  - intros σ1 σ2 σ3 H1 H2 H. auto.
Qed.

Lemma agree_update idx σ i w w' :
  agree idx σ → word_nodes σ !! i = Some w →
  index w' = index w →
  (∀ g, governor_word w' = Some g → idx !! g = Some (governor w')) →
  agree idx (set_words (<[i := w']> (word_nodes σ)) σ).
Proof.
  intros [Hidx Hco] Hw Hi Hg. split; rewrite word_nodes_set_words.
  - rewrite list_fmap_insert, Hi, Hidx. apply list_insert_id.
    now rewrite <- Hidx, list_lookup_fmap, Hw.
  - intros j x g Hx Hgx. destruct (decide (j = i)) as [->|Hne].
    + rewrite list_lookup_insert_eq in Hx by (eapply lookup_lt_Some; eauto).
      injection Hx as <-. auto.
    + rewrite list_lookup_insert_ne in Hx by done. eauto.
Qed.

Lemma agreement_relabel idx {A} x (upd : A → WordNode → WordNode) v :
  (∀ w, index (upd v w) = index w ∧ governor (upd v w) = governor w
        ∧ governor_word (upd v w) = governor_word w) →
  stable (keeps_agreement idx) (setattr x upd v).
Proof.
  intros Hupd σ HI. unfold setattr. destruct x as [i|]; [|done].
  destruct (word_nodes σ !! i) as [w|] eqn:Hw; [|done]. cbn [snd].
  destruct (Hupd w) as (Hi & Hg & Hgw).
  apply (agree_update idx σ i w); [done..|].
  intros g. rewrite Hgw, Hg. destruct HI as [_ Hco]. eauto.
Qed.

Lemma agreement_print idx line : stable (keeps_agreement idx) (print line).
Proof. intros σ HI. exact HI. Qed.

(** Reading the position of a word gives a fact that outlives the state. *)
Lemma agreement_index idx {B} t (k : Z → M World B) :
  (∀ gi, position_of idx gi t → stable (keeps_agreement idx) (k gi)) →
  stable (keeps_agreement idx) (bind (getattr t index) k).
Proof.
  intros Hk σ HI. unfold bind, getattr. destruct t as [i|]; [|done].
  destruct (word_nodes σ !! i) as [w|] eqn:Hw; [|done].
  apply (Hk (index w)); [|done]. intros j [= <-].
  destruct HI as [<- _]. now rewrite list_lookup_fmap, Hw.
Qed.

(** [x.governor = g; x.governor_word = t], where [g] is the position of
    [t]. *)
Lemma agreement_attach idx {B} x g t (k : unit → M World B) :
  position_of idx g t →
  stable (keeps_agreement idx) (k tt) →
  stable (keeps_agreement idx)
    (bind (setattr x with_governor g)
          (λ _, bind (setattr x with_governor_word t) k)).
Proof.
  intros Hp Hk σ HI. unfold bind at 1. unfold setattr at 1.
  destruct x as [i|]; [|done].
  destruct (word_nodes σ !! i) as [w|] eqn:Hw; [|done].
  assert (Hi : i < length (word_nodes σ)) by (eapply lookup_lt_Some; eauto).
  unfold bind, setattr. rewrite word_nodes_set_words.
  rewrite list_lookup_insert_eq by done.
  rewrite set_words_twice, list_insert_insert_eq.
  apply Hk.
  apply (agree_update idx σ i w); [done..|].
  intros j Hj. now apply Hp.
Qed.

Lemma agreement_attach_end idx x g t :
  position_of idx g t →
  stable (keeps_agreement idx)
    (bind (setattr x with_governor g) (λ _, setattr x with_governor_word t)).
Proof.
  intros Hp σ HI.
  pose proof (agreement_attach idx x g t ret Hp (stable_ret _ tt) σ HI) as H.
  unfold bind in *. destruct (setattr x with_governor g σ) as [[[]|e] σ1]; [|done].
  destruct (setattr x with_governor_word t σ1) as [[[]|e] σ2]; done.
Qed.

(** [x.governor = b.governor; x.governor_word = b.governor_word] *)
Lemma agreement_copy idx {B} x b (k : unit → M World B) :
  stable (keeps_agreement idx) (k tt) →
  stable (keeps_agreement idx)
    (bind (getattr b governor)
       (λ g, bind (setattr x with_governor g)
          (λ _, bind (getattr b governor_word)
             (λ gw, bind (setattr x with_governor_word gw) k)))).
Proof.
  intros Hk σ HI. unfold bind at 1. unfold getattr at 1.
  destruct b as [j|]; [|done].
  destruct (word_nodes σ !! j) as [wb|] eqn:Hb; [|done].
  unfold bind at 1. unfold setattr at 1.
  destruct x as [i|]; [|done].
  destruct (word_nodes σ !! i) as [w|] eqn:Hw; [|done].
  assert (Hi : i < length (word_nodes σ)) by (eapply lookup_lt_Some; eauto).
  assert (Hgw : getattr (Some j) governor_word
                  (set_words (<[i := with_governor (governor wb) w]>
                                (word_nodes σ)) σ)
                = (Return (governor_word wb),
                   set_words (<[i := with_governor (governor wb) w]>
                                (word_nodes σ)) σ)).
  { unfold getattr. rewrite word_nodes_set_words.
    destruct (decide (j = i)) as [->|Hne].
    - rewrite list_lookup_insert_eq by done. now simplify_eq.
    - rewrite list_lookup_insert_ne by done. now rewrite Hb. }
  erewrite bind_Return by exact Hgw.
  unfold bind, setattr. rewrite word_nodes_set_words.
  rewrite list_lookup_insert_eq by done.
  rewrite set_words_twice, list_insert_insert_eq.
  apply Hk.
  apply (agree_update idx σ i w); [done..|].
  intros g Hg. cbn in Hg |- *. destruct HI as [_ Hco]. eauto.
Qed.

#[local] Hint Extern 1 (stable (keeps_agreement _) (print _)) =>
  refine (agreement_print _ _) : stable.

#[local] Hint Extern 1 (stable (keeps_agreement _) (setattr _ _ _)) =>
  refine (agreement_relabel _ _ _ _ _); intros ?; repeat split : stable.

(** Walks through a rule, taking the two assignments of a re-attachment
    together. *)
Ltac attach_step :=
  match goal with
  | |- stable (keeps_agreement _) (bind (getattr _ governor) _) =>
      refine (agreement_copy _ _ _ _ _)
  | |- stable (keeps_agreement _) (bind (setattr _ with_governor _) _) =>
      first [ refine (agreement_attach _ _ _ _ _ _ _); [eassumption|]
            | refine (agreement_attach_end _ _ _ _ _); eassumption ]
  | |- stable (keeps_agreement _) (bind (getattr _ index) _) =>
      refine (agreement_index _ _ _ _); intros ? ?
  | |- _ => walk_step
  end.

Ltac attach := repeat attach_step.

Lemma agreement_redirect_dependants idx f t :
  stable (keeps_agreement idx) (redirect_dependants f t).
Proof. unfold redirect_dependants. attach. Qed.

#[local] Hint Extern 1 (stable (keeps_agreement _) (redirect_dependants _ _)) =>
  refine (agreement_redirect_dependants _ _ _) : stable.

Lemma agreement_make_copula idx h b :
  stable (keeps_agreement idx) (make_copula h b).
Proof. unfold make_copula. attach. Qed.

Lemma agreement_make_passive idx b v :
  stable (keeps_agreement idx) (make_passive b v).
Proof. unfold make_passive. attach. Qed.

#[local] Hint Extern 1 (stable (keeps_agreement _) (make_copula _ _)) =>
  refine (agreement_make_copula _ _ _) : stable.

#[local] Hint Extern 1 (stable (keeps_agreement _) (make_passive _ _)) =>
  refine (agreement_make_passive _ _ _) : stable.

Lemma agreement_spacy_to_ud_word idx w :
  stable (keeps_agreement idx) (spacy_to_ud_word w).
Proof.
  unfold spacy_to_ud_word. refine (stable_bind _ _ _ _ _); [walk|]. intros d.
  repeat match goal with
         | |- stable _ (if ?b then _ else _) => destruct b
         end.
  - unfold aux_to_ud. attach.
  - unfold oprd_to_ud. attach.
  - unfold amod_to_ud. attach.
  - unfold nmod_to_ud. attach.
  - unfold nummod_to_ud. attach.
  - unfold advcl_to_ud. attach.
  - unfold pobj_to_ud. attach.
  - unfold pcomp_to_ud. attach.
  - unfold comp_to_ud. attach.
  - unfold attr_to_ud. attach.
  - unfold acomp_to_ud. attach.
  - unfold advmod_to_ud. attach.
  - unfold npadvmod_to_ud. attach.
  - unfold conj_to_ud. attach.
  - unfold dep_to_ud. attach.
  - attach.
Qed.

Lemma coherentb_coherent ws : coherentb ws = true → coherent ws.
Proof.
  unfold coherentb. rewrite forallb_forall. intros H i w g Hw Hg.
  specialize (H w). rewrite Hg in H.
  destruct (ws !! g) as [gw|].
  - exists gw. split; [done|]. apply Z.eqb_eq, H.
    apply list_elem_of_In. eapply list_elem_of_lookup_2; eauto.
  - discriminate H. apply list_elem_of_In. eapply list_elem_of_lookup_2; eauto.
Qed.

Lemma agreement_spacy_to_ud idx : stable (keeps_agreement idx) spacy_to_ud.
Proof.
  unfold spacy_to_ud. refine (stable_bind _ _ _ _ _); [walk|]. intros sent.
  refine (stable_bind _ _ _ _ _).
  - refine (stable_for_each _ _ _ _). intros w.
    apply agreement_spacy_to_ud_word.
  - intros _. unfold fix_advmod_cop, fix_advmod_cop_word. attach.
Qed.

(** X19. If, before the rules are applied, the governor position of every
    word that has a governor word is the position of that word, then it is
    so after [spacy_to_ud], however the pass ends: every rule that
    re-attaches a word sets position and word together. *)
Theorem spacy_to_ud_keeps_governors_coherent σ :
  coherent (word_nodes σ) → coherent (word_nodes (snd (spacy_to_ud σ))).
Proof.
  intros H%coherent_agree.
  apply (agreement_spacy_to_ud _ σ) in H. apply coherent_agree.
  destruct H as [Hidx Hco]. split; [done|]. now rewrite Hidx.
Qed.

Lemma spacy_to_ud_keeps_governors_coherent_witness :
  coherent (word_nodes (snd (spacy_to_ud sam_spent_40))).
Proof.
  apply (spacy_to_ud_keeps_governors_coherent sam_spent_40).
  apply coherentb_coherent. reflexivity.
Defined.

(** ** Governor resolution in a sentence that starts the document *)

Lemma agreement_add_governor_word idx :
  (∀ k g, idx !! k = Some g → g = (Z.of_nat k + 1)%Z) →
  stable (keeps_agreement idx) add_governor_word.
Proof.
  intros Hloc. unfold add_governor_word.
  refine (stable_bind _ _ _ _ _); [walk|]. intros sent.
  refine (stable_for_each _ _ _ _). intros x σ HI.
  unfold bind at 1. unfold getattr. destruct x as [i|]; [|done].
  destruct (word_nodes σ !! i) as [w|] eqn:Hw; [|done].
  destruct (0 <? governor w)%Z eqn:Hpos; [|done].
  apply Z.ltb_lt in Hpos. unfold bind, subscript.
  destruct ((0 <=? governor w - 1)%Z
            && (governor w - 1 <? Z.of_nat (length (word_nodes σ)))%Z) eqn:Hin.
  - apply andb_prop in Hin as [_ Hlt%Z.ltb_lt].
    unfold setattr. rewrite Hw. cbn [snd].
    apply (agree_update idx σ i w); [done..|].
    intros g [= <-]. cbn [governor with_governor_word].
    destruct HI as [Hidx _].
    assert (Hk : Z.to_nat (governor w - 1) < length idx).
    { rewrite <- Hidx, length_fmap. lia. }
    destruct (lookup_lt_is_Some_2 _ _ Hk) as [g Hg].
    rewrite Hg. f_equal. apply Hloc in Hg. lia.
  - replace ((governor w - 1 <? 0)%Z) with false
      by (symmetry; apply Z.ltb_ge; lia).
    done.
Qed.

Lemma agreement_mark_phrase_head idx e sws :
  ∀ todo, stable (keeps_agreement idx) (mark_phrase_head e sws todo).
Proof. induction todo as [|x todo IH]; cbn [mark_phrase_head]; walk. Qed.

Lemma agreement_add_entities idx es :
  stable (keeps_agreement idx) (add_entities es).
Proof.
  unfold add_entities. refine (stable_for_each _ _ _ _). intros e.
  unfold add_entity, find_span_words. refine (stable_bind _ _ _ _ _); [walk|].
  intros sws.
  refine (stable_bind _ _ _ _ _); [apply agreement_mark_phrase_head|].
  intros h. walk.
Qed.

Lemma spacy_to_ud_sentence_coherent sp_doc s out :
  sent_start s = 0 →
  coherent
    (word_nodes
       (snd (spacy_to_ud_sentence sp_doc s {| word_nodes := []; stdout := out |}))).
Proof.
  intros Hs. unfold spacy_to_ud_sentence. unfold bind at 1.
  rewrite materialize_run. unfold set_words. cbn [word_nodes app stdout].
  set (σ0 := {| word_nodes := _ <$> _; stdout := out |}).
  set (idx := index <$> word_nodes σ0).
  assert (Hloc : ∀ k g, idx !! k = Some g → g = (Z.of_nat k + 1)%Z).
  { intros k g. unfold idx, σ0. cbn [word_nodes].
    rewrite !list_lookup_fmap. unfold span_tokens. rewrite Hs.
    destruct (zip _ _ !! k) as [[j t]|] eqn:Hz; [|discriminate].
    apply lookup_zip_with_Some in Hz as (j' & t' & [= <- <-] & Hj & _).
    apply lookup_seq in Hj as [-> _]. cbn. now intros [= <-]. }
  assert (H0 : agree idx σ0).
  { split; [done|]. intros i w g Hw Hg. unfold σ0 in Hw. cbn [word_nodes] in Hw.
    rewrite list_lookup_fmap in Hw.
    destruct (span_tokens sp_doc s !! i) as [[j t]|]; [|discriminate Hw].
    cbn in Hw. injection Hw as <-. discriminate Hg. }
  assert (Hrest : stable (keeps_agreement idx)
                    (bind add_governor_word
                       (λ _, bind spacy_to_ud
                          (λ _, add_entities (span_ents s))))).
  { refine (stable_bind _ _ _ _ _); [now apply agreement_add_governor_word|].
    intros _. refine (stable_bind _ _ _ _ _); [apply agreement_spacy_to_ud|].
    intros _. apply agreement_add_entities. }
  apply Hrest in H0. destruct H0 as [Hidx Hco].
  apply coherent_agree. split; [done|]. now rewrite Hidx.
Qed.

Lemma convert_sentences_coherent sp_doc : ∀ ss doc0 out doc out',
  convert_sentences sp_doc ss doc0 out = (Return doc, out') →
  ∃ new, doc = (doc0 ++ new)%list
         ∧ Forall2 (λ s sn, sent_start s = 0 → coherent (sent_word_nodes sn))
             ss new.
Proof.
  induction ss as [|s ss IH]; intros doc0 out doc out'; cbn [convert_sentences].
  - intros [= <- _]. exists []. split; [now rewrite app_nil_r|constructor].
  - pose proof (spacy_to_ud_sentence_coherent sp_doc s out) as Hc.
    destruct (spacy_to_ud_sentence sp_doc s _) as [[[]|e] σ]; [|discriminate].
    intros (new & -> & Hnew)%IH.
    eexists (_ :: new). split; [now rewrite <- app_assoc|].
    constructor; [|done]. cbn [sent_word_nodes snd] in *. exact Hc.
Qed.

(** X20. In a converted document, a sentence that begins at the first token
    of the parse (the only sentence, when the parse is one sentence or has
    none) has governor positions that agree with its governor words, for
    every word that has a governor word, whatever the rules and the entity
    alignment did. *)
Theorem first_sentence_governors_coherent sp_doc out doc out' :
  spacy_to_ud_doc sp_doc out = (Return doc, out') →
  Forall2 (λ s sn, sent_start s = 0 → coherent (sent_word_nodes sn))
    (doc_sentences_of sp_doc) doc.
Proof.
  intros Hrun. unfold spacy_to_ud_doc in Hrun.
  apply convert_sentences_coherent in Hrun as (new & -> & Hnew). exact Hnew.
Qed.

Lemma first_sentence_governors_coherent_witness :
  ∃ doc,
    fst (spacy_to_ud_doc stop_go_home []) = Return doc
    ∧ Forall2 (λ s sn, sent_start s = 0 → coherent (sent_word_nodes sn))
        (doc_sentences_of stop_go_home) doc.
Proof.
  eexists.
  assert (H : spacy_to_ud_doc stop_go_home []
              = (Return (match spacy_to_ud_doc stop_go_home [] with
                         | (Return d, _) => d
                         | _ => []
                         end), []))
    by (vm_compute; reflexivity).
  split; [now rewrite H|].
  exact (first_sentence_governors_coherent stop_go_home [] _ [] H).
Defined.

(** ** The exceptions of the rule engine *)

Section Safe.
Context (n : nat).

Lemma safe_ret {A} `{Ranged A} (a : A) : in_range n a → safe n (ret a).
Proof. intros Ha σ Hσ. now split. Qed.

Lemma safe_bind {A B} `{Ranged A} `{Ranged B} (m : M World A)
    (k : A → M World B) :
  safe n m → (∀ a, in_range n a → safe n (k a)) → safe n (bind m k).
Proof.
  intros Hm Hk σ Hσ. unfold bind. destruct (Hm σ Hσ) as [H1 H2].
  destruct (m σ) as [[a|e] σ1]; cbn [fst snd] in *; [|now split].
  now apply Hk.
Qed.

Lemma safe_getattr {A} `{Ranged A} x (f : WordNode → A) :
  (∀ a : A, in_range n a) → in_range n x → safe n (getattr x f).
Proof.
  intros Ha Hx σ Hσ. unfold getattr. destruct x as [i|]; [|cbn; split; auto].
  destruct (word_nodes σ !! i) as [w|] eqn:Hw; [split; [done|apply Ha]|].
  apply lookup_ge_None in Hw. destruct Hσ as [Hlen _].
  specialize (Hx i eq_refl). lia.
Qed.

Lemma safe_governor_word x : in_range n x → safe n (getattr x governor_word).
Proof.
  intros Hx σ Hσ. unfold getattr. destruct x as [i|]; [|cbn; split; auto].
  destruct (word_nodes σ !! i) as [w|] eqn:Hw.
  - split; [done|]. cbn. destruct Hσ as [_ Hg]. eauto.
  - apply lookup_ge_None in Hw. destruct Hσ as [Hlen _].
    specialize (Hx i eq_refl). lia.
Qed.

Lemma safe_update {A} x (upd : A → WordNode → WordNode) v :
  in_range n x → (∀ w, in_range n (governor_word w) →
                       in_range n (governor_word (upd v w))) →
  safe n (setattr x upd v).
Proof.
  intros Hx Hupd σ Hσ. unfold setattr. destruct x as [i|]; [|cbn; split; auto].
  destruct (word_nodes σ !! i) as [w|] eqn:Hw.
  - split; [|exact I]. destruct Hσ as [Hlen Hg]. cbn [snd].
    split; rewrite word_nodes_set_words; [now rewrite length_insert|].
    intros j x Hx'. destruct (decide (j = i)) as [->|Hne].
    + rewrite list_lookup_insert_eq in Hx' by (eapply lookup_lt_Some; eauto).
      injection Hx' as <-. eauto.
    + rewrite list_lookup_insert_ne in Hx' by done. eauto.
  - apply lookup_ge_None in Hw. destruct Hσ as [Hlen _].
    specialize (Hx i eq_refl). lia.
Qed.

Lemma safe_print line : safe n (print line).
Proof. intros σ Hσ. now split. Qed.

Lemma safe_raise_attribute {A} `{Ranged A} : safe n (@raise World A AttributeError).
Proof. intros σ Hσ. cbn. split; auto. Qed.

Lemma safe_raise_nontermination {A} `{Ranged A} :
  safe n (@raise World A NonTermination).
Proof. intros σ Hσ. cbn. split; auto. Qed.

Lemma seq_in_range σ :
  in_sentence n σ →
  in_range n (Some <$> seq 0 (length (word_nodes σ)) : list (option nat)).
Proof.
  intros [Hlen _]. apply Forall_fmap, Forall_forall.
  intros i Hi%elem_of_seq j [= <-]. lia.
Qed.

Lemma safe_sentence_words x : safe n (sentence_words x).
Proof.
  intros σ Hσ. unfold sentence_words. destruct x; [|cbn; split; auto].
  split; [done|]. now apply seq_in_range.
Qed.

Lemma safe_all_words : safe n all_words.
Proof. intros σ Hσ. split; [done|]. now apply seq_in_range. Qed.

Lemma safe_for_each {A} `{Ranged A} (xs : list A) (body : A → M World unit) :
  in_range n xs → (∀ x, in_range n x → safe n (body x)) →
  safe n (for_each xs body).
Proof.
  intros Hxs Hb. induction Hxs as [|x xs Hx _ IH]; cbn [for_each].
  - now apply safe_ret.
  - apply safe_bind; [now apply Hb|]. intros _ _. exact IH.
Qed.

Lemma safe_first_such (xs : list (option nat)) (p : option nat → M World bool) :
  in_range n xs → (∀ x, in_range n x → safe n (p x)) →
  safe n (first_such xs p).
Proof.
  intros Hxs Hp. induction Hxs as [|x xs Hx _ IH]; cbn [first_such].
  - apply safe_ret. intros i. discriminate.
  - apply safe_bind; [now apply Hp|]. intros [|] _; [now apply safe_ret|exact IH].
Qed.

End Safe.

#[local] Instance plain_bool : Plain bool.
Proof. intros n a. exact I. Qed.

#[local] Instance plain_string : Plain string.
Proof. intros n a. exact I. Qed.

#[local] Instance plain_Z : Plain Z.
Proof. intros n a. exact I. Qed.

#[local] Instance plain_prod {A B} `{Plain A} `{Plain B} : Plain (A * B).
Proof. intros n [a b]. split; apply plain. Qed.

#[local] Instance plain_list {A} `{Plain A} : Plain (list A).
Proof. intros n l. apply Forall_forall. intros a _. apply plain. Qed.

Lemma safe_field n {A} `{Plain A} x (f : WordNode → A) :
  in_range n x → safe n (getattr x f).
Proof. intros Hx. apply safe_getattr; [apply plain|done]. Qed.

Lemma safe_relabel n {A} x (upd : A → WordNode → WordNode) v :
  in_range n x → (∀ w, governor_word (upd v w) = governor_word w) →
  safe n (setattr x upd v).
Proof.
  intros Hx Hupd. apply safe_update; [done|]. intros w Hw. now rewrite Hupd.
Qed.

Lemma safe_governor_word_update n x v :
  in_range n x → in_range n v → safe n (setattr x with_governor_word v).
Proof. intros Hx Hv. apply safe_update; [done|]. intros w _. exact Hv. Qed.

Lemma in_range_None n : in_range n (None : option nat).
Proof. intros i. discriminate. Qed.

Ltac ranged :=
  solve [ repeat first
            [ assumption
            | exact I
            | apply in_range_None
            | apply plain
            | apply Forall_nil_2
            | apply Forall_cons_2
            | apply Forall_app_2
            | split ] ].

Create HintDb safe.

Ltac safe_step :=
  match goal with
  | H : in_range _ (_, _) |- _ => destruct H as [? ?]; cbn [fst snd] in *
  | H : in_range ?n (?x :: ?xs) |- _ =>
      apply (Forall_cons_1 (in_range n) x xs) in H as [? ?]
  | |- safe _ (ret _) => refine (safe_ret _ _ _); ranged
  | |- safe _ (raise AttributeError) => refine (safe_raise_attribute _)
  | |- safe _ (raise NonTermination) => refine (safe_raise_nontermination _)
  | |- safe _ (getattr _ governor_word) =>
      refine (safe_governor_word _ _ _); ranged
  | |- safe _ (getattr _ _) => refine (safe_field _ _ _ _); ranged
  | |- safe _ (setattr _ with_governor_word _) =>
      refine (safe_governor_word_update _ _ _ _ _); ranged
  | |- safe _ (setattr _ _ _) =>
      refine (safe_relabel _ _ _ _ _ _); [ranged|intros ?; reflexivity]
  | |- safe _ (print _) => refine (safe_print _ _)
  | |- safe _ (sentence_words _) => refine (safe_sentence_words _ _)
  | |- safe _ all_words => refine (safe_all_words _)
  | |- safe _ (bind _ _) => refine (safe_bind _ _ _ _ _); [|intros ? ?]
  | |- safe _ (for_each _ _) =>
      refine (safe_for_each _ _ _ _ _); [ranged|intros ? ?]
  | |- safe _ (first_such _ _) =>
      refine (safe_first_such _ _ _ _ _); [ranged|intros ? ?]
  | |- safe _ (match ?x with _ => _ end) => destruct x
  | |- safe _ _ => solve [auto with safe]
  end.

Ltac safely := repeat safe_step.

Lemma safe_find_governed n x dep : in_range n x → safe n (find_governed x dep).
Proof. intros Hx. unfold find_governed. safely. Qed.

Lemma safe_find_subj n x : in_range n x → safe n (find_subj x).
Proof. intros Hx. unfold find_subj. safely. Qed.

#[local] Hint Extern 1 (safe _ (find_governed _ _)) =>
  refine (safe_find_governed _ _ _ _); ranged : safe.

#[local] Hint Extern 1 (safe _ (find_subj _)) =>
  refine (safe_find_subj _ _ _); ranged : safe.

Lemma safe_prep_chain_loop n fuel : ∀ x acc,
  in_range n x → in_range n acc → safe n (prep_chain_loop fuel x acc).
Proof.
  induction fuel as [|fuel IH]; intros x acc Hx Hacc; cbn [prep_chain_loop].
  - safely.
  - refine (safe_bind _ _ _ _ _); [safely|]. intros d _.
    destruct (String.eqb d "prep"); [|safely].
    refine (safe_bind _ _ _ _ _); [safely|]. intros gx Hgx.
    apply IH; [done|]. apply Forall_app_2; [done|]. now constructor.
Qed.

Lemma safe_prep_chain n x : in_range n x → safe n (prep_chain x).
Proof.
  intros Hx. unfold prep_chain.
  refine (safe_bind _ _ _ _ _); [safely|]. intros y Hy.
  refine (safe_bind _ _ _ _ _); [safely|]. intros d _.
  destruct (string_in d ["iobj"; "agent"]); [safely|].
  refine (safe_bind _ _ _ _ _); [safely|]. intros sent _.
  apply safe_prep_chain_loop; [done|constructor].
Qed.

#[local] Hint Extern 1 (safe _ (prep_chain _)) =>
  refine (safe_prep_chain _ _ _); ranged : safe.

Lemma safe_redirect_dependants n f t :
  in_range n f → in_range n t → safe n (redirect_dependants f t).
Proof. intros Hf Ht. unfold redirect_dependants. safely. Qed.

#[local] Hint Extern 1 (safe _ (redirect_dependants _ _)) =>
  refine (safe_redirect_dependants _ _ _ _ _); ranged : safe.

Lemma safe_make_copula n h b :
  in_range n h → in_range n b → safe n (make_copula h b).
Proof. intros Hh Hb. unfold make_copula. safely. Qed.

Lemma safe_make_passive n b v :
  in_range n b → in_range n v → safe n (make_passive b v).
Proof. intros Hb Hv. unfold make_passive. safely. Qed.

#[local] Hint Extern 1 (safe _ (make_copula _ _)) =>
  refine (safe_make_copula _ _ _ _ _); ranged : safe.

#[local] Hint Extern 1 (safe _ (make_passive _ _)) =>
  refine (safe_make_passive _ _ _ _ _); ranged : safe.

Lemma safe_spacy_to_ud_word n w : in_range n w → safe n (spacy_to_ud_word w).
Proof.
  intros Hw. unfold spacy_to_ud_word.
  refine (safe_bind _ _ _ _ _); [safely|]. intros d _.
  repeat match goal with
         | |- safe _ (if ?b then _ else _) => destruct b
         end.
  - unfold aux_to_ud. safely.
  - unfold oprd_to_ud. safely.
  - unfold amod_to_ud. safely.
  - unfold nmod_to_ud. safely.
  - unfold nummod_to_ud. safely.
  - unfold advcl_to_ud. safely.
  - unfold pobj_to_ud. safely.
  - unfold pcomp_to_ud. safely.
  - unfold comp_to_ud. safely.
  - unfold attr_to_ud. safely.
  - unfold acomp_to_ud. safely.
  - unfold advmod_to_ud. safely.
  - unfold npadvmod_to_ud. safely.
  - unfold conj_to_ud. safely.
  - unfold dep_to_ud. safely.
  - safely.
Qed.

Lemma safe_spacy_to_ud n : safe n spacy_to_ud.
Proof.
  unfold spacy_to_ud. refine (safe_bind _ _ _ _ _); [safely|]. intros sent Hs.
  refine (safe_bind _ _ _ _ _).
  - refine (safe_for_each _ _ _ _ _); [done|]. intros w Hw.
    now apply safe_spacy_to_ud_word.
  - intros _ _. unfold fix_advmod_cop, fix_advmod_cop_word.
    refine (safe_bind _ _ _ _ _); [safely|]. intros sent' Hs'.
    refine (safe_for_each _ _ _ _ _).
    + now apply Forall_reverse.
    + intros w Hw. safely.
Qed.

(** X21. In a sentence whose governor words are words of the sentence,
    [spacy_to_ud] returns, or fails with AttributeError (an attribute of
    None is read, as for a rule that looks above the root), or does not
    terminate (a cycle of prepositions): it raises nothing else; and the
    governor words are still words of the sentence afterwards. *)
Theorem spacy_to_ud_raises_attribute_error_only σ :
  (∀ i w g, word_nodes σ !! i = Some w → governor_word w = Some g →
     g < length (word_nodes σ)) →
  (∀ e, fst (spacy_to_ud σ) = Raise e → e = AttributeError ∨ e = NonTermination)
  ∧ (∀ i w g, word_nodes (snd (spacy_to_ud σ)) !! i = Some w →
       governor_word w = Some g → g < length (word_nodes (snd (spacy_to_ud σ)))).
Proof.
  intros H.
  destruct (safe_spacy_to_ud (length (word_nodes σ)) σ) as [[Hlen Hg] Hout].
  { split; [done|]. intros i w Hw g Hgw. eauto. }
  split.
  - intros e He. now rewrite He in Hout.
  - intros i w g Hw Hgw. rewrite Hlen. exact (Hg i w Hw g Hgw).
Qed.

Lemma spacy_to_ud_raises_attribute_error_only_witness :
  (∀ e, fst (spacy_to_ud sam_spent_40) = Raise e
        → e = AttributeError ∨ e = NonTermination)
  ∧ (∀ i w g, word_nodes (snd (spacy_to_ud sam_spent_40)) !! i = Some w →
       governor_word w = Some g →
       g < length (word_nodes (snd (spacy_to_ud sam_spent_40)))).
Proof.
  apply (spacy_to_ud_raises_attribute_error_only sam_spent_40).
  intros i w g Hw Hg. cbn [length word_nodes sam_spent_40 sentence_of].
  destruct i as [|[|[|[|i]]]]; cbn in Hw; try discriminate Hw;
    injection Hw as <-; cbn in Hg; try discriminate Hg;
    injection Hg as <-; lia.
Defined.
